(** * The assignment-driven loss engine of the HOI detector

    A shallow embedding of [models/criterion.py] (class [SetCriterion]):
    the permutation indexer, the label resolver, the four loss functions
    and the orchestrating [forward].

    Conventions of the embedding:
    - real-valued ("float") tensors hold mathematical reals, so rounding
      is not modelled; 1-D tensors are lists, 2-D tensors lists of rows,
      the rank-3 tensors of the prediction output lists of lists of rows;
    - integer tensors hold [Z] (class indicators) or [nat] (indices);
    - a Python exception is a [Raise e] result; every function that can
      raise returns a [result];
    - Python dictionaries keyed by strings are [gmap string _]. *)

From Stdlib Require Import Reals Lra Lia ZArith.
From stdpp Require Import gmap strings list fin_maps pretty.

(** ** Exceptions and results *)

Inductive exn :=
  | AssertionError
  | AttributeError
  | IndexError
  | KeyError
  | RuntimeError
  | ValueError
  | StopIteration.

Inductive result (A : Type) :=
  | Ok (a : A)
  | Raise (e : exn).
Arguments Ok {A} a.
Arguments Raise {A} e.

#[global] Instance result_ret : MRet result := @Ok.
#[global] Instance result_bind : MBind result := λ A B f m,
  match m with Ok a => f a | Raise e => Raise e end.
#[global] Instance result_fmap : FMap result := λ A B f m,
  match m with Ok a => Ok (f a) | Raise e => Raise e end.

Definition is_Ok {A} (r : result A) : Prop := ∃ a, r = Ok a.

(** [o] when present, exception [e] otherwise (a failed subscript). *)
Definition or_raise {A} (e : exn) (o : option A) : result A :=
  match o with Some a => Ok a | None => Raise e end.

(** [assert b] *)
Definition assert (b : bool) : result unit :=
  if b then Ok tt else Raise AssertionError.

(** A [for] loop threading an accumulator through a fallible body. *)
Fixpoint foldlM {A B} (f : A → B → result A) (a : A) (l : list B) : result A :=
  match l with
  | [] => Ok a
  | b :: l' => a' ← f a b; foldlM f a' l'
  end.

(** ** The torch primitives the criterion calls *)

Module Torch.

Definition sumR (l : list R) : R := foldr Rplus 0%R l.
Definition sumZ (l : list Z) : Z := foldr Z.add 0%Z l.

(** [torch.cat] of 1-D tensors: an empty list of tensors is refused. *)
Definition cat {A} (ts : list (list A)) : result (list A) :=
  match ts with
  | [] => Raise RuntimeError
  | _ => Ok (concat ts)
  end.

(** [torch.stack(ts, dim=0)]: an empty list of tensors is refused.
    (The tensors are taken to have one shape.) *)
Definition stack {A} (ts : list A) : result (list A) :=
  match ts with
  | [] => Raise RuntimeError
  | _ => Ok ts
  end.

(** [torch.full_like(src, i)] for a 1-D [src]. *)
Definition full_like {A B} (src : list A) (i : B) : list B :=
  replicate (length src) i.

(** [t[idx]] with one index tensor: selects along the first dimension. *)
Definition index {A} (t : list A) (idx : list nat) : result (list A) :=
  mapM (λ i, or_raise IndexError (t !! i)) idx.

(** [t[(batch_idx, src_idx)]]: advanced indexing with two parallel
    index tensors along the first two dimensions. *)
Definition index2 {A} (t : list (list A)) (idx : list nat * list nat)
    : result (list A) :=
  if decide (length idx.1 = length idx.2) then
    mapM (λ bs : nat * nat,
            row ← or_raise IndexError (t !! bs.1);
            or_raise IndexError (row !! bs.2))
         (zip idx.1 idx.2)
  else Raise IndexError.

(** [torch.nonzero(mask, as_tuple=True)[0]] of a 1-D boolean tensor:
    the positions holding [True], ascending. *)
Fixpoint nonzero_from (i : nat) (mask : list bool) : list nat :=
  match mask with
  | [] => []
  | b :: mask' =>
      if b then i :: nonzero_from (S i) mask' else nonzero_from (S i) mask'
  end.
Definition nonzero (mask : list bool) : list nat := nonzero_from 0 mask.

(** [x[mask]] with a boolean mask of the size of [x]. *)
Fixpoint select {A} (mask : list bool) (x : list A) : list A :=
  match mask, x with
  | b :: mask', a :: x' => if b then a :: select mask' x' else select mask' x'
  | _, _ => []
  end.
Definition masked_select {A} (mask : list bool) (x : list A)
    : result (list A) :=
  if decide (length mask = length x) then Ok (select mask x)
  else Raise IndexError.

(** [torch.argmax] of a 1-D integer tensor: the first position of the
    largest entry; an empty reduction dimension is refused. *)
Fixpoint argmax_from (best : Z) (besti i : nat) (l : list Z) : nat :=
  match l with
  | [] => besti
  | z :: l' =>
      if (best <? z)%Z then argmax_from z i (S i) l'
      else argmax_from best besti (S i) l'
  end.
Definition argmax (l : list Z) : result nat :=
  match l with
  | [] => Raise IndexError
  | z :: l' => Ok (argmax_from z 0 1 l')
  end.

(** Negative log-likelihood of class [t] under the softmax of the
    logits [x]: [log (sum_k exp x_k) - x_t]. *)
Definition nll (x : list R) (t : nat) : R :=
  (ln (sumR (exp <$> x)) - nth t x 0)%R.

Definition cross_entropy_row (x : list R) (t : nat) : result R :=
  if decide (t < length x) then Ok (nll x t) else Raise IndexError.

Inductive reduction := Mean | Sum.

(** [F.cross_entropy(input, target, reduction=...)] for a 2-D [input]
    and class-index targets. *)
Definition cross_entropy (red : reduction) (input : list (list R))
    (target : list nat) : result R :=
  if decide (length input = length target) then
    ls ← mapM (λ xt : list R * nat, cross_entropy_row xt.1 xt.2)
              (zip input target);
    match red with
    | Sum => Ok (sumR ls)
    | Mean => Ok (sumR ls / INR (length input))%R
    end
  else Raise ValueError.

(** *** Real-valued kernels *)

Definition mean (l : list R) : R := (sumR l / INR (length l))%R.

Definition sigmoid (x : R) : R := (1 / (1 + exp (- x)))%R.

(** One element of [F.binary_cross_entropy_with_logits]:
    [(1 - y) x + log (1 + exp (-x))]. *)
Definition bce_with_logits (x y : R) : R :=
  ((1 - y) * x + ln (1 + exp (- x)))%R.

(** One element of [F.binary_cross_entropy]; torch clamps both
    logarithms from below at -100. *)
Definition bce (p y : R) : R :=
  (- (y * Rmax (ln p) (-100) + (1 - y) * Rmax (ln (1 - p)) (-100)))%R.

Definition flatten3 {A} (t : list (list (list A))) : list A :=
  concat (concat t).

Definition shape2 {A} (t : list (list A)) : list nat := length <$> t.
Definition shape3 {A} (t : list (list (list A))) : list (list nat) :=
  shape2 <$> t.

(** [F.binary_cross_entropy_with_logits(input, target,
    reduction='mean')] on rank-3 tensors of one shape. *)
Definition binary_cross_entropy_with_logits (input target
    : list (list (list R))) : result R :=
  if decide (shape3 input = shape3 target) then
    Ok (mean (zip_with bce_with_logits (flatten3 input) (flatten3 target)))
  else Raise ValueError.

(** [F.binary_cross_entropy(input, target, weight=weight)] on
    flattened tensors, mean reduction. *)
Definition binary_cross_entropy (input target weight : list R)
    : result R :=
  if decide (length input = length target) then
    if decide (length weight = length input) then
      Ok (mean (zip_with Rmult weight (zip_with bce input target)))
    else Raise RuntimeError
  else Raise ValueError.

(** [torch.max(a, b)]: element-wise maximum of two tensors of one
    shape. *)
Definition maximum (a b : list (list (list R)))
    : result (list (list (list R))) :=
  if decide (shape3 a = shape3 b) then
    Ok (zip_with (zip_with (zip_with Rmax)) a b)
  else Raise RuntimeError.

(** [F.l1_loss(a, b, reduction='none')] on matrices of one shape. *)
Definition l1_loss (a b : list (list R)) : result (list (list R)) :=
  if decide (shape2 a = shape2 b) then
    Ok (zip_with (zip_with (λ x y, Rabs (x - y))) a b)
  else Raise RuntimeError.

(** [torch.diag] of a matrix. *)
Definition diag (m : list (list R)) : list R :=
  omap (λ ir : nat * list R, ir.2 !! ir.1) (imap pair m).

(** [t[(batch_idx, src_idx)] = v]: in-place write at the indexed
    positions of a 2-D tensor, one value for all of them. *)
Definition index_put2 {A} (t : list (list A)) (idx : list nat * list nat)
    (v : A) : result (list (list A)) :=
  if decide (length idx.1 = length idx.2) then
    foldlM (λ t bs,
              row ← or_raise IndexError (t !! bs.1);
              _ ← or_raise IndexError (row !! bs.2);
              Ok (<[bs.1 := <[bs.2 := v]> row]> t))
           t (zip idx.1 idx.2)
  else Raise IndexError.

(** [m.t()] of a matrix with [ncols] columns. *)
Definition transpose {A} (d : A) (ncols : nat) (m : list (list A))
    : list (list A) :=
  (λ j, (λ row, nth j row d) <$> m) <$> seq 0 ncols.

End Torch.

(** ** Data model *)

(** An Assignment: per image, the matched prediction slots and the
    matched ground-truth interaction indices. *)
Definition assignment := list (list nat * list nat).

(** ** [SetCriterion._get_src_permutation_idx] *)

Definition _get_src_permutation_idx (indices : assignment)
    : result (list nat * list nat) :=
  batch_idx ← Torch.cat (imap (λ i p, Torch.full_like p.1 i) indices);
  src_idx ← Torch.cat ((λ p, p.1) <$> indices);
  Ok (batch_idx, src_idx).

(** The matched (image, slot) coordinates in assignment order. *)
Definition matched_coordinates (indices : assignment) : list (nat * nat) :=
  concat (imap (λ i p, (λ s, (i, s)) <$> p.1) indices).

(** ** [SetCriterion.masked_out_cross_entropy] *)

(** [num_pos = target_classes.sum(dim=-1)] *)
Definition num_pos (target_classes : list (list Z)) : list Z :=
  Torch.sumZ <$> target_classes.

(** The positions of the non-zero entries of an integer row,
    [torch.nonzero(t)]. *)
Definition nonzero_entries (t : list Z) : list nat :=
  Torch.nonzero ((λ z, bool_decide (z ≠ 0%Z)) <$> t).

(** The body of the inner loop (lines 128-131) for row [i], whose
    indicator row is [t], and positive column [j]. *)
Definition masked_out_term (src_logits : list (list R)) (i : nat)
    (t : list Z) (j : nat) : result R :=
  let mask := (λ z, bool_decide (z = 0%Z)) <$> t in
  let mask := <[j := true]> mask in
  kept ← Torch.masked_select mask t;
  tgt ← Torch.argmax kept;
  rows ← mapM (Torch.masked_select mask) (take 1 (drop i src_logits));
  Torch.cross_entropy Torch.Sum rows [tgt].

(** The value of [loss] when line 133 is reached: the summed
    cross-entropy of the rows with fewer than two positives, then one
    averaged term per row with several positives. *)
Definition masked_out_loss_sum (src_logits : list (list R))
    (target_classes : list (list Z)) : result R :=
  let loss := 0%R in
  let num_pos := num_pos target_classes in
  let indices := Torch.nonzero ((λ n, bool_decide (n < 2)%Z) <$> num_pos) in
  selected ← Torch.index target_classes indices;
  targets_one_pos ← mapM Torch.argmax selected;
  rows ← Torch.index src_logits indices;
  ce ← Torch.cross_entropy Torch.Sum rows targets_one_pos;
  let loss := (loss + ce)%R in
  let indices := Torch.nonzero ((λ n, bool_decide (1 < n)%Z) <$> num_pos) in
  foldlM (λ loss i,
            t ← or_raise IndexError (target_classes !! i);
            let cnt := Torch.sumZ t in
            loss_t ← foldlM (λ loss_t j,
                               ce ← masked_out_term src_logits i t j;
                               Ok (loss_t + ce)%R)
                            0%R (nonzero_entries t);
            Ok (loss + loss_t / IZR cnt)%R)
         loss indices.

Definition masked_out_cross_entropy (src_logits : list (list R))
    (target_classes : list (list Z)) : result R :=
  loss ← masked_out_loss_sum src_logits target_classes;
  Ok (loss / INR (length src_logits))%R.

(** *** The same loss, told the way the design document tells it *)

(** A binary indicator row. *)
Definition indicator_row (t : list Z) : Prop :=
  Forall (λ z, z = 0%Z ∨ z = 1%Z) t.

(** The positive columns of an indicator row, ascending. *)
Definition positive_columns (t : list Z) : list nat :=
  filter (λ j, t !! j = Some 1%Z) (seq 0 (length t)).

(** The columns kept for positive column [j]: the negatives and [j]. *)
Definition kept_columns (t : list Z) (j : nat) : list nat :=
  filter (λ k, t !! k = Some 0%Z ∨ k = j) (seq 0 (length t)).

(** The position of column [j] within a set of kept columns. *)
Definition position_within (j : nat) (kept : list nat) : nat :=
  length (filter (λ k, k < j) kept).

(** A logit row restricted to a set of columns. *)
Definition restrict (x : list R) (cols : list nat) : list R :=
  (λ k, nth k x 0%R) <$> cols.

(** The loss of a row with several positives: one cross-entropy per
    positive column against the negatives plus that column, summed,
    then divided by the number of positive columns. *)
Definition multi_positive_row_loss (x : list R) (t : list Z) : R :=
  (Torch.sumR ((λ j, Torch.nll (restrict x (kept_columns t j))
                                (position_within j (kept_columns t j)))
               <$> positive_columns t)
   / INR (length (positive_columns t)))%R.

(** The rows of a logit matrix paired with their indicator rows, kept
    when the indicator row has a number of positives satisfying [P]. *)
Definition rows_with (P : nat → Prop) `{∀ n, Decision (P n)}
    (src_logits : list (list R)) (target_classes : list (list Z))
    : list (list R * list Z) :=
  filter (λ xt, P (length (positive_columns xt.2)))
         (zip src_logits target_classes).

(** The only positive column of a row that has one (column 0 for a
    row that has none). *)
Definition positive_column (t : list Z) : nat :=
  default 0 (head (positive_columns t)).

(** *** Row-by-row reading of the two loops *)

(** [argmax] of a non-empty row, as a total function. *)
Definition argmax_row (t : list Z) : nat :=
  match t with
  | [] => 0
  | z :: t' => Torch.argmax_from z 0 1 t'
  end.

(** The mask built at lines 128-129 for positive column [j]. *)
Definition keep_mask (t : list Z) (j : nat) : list bool :=
  <[j := true]> ((λ z, bool_decide (z = 0%Z)) <$> t).

(** What a row of the first branch adds to the loss. *)
Definition few_positives_term (xt : list R * list Z) : R :=
  Torch.nll xt.1 (argmax_row xt.2).

(** What a row of the second branch adds to the loss. *)
Definition many_positives_term (xt : list R * list Z) : R :=
  (Torch.sumR ((λ j, Torch.nll (Torch.select (keep_mask xt.2 j) xt.1)
                       (argmax_row (Torch.select (keep_mask xt.2 j) xt.2)))
               <$> nonzero_entries xt.2)
   / IZR (Torch.sumZ xt.2))%R.

(** Matching shapes: as many logit rows as indicator rows, rows of one
    width, and at least one column. *)
Definition same_shape (src_logits : list (list R))
    (target_classes : list (list Z)) : Prop :=
  Forall2 (λ x t, length x = length t ∧ t ≠ []) src_logits target_classes.

(** ** Targets, prediction outputs and the criterion object *)

Abbreviation tensor3 := (list (list (list R))).

(** One interaction annotation of a Target Record. *)
Record hoi := {
  subject_id : nat;
  object_id : nat;
  hoi_id : nat;
}.

(** A Target Record, one per image; ["mask_region_hw"] is optional. *)
Record target := {
  hois : list hoi;
  boxes : list (list R);
  mask_region_hw : option tensor3;
}.

(** The Prediction Output: the tensor-valued entries of the mapping,
    and the entry ["aux_outputs"] when present, a sequence of mappings
    of the same kind (the objects the criterion updates in place). *)
Record prediction_output := {
  tensors : gmap string tensor3;
  aux_outputs : option (list (gmap string tensor3));
}.

(** An auxiliary-layer mapping handed to the matcher or to a loss. *)
Definition aux_as_outputs (aux : gmap string tensor3) : prediction_output :=
  {| tensors := aux; aux_outputs := None |}.

(** The attributes of a [SetCriterion] instance ([training] is the
    mode flag of [nn.Module]). *)
Record SetCriterion := {
  matcher : prediction_output → list target → assignment;
  weight_dict : gmap string R;
  eos_coef : R;
  losses : list string;
  enable_focal_loss : bool;
  focal_alpha : R;
  focal_gamma : R;
  consider_all : bool;
  training : bool;
}.

(** The loop header shared by the label resolver and the losses:
    [for t, (_, indices_per_t) in zip(targets, indices):
       for i in indices_per_t: ...], collecting one value per step. *)
Definition for_matched {A} (body : target → nat → result A)
    (targets : list target) (indices : assignment) : result (list A) :=
  per_image ← mapM (λ ti : target * (list nat * list nat),
                      mapM (body ti.1) ti.2.2)
                   (zip targets indices);
  Ok (concat per_image).

(** The size of the last dimension of a rank-3 tensor (0 when the
    tensor has no element to read it from). *)
Definition last_dim (t : tensor3) : nat :=
  match t with
  | (row :: _) :: _ => length row
  | _ => 0
  end.

(** ** The distributed runtime *)

(** Modelled from the spec: [utils.misc.is_dist_avail_and_initialized],
    [utils.misc.get_world_size] and [torch.distributed.all_reduce] are
    not part of the sources at hand.  The runtime seen by one worker is
    either absent, or a process group whose other workers contribute
    the listed values to a sum reduction; without a process group the
    world size is 1 and nothing is reduced. *)
Definition dist_context := option (list R).

(** Modelled from the spec: [utils.misc.is_dist_avail_and_initialized]
    (absent from the sources) holds when a process group is active. *)
Definition is_dist_avail_and_initialized (dist : dist_context) : bool :=
  bool_decide (is_Some dist).

(** Modelled from the spec: [utils.misc.get_world_size] (absent from
    the sources) is 1 without a process group, and counts this worker
    and its peers otherwise. *)
Definition get_world_size (dist : dist_context) : nat :=
  match dist with
  | None => 1
  | Some peers => S (length peers)
  end.

(** Modelled from the spec: [torch.distributed.all_reduce] sums the
    value of this worker with those of its peers. *)
Definition all_reduce (dist : dist_context) (x : R) : R :=
  match dist with
  | None => x
  | Some peers => (x + Torch.sumR peers)%R
  end.

(** ** The label resolver, [SetCriterion._get_tgt_labels] *)

(** One step of the loop that numbers the distinct interaction classes
    of the mini-batch in order of first appearance (lines 246-251). *)
Definition unique_hois_step (st : gmap nat nat * nat) (id : nat)
    : gmap nat nat * nat :=
  if decide (is_Some (st.1 !! id)) then st
  else (<[id := st.2]> st.1, S st.2).

(** Returns [target_classes_i] and [target_classes_t]; the latter is
    [None], or the indicator matrix with its number of columns. *)
Definition _get_tgt_labels (self : SetCriterion) (targets : list target)
    (indices : assignment)
    : result (list nat * option (nat * list (list Z))) :=
  if training self && negb (consider_all self) then
    let '(unique_hois, cnt) :=
      foldl unique_hois_step (∅, 0) (hoi_id <$> concat (hois <$> targets)) in
    target_classes_i ←
      for_matched (λ t i,
                     h ← or_raise IndexError (hois t !! i);
                     or_raise KeyError (unique_hois !! hoi_id h))
                  targets indices;
    src ← Torch.cat ((λ p, p.1) <$> indices);
    let num_fgs := length src in
    let zeros := replicate num_fgs (replicate cnt 0%Z) in
    target_classes_t ←
      foldlM (λ m ic,
                row ← or_raise IndexError (m !! ic.1);
                _ ← or_raise IndexError (row !! ic.2);
                Ok (<[ic.1 := <[ic.2 := 1%Z]> row]> m))
             zeros
             (zip (seq 0 (length target_classes_i)) target_classes_i);
    Ok (target_classes_i, Some (cnt, target_classes_t))
  else
    target_classes_i ←
      for_matched (λ t i,
                     h ← or_raise IndexError (hois t !! i);
                     Ok (hoi_id h))
                  targets indices;
    Ok (target_classes_i, None).

(** ** [SetCriterion.binary_focal_loss_with_logits] *)

(** Lines 68-71, element-wise on matrices of one shape. *)
Definition binary_focal_loss_elementwise (x y : list (list R))
    (alpha gamma eps : R) : result (list (list R)) :=
  if decide (Torch.shape2 x = Torch.shape2 y) then
    Ok (zip_with
          (zip_with (λ x y,
             Rabs (1 - y - alpha)
             * Rpower (Rabs (y - Torch.sigmoid x) + eps) gamma
             * Torch.bce_with_logits x y)%R)
          x y)
  else Raise ValueError.

(** The reduced loss, or the element-wise tensor for ['none']. *)
Definition binary_focal_loss_with_logits (x y : list (list R))
    (alpha gamma : R) (reduction : string) (eps : R)
    : result (R + list (list R)) :=
  loss ← binary_focal_loss_elementwise x y alpha gamma eps;
  if decide (reduction = "mean") then
    Ok (inl (Torch.mean (concat loss)))
  else if decide (reduction = "sum") then
    Ok (inl (Torch.sumR (concat loss)))
  else if decide (reduction = "none") then
    Ok (inr loss)
  else Raise ValueError.

(** ** The losses *)

Section losses.

(** The helpers of [utils] the losses call; their code is not part
    of the sources at hand, so they are parameters of the model:
    the top-1 [accuracy] in percent, and the two functions of
    [box_ops]. *)
Variable accuracy : list (list R) → list nat → result R.
Variable generalized_box_iou
  : list (list R) → list (list R) → result (list (list R)).
Variable box_cxcywh_to_xyxy : list (list R) → list (list R).

(** [SetCriterion.loss_labels] *)
Definition loss_labels (self : SetCriterion) (outputs : prediction_output)
    (targets : list target) (indices : assignment) (num_boxes : R)
    (log : bool) : result (gmap string R) :=
  _ ← assert (bool_decide (is_Some (tensors outputs !! "logits_per_hoi")));
  src_logits ← or_raise KeyError (tensors outputs !! "logits_per_hoi");
  '(target_classes_i, target_classes_t) ←
    _get_tgt_labels self targets indices;
  idx ← _get_src_permutation_idx indices;
  losses ←
    (if enable_focal_loss self then
       selected ← Torch.index2 src_logits idx;
       let labels : list (list R) :=
         (λ row : list R, (λ _ : R, 0%R) <$> row) <$> selected in
       labels ← Torch.index_put2 labels
                   (seq 0 (length selected), target_classes_i) 1%R;
       focal_loss ← binary_focal_loss_with_logits selected labels
                       (focal_alpha self) (focal_gamma self) "sum"
                       (1 / 1000000)%R;
       match focal_loss with
       | inl focal_loss =>
           Ok ({[ "loss_ce" := (focal_loss / INR (length labels))%R ]}
               : gmap string R)
       | inr _ => Raise ValueError
       end
     else
       selected ← Torch.index2 src_logits idx;
       loss_i ← Torch.cross_entropy Torch.Mean selected target_classes_i;
       if training self then
         match target_classes_t with
         | None => Raise AttributeError
         | Some (num_tgts, target_classes_t) =>
             let sliced := take num_tgts <$> selected in
             let width := num_tgts `min` last_dim src_logits in
             loss_t ← masked_out_cross_entropy
                        (Torch.transpose 0%R width sliced)
                        (Torch.transpose 0%Z num_tgts target_classes_t);
             Ok {[ "loss_ce" := ((loss_i + loss_t) / 2)%R ]}
         end
       else Ok {[ "loss_ce" := loss_i ]});
  if log then
    selected ← Torch.index2 src_logits idx;
    acc ← accuracy selected target_classes_i;
    Ok (<[ "class_error" := (100 - acc)%R ]> losses)
  else Ok losses.

(** [SetCriterion.loss_confidences] *)
Definition loss_confidences (self : SetCriterion) (outputs : prediction_output)
    (targets : list target) (indices : assignment) (num_boxes : R)
    : result (gmap string R) :=
  _ ← assert (bool_decide (is_Some (tensors outputs !! "box_scores")));
  box_scores ← or_raise KeyError (tensors outputs !! "box_scores");
  let box_scores : tensor3 :=
    (λ m : list (list R), (λ row : list R, Torch.sigmoid <$> row) <$> m)
      <$> box_scores in
  idx ← _get_src_permutation_idx indices;
  target_classes_o ←
    Torch.cat ((λ ti : target * (list nat * list nat),
                  (λ _ : nat, 1%R) <$> ti.2.2)
               <$> zip targets indices);
  let target_classes : list (list R) :=
    (λ m : list (list R), (λ _ : list R, 0%R) <$> m) <$> box_scores in
  _ ← (if decide (length idx.1 = length target_classes_o
                  ∨ length target_classes_o = 1)
       then Ok tt else Raise RuntimeError);
  target_classes ← Torch.index_put2 target_classes idx 1%R;
  let weight : list (list R) :=
    (λ row : list R, (λ _ : R, (1 * eos_coef self)%R) <$> row)
      <$> target_classes in
  weight ← Torch.index_put2 weight idx 1%R;
  loss_conf ← Torch.binary_cross_entropy
                (Torch.flatten3 box_scores) (concat target_classes)
                (concat weight);
  Ok {[ "loss_conf" := loss_conf ]}.

(** [SetCriterion.loss_boxes] *)
Definition loss_boxes (self : SetCriterion) (outputs : prediction_output)
    (targets : list target) (indices : assignment) (num_boxes : R)
    : result (gmap string R) :=
  _ ← assert (bool_decide (is_Some (tensors outputs !! "pred_boxes")));
  pred_boxes ← or_raise KeyError (tensors outputs !! "pred_boxes");
  idx ← _get_src_permutation_idx indices;
  src_boxes ← Torch.index2 pred_boxes idx;
  target_boxes ←
    for_matched (λ t i,
                   h ← or_raise IndexError (hois t !! i);
                   person ← or_raise IndexError (boxes t !! subject_id h);
                   object ← or_raise IndexError (boxes t !! object_id h);
                   Ok (person ++ object))
                targets indices;
  target_boxes ← Torch.stack target_boxes;
  loss_pbbox ← Torch.l1_loss (take 4 <$> src_boxes) (take 4 <$> target_boxes);
  loss_obbox ← Torch.l1_loss (drop 4 <$> src_boxes) (drop 4 <$> target_boxes);
  let losses : gmap string R :=
    <[ "loss_bbox" := (Torch.sumR (concat loss_pbbox) / num_boxes
                       + Torch.sumR (concat loss_obbox) / num_boxes)%R ]> ∅ in
  pgiou ← generalized_box_iou
            (box_cxcywh_to_xyxy (take 4 <$> src_boxes))
            (box_cxcywh_to_xyxy (take 4 <$> target_boxes));
  let loss_pgiou := (λ g, (1 - g)%R) <$> Torch.diag pgiou in
  ogiou ← generalized_box_iou
            (box_cxcywh_to_xyxy (drop 4 <$> src_boxes))
            (box_cxcywh_to_xyxy (drop 4 <$> target_boxes));
  let loss_ogiou := (λ g, (1 - g)%R) <$> Torch.diag ogiou in
  Ok (<[ "loss_giou" := (Torch.sumR loss_pgiou / num_boxes
                         + Torch.sumR loss_ogiou / num_boxes)%R ]> losses).

(** The predictions gathered at lines 193-195: the region logits
    indexed by the batch index [idx[0]] of every matched prediction. *)
Definition gather_region (region : tensor3) (idx : list nat * list nat)
    : result tensor3 :=
  Torch.index region idx.1.

(** The target masks collected by the loop of lines 201-206. *)
Definition collect_target_masks (targets : list target)
    (indices : assignment) : result (list (list (list R) * list (list R))) :=
  for_matched (λ t i,
                 h ← or_raise IndexError (hois t !! i);
                 masks ← or_raise KeyError (mask_region_hw t);
                 person ← or_raise IndexError (masks !! subject_id h);
                 object ← or_raise IndexError (masks !! object_id h);
                 Ok (person, object))
              targets indices.

(** [SetCriterion.loss_masks] *)
Definition loss_masks (self : SetCriterion) (outputs : prediction_output)
    (targets : list target) (indices : assignment) (num_boxes : R)
    : result (gmap string R) :=
  _ ← assert (bool_decide (is_Some (tensors outputs !! "hum_region"))
              && bool_decide (is_Some (tensors outputs !! "obj_region"))
              && bool_decide (is_Some (tensors outputs !! "uni_region")));
  idx ← _get_src_permutation_idx indices;
  hum_region ← or_raise KeyError (tensors outputs !! "hum_region");
  pred_hum_region ← gather_region hum_region idx;
  obj_region ← or_raise KeyError (tensors outputs !! "obj_region");
  pred_obj_region ← gather_region obj_region idx;
  uni_region ← or_raise KeyError (tensors outputs !! "uni_region");
  pred_uni_region ← gather_region uni_region idx;
  masks ← collect_target_masks targets indices;
  target_hum_masks ← Torch.stack (masks.*1);
  target_obj_masks ← Torch.stack (masks.*2);
  target_uni_mask ← Torch.maximum target_hum_masks target_obj_masks;
  loss_hum_mask ← Torch.binary_cross_entropy_with_logits
                    pred_hum_region target_hum_masks;
  loss_obj_mask ← Torch.binary_cross_entropy_with_logits
                    pred_obj_region target_obj_masks;
  loss_uni_mask ← Torch.binary_cross_entropy_with_logits
                    pred_uni_region target_uni_mask;
  Ok (<[ "loss_uni_mask" := loss_uni_mask ]>
        (<[ "loss_obj_mask" := loss_obj_mask ]>
           (<[ "loss_hum_mask" := loss_hum_mask ]> ∅))).

(** [SetCriterion.get_loss]; [forward] passes no keyword argument, so
    [loss_labels] runs with its default [log=True]. *)
Definition get_loss (self : SetCriterion) (loss : string)
    (outputs : prediction_output) (targets : list target) (indices : assignment)
    (num_boxes : R) : result (gmap string R) :=
  if decide (loss = "labels") then
    loss_labels self outputs targets indices num_boxes true
  else if decide (loss = "boxes") then
    loss_boxes self outputs targets indices num_boxes
  else if decide (loss = "confidences") then
    loss_confidences self outputs targets indices num_boxes
  else if decide (loss = "masks") then
    loss_masks self outputs targets indices num_boxes
  else Raise AssertionError.

(** ** The orchestrator, [SetCriterion.forward] *)

(** Lines 293-297: the number of ground-truth interactions of the
    batch, reduced over the workers, divided by the world size and
    clamped from below at 1 ([torch.clamp(..., min=1)]). *)
Definition normalizer (dist : dist_context) (targets : list target) : R :=
  let num_boxes := sum_list ((λ t, length (hois t)) <$> targets) in
  let num_boxes := INR num_boxes in
  let num_boxes :=
    if is_dist_avail_and_initialized dist then all_reduce dist num_boxes
    else num_boxes in
  Rmax (num_boxes / INR (get_world_size dist)) 1.

(** [{k + f'_{i}': v for k, v in l_dict.items()}] *)
Definition suffix_keys (i : nat) (l_dict : gmap string R)
    : gmap string R :=
  kmap (λ k : string, k +:+ "_" +:+ pretty i) l_dict.

(** The body of the loop over the auxiliary layers (lines 306-311).
    The state is the loss map, the variable [indices], and the
    auxiliary mappings updated so far; [logits_per_hoi] is the entry
    of that name of the primary outputs. *)
Definition aux_layer (self : SetCriterion)
    (logits_per_hoi : option tensor3) (targets : list target)
    (num_boxes : R)
    (st : gmap string R * assignment * list (gmap string tensor3))
    (layer : nat * gmap string tensor3)
    : result (gmap string R * assignment * list (gmap string tensor3)) :=
  let i := layer.1 in
  logits ← or_raise KeyError logits_per_hoi;
  let aux_outputs := <[ "logits_per_hoi" := logits ]> layer.2 in
  let indices := matcher self (aux_as_outputs aux_outputs) targets in
  losses ←
    foldlM (λ losses loss,
              l_dict ← get_loss self loss (aux_as_outputs aux_outputs)
                         targets indices num_boxes;
              let l_dict := suffix_keys i l_dict in
              Ok (l_dict ∪ losses))
           st.1.1 ["boxes"; "confidences"];
  Ok (losses, indices, st.2 ++ [aux_outputs]).

(** [forward] returns the loss map and [indices]; the third
    component is the outputs mapping as the call leaves it.  The
    device is read off the first entry of the mapping, taken to be a
    tensor whenever the mapping has a tensor entry. *)
Definition forward (self : SetCriterion) (dist : dist_context)
    (outputs : prediction_output) (targets : list target)
    : result (gmap string R * assignment * prediction_output) :=
  let indices := matcher self outputs targets in
  _ ← (if decide (size (tensors outputs) = 0) then
         Raise (match aux_outputs outputs with
                | Some _ => AttributeError
                | None => StopIteration
                end)
       else Ok tt);
  let num_boxes := normalizer dist targets in
  losses ←
    foldlM (λ losses loss,
              l_dict ← get_loss self loss outputs targets indices num_boxes;
              Ok (l_dict ∪ losses))
           ∅ (losses self);
  match aux_outputs outputs with
  | None => Ok (losses, indices, outputs)
  | Some layers =>
      st ← foldlM (aux_layer self (tensors outputs !! "logits_per_hoi")
                     targets num_boxes)
                  (losses, indices, []) (imap pair layers);
      Ok (st.1.1, st.1.2,
          {| tensors := tensors outputs; aux_outputs := Some st.2 |})
  end.

End losses.

(** ** Vocabulary of the statements *)

(** The key of an auxiliary-layer entry of the Loss Map. *)
Definition aux_key (name : string) (i : nat) : string :=
  name +:+ "_" +:+ pretty i.

(** [k] is one of the three keys the auxiliary loop writes for layer
    [i]. *)
Definition written_for_layer (k : string) (i : nat) : Prop :=
  k = aux_key "loss_bbox" i ∨ k = aux_key "loss_giou" i
  ∨ k = aux_key "loss_conf" i.

(** The keys the four loss functions can produce. *)
Definition primary_keys : list string :=
  ["loss_ce"; "class_error"; "loss_bbox"; "loss_giou"; "loss_conf";
   "loss_hum_mask"; "loss_obj_mask"; "loss_uni_mask"].

(** The total number of ground-truth interactions of a batch. *)
Definition total_interactions (targets : list target) : nat :=
  sum_list ((λ t, length (hois t)) <$> targets).

(** The matched (target record, interaction index) pairs in
    assignment order. *)
Definition matched_interactions (targets : list target)
    (indices : assignment) : list (target * nat) :=
  concat ((λ ti : target * (list nat * list nat), (λ i, (ti.1, i)) <$> ti.2.2)
          <$> zip targets indices).

(** The masks of the subject and of the object of interaction [i] of
    target record [t]. *)
Definition interaction_masks (ti : target * nat)
    (masks : list (list R) * list (list R)) : Prop :=
  ∃ h m, hois ti.1 !! ti.2 = Some h
         ∧ mask_region_hw ti.1 = Some m
         ∧ m !! subject_id h = Some masks.1
         ∧ m !! object_id h = Some masks.2.

(** ** A worked batch *)

(** Modelled from the spec: [utils.box_ops.box_cxcywh_to_xyxy] is not
    part of the sources at hand; a center-form box (center_x, center_y,
    width, height) becomes the corner-form box of its two corners. *)
Definition corner_form (b : list (list R)) : list (list R) :=
  (λ row,
     match row with
     | [cx; cy; w; h] => [cx - w / 2; cy - h / 2; cx + w / 2; cy + h / 2]%R
     | _ => row
     end) <$> b.

(** Modelled from the spec: [utils.box_ops.generalized_box_iou] is not
    part of the sources at hand.  In the worked batch every predicted
    and every ground-truth box is the same box, for which the pairwise
    generalized IoU is 1 throughout. *)
Definition coinciding_boxes_iou (a b : list (list R))
    : result (list (list R)) :=
  Ok ((λ _, (λ _, 1%R) <$> b) <$> a).

(** Modelled from the spec: [utils.misc.accuracy] is not part of the
    sources at hand; the worked batch never reaches it, so the top-1
    accuracy is reported as 0 percent. *)
Definition no_accuracy (output : list (list R)) (target : list nat)
    : result R :=
  Ok 0%R.

Definition ex_box : list R := [1; 1; 1; 1]%R.

(** A matcher that pairs the first interaction of every image with
    slot 0 when it is given the top-level outputs (which carry
    ["aux_outputs"]) and with slot 1 when it is given an auxiliary
    layer. *)
Definition ex_matcher (outputs : prediction_output) (targets : list target)
    : assignment :=
  match aux_outputs outputs with
  | Some _ => (λ _, ([0], [0])) <$> targets
  | None => (λ _, ([1], [0])) <$> targets
  end.

Definition ex_criterion : SetCriterion :=
  {| matcher := ex_matcher;
     weight_dict := ∅;
     eos_coef := 1;
     losses := ["boxes"; "confidences"];
     enable_focal_loss := false;
     focal_alpha := 1;
     focal_gamma := 2;
     consider_all := false;
     training := true |}.

(** One auxiliary decoder layer: two slots for the one image. *)
Definition ex_layer : gmap string tensor3 :=
  {[ "pred_boxes" := [[ex_box ++ ex_box; ex_box ++ ex_box]];
     "box_scores" := [[[0]; [0]]]%R ]}.

(** One image, two slots, two classes, two auxiliary layers. *)
Definition ex_outputs : prediction_output :=
  {| tensors := <[ "logits_per_hoi" := [[[0; 0]; [0; 0]]]%R ]> ex_layer;
     aux_outputs := Some [ex_layer; ex_layer] |}.

(** One image with two boxes and one interaction between them. *)
Definition ex_targets : list target :=
  [ {| hois := [ {| subject_id := 0; object_id := 1; hoi_id := 3 |} ];
       boxes := [ex_box; ex_box];
       mask_region_hw := None |} ].

(** The worked criterion with another matcher and other enabled
    losses. *)
Definition ex_criterion_of
    (m : prediction_output → list target → assignment)
    (names : list string) : SetCriterion :=
  {| matcher := m;
     weight_dict := ∅;
     eos_coef := 1;
     losses := names;
     enable_focal_loss := false;
     focal_alpha := 1;
     focal_gamma := 2;
     consider_all := false;
     training := true |}.

(** A matcher that matches nothing: one pair of empty index sequences
    per image. *)
Definition no_match (outputs : prediction_output) (targets : list target)
    : assignment :=
  (λ _, ([], [])) <$> targets.

(** ** Further functions of the criterion *)

(** [SetCriterion._get_tgt_permutation_idx] *)
Definition _get_tgt_permutation_idx (indices : assignment)
    : result (list nat * list nat) :=
  batch_idx ← Torch.cat (imap (λ i p, Torch.full_like p.2 i) indices);
  tgt_idx ← Torch.cat ((λ p, p.2) <$> indices);
  Ok (batch_idx, tgt_idx).

(** The matched (image, interaction) coordinates in assignment order. *)
Definition matched_target_coordinates (indices : assignment)
    : list (nat * nat) :=
  concat (imap (λ i p, (λ s, (i, s)) <$> p.2) indices).

(** The numbering of the interaction classes of a mini-batch that
    lines 245-251 build from the class ids in batch order. *)
Definition unique_hois (ids : list nat) : gmap nat nat * nat :=
  foldl unique_hois_step (∅, 0) ids.

(** The integer row of width [n] with a single 1, in column [c]. *)
Definition one_hot (n c : nat) : list Z := <[c := 1%Z]> (replicate n 0%Z).

(** A matrix computed entry by entry from the image index, the slot
    index and the entry of a matrix of the same shape. *)
Definition per_slot {A B} (f : nat → nat → A → B) (t : list (list A))
    : list (list B) :=
  imap (λ b m, imap (f b) m) t.

(** What a slot with confidence logit [x] adds to the confidence loss
    before the mean: the clamped negative log-probability of "matched"
    for a matched slot, and [eos_coef] times that of "not matched" for
    any other slot. *)
Definition confidence_term (eos_coef : R) (matched : bool) (x : R) : R :=
  if matched then (- Rmax (ln (Torch.sigmoid x)) (-100))%R
  else (eos_coef * - Rmax (ln (1 - Torch.sigmoid x)) (-100))%R.

(** ** The attention masks of [models/model.py] *)

Module Model.

(** A float entry of an additive attention mask: a real or minus
    infinity. *)
Inductive efloat :=
  | Finite (x : R)
  | NegInf.

Inductive error :=
  | ZeroDivisionError
  | IndexError.

Inductive outcome (A : Type) :=
  | Returns (a : A)
  | Raises (e : error).
Arguments Returns {A} a.
Arguments Raises {A} e.

(** [torch.empty(n, m)]: an n-by-m tensor whose content is whatever
    the allocated memory holds, here [junk]. *)
Definition empty (n m : nat) (junk : nat → nat → efloat)
    : list (list efloat) :=
  (λ i, junk i <$> seq 0 m) <$> seq 0 n.

(** [t.fill_(v)] *)
Definition fill_ (t : list (list efloat)) (v : efloat)
    : list (list efloat) :=
  (λ row : list efloat, (λ _ : efloat, v) <$> row) <$> t.

(** [t.triu_(d)]: the entries (i, j) with [j - i >= d] are kept, the
    others become 0. *)
Definition triu_ (t : list (list efloat)) (d : Z) : list (list efloat) :=
  imap (λ i row,
          imap (λ j x,
                  if decide (d ≤ Z.of_nat j - Z.of_nat i)%Z then x
                  else Finite 0)
               row)
       t.

(** [row[a:b] = v] for non-negative bounds: a slice is cut to the
    length of the row, and is empty when [b <= a]. *)
Definition slice_assign (row : list efloat) (a b : nat) (v : efloat)
    : list efloat :=
  imap (λ j x, if decide (a ≤ j < b) then v else x) row.

(** [build_attention_mask] (lines 659-665) for a model of context
    length [context_length]. *)
Definition build_attention_mask (context_length : nat)
    (junk : nat → nat → efloat) : list (list efloat) :=
  let mask := empty context_length context_length junk in
  let mask := fill_ mask NegInf in
  triu_ mask 1.

(** [build_hoi_attention_mask] (lines 667-674). *)
Definition build_hoi_attention_mask (hoi_token_length : nat)
    (junk : nat → nat → efloat) : list (list efloat) :=
  let mask := empty (hoi_token_length + 1) (hoi_token_length + 1) junk in
  fill_ mask (Finite 0).

(** [build_region_aware_encoder_mask] (lines 676-682), for sizes that
    are not negative. *)
Definition build_region_aware_encoder_mask (tgt_len mem_len : nat)
    (junk : nat → nat → efloat) : outcome (list (list efloat)) :=
  let mask := empty tgt_len mem_len junk in
  let mask := fill_ mask NegInf in
  if decide (tgt_len = 0) then Raises ZeroDivisionError
  else
    let region_len := mem_len `div` tgt_len in
    foldl (λ (st : outcome (list (list efloat))) (k : nat),
             match st with
             | Raises e => Raises e
             | Returns mask =>
                 match mask !! k with
                 | None => Raises IndexError
                 | Some row =>
                     Returns
                       (<[k := slice_assign row (k * region_len)
                                 (((k + 1) * region_len) `min` mem_len)
                                 (Finite 0)]> mask)
                 end
             end)
          (Returns mask) (seq 0 tgt_len).

(** Entry [(i, j)] of a mask. *)
Definition entry (mask : list (list efloat)) (i j : nat) : option efloat :=
  mask !! i ≫= (.!! j).

End Model.

(** ** The criterion built by [build_model] of [models/model.py] *)

(** The command-line arguments the construction of the criterion
    reads. *)
Module Config.

Record args := {
  class_loss_coef : R;
  bbox_loss_coef : R;
  giou_loss_coef : R;
  conf_loss_coef : R;
  aux_loss : bool;
  dec_layers : Z;
  region_prompt_dim : Z;
  eos_coef : R;
  enable_focal_loss : bool;
  focal_alpha : R;
  focal_gamma : R;
  consider_all : bool;
}.

End Config.

(** A Python dictionary display or comprehension: later entries
    override earlier ones. *)
Definition dict_of (entries : list (string * R)) : gmap string R :=
  foldl (λ d kv, <[kv.1 := kv.2]> d) ∅ entries.

(** The weights before the auxiliary ones are added (lines
    1087-1095). *)
Definition base_weight_dict (args : Config.args) : gmap string R :=
  dict_of [ ("loss_ce", Config.class_loss_coef args);
            ("loss_bbox", Config.bbox_loss_coef args);
            ("loss_giou", Config.giou_loss_coef args);
            ("loss_conf", Config.conf_loss_coef args);
            ("loss_hum_mask", 1%R);
            ("loss_obj_mask", 1%R);
            ("loss_uni_mask", 1%R) ].

(** The body of the loop of lines 1098-1100; the state is
    [(aux_weight_dict, weight_dict)]. *)
Definition aux_weights_step (st : gmap string R * gmap string R) (i : nat)
    : result (gmap string R * gmap string R) :=
  let '(aux_weight_dict, weight_dict) := st in
  entries ← mapM (λ k, v ← or_raise KeyError (weight_dict !! k);
                       Ok (aux_key k i, v))
                 ["loss_bbox"; "loss_giou"; "loss_conf"];
  let aux_weight_dict := dict_of entries ∪ aux_weight_dict in
  let weight_dict := aux_weight_dict ∪ weight_dict in
  Ok (aux_weight_dict, weight_dict).

(** The weight dictionary handed to the criterion (lines 1087-1100). *)
Definition build_weight_dict (args : Config.args)
    : result (gmap string R) :=
  let weight_dict := base_weight_dict args in
  if Config.aux_loss args then
    st ← foldlM aux_weights_step (∅, weight_dict)
                (seq 0 (Z.to_nat (Config.dec_layers args)));
    Ok st.2
  else Ok weight_dict.

(** The names of the enabled losses (lines 1102-1104). *)
Definition build_losses (args : Config.args) : list string :=
  ["labels"; "boxes"; "confidences"]
  ++ (if decide (0 < Config.region_prompt_dim args)%Z then ["masks"] else []).

(** The criterion as [build_model] constructs it (lines 1105-1114); a
    freshly constructed module is in training mode. *)
Definition build_criterion (args : Config.args)
    (matcher : prediction_output → list target → assignment)
    : result SetCriterion :=
  weight_dict ← build_weight_dict args;
  Ok {| matcher := matcher;
        weight_dict := weight_dict;
        eos_coef := Config.eos_coef args;
        losses := build_losses args;
        enable_focal_loss := Config.enable_focal_loss args;
        focal_alpha := Config.focal_alpha args;
        focal_gamma := Config.focal_gamma args;
        consider_all := Config.consider_all args;
        training := true |}.

(** Arguments with auxiliary losses for two decoder layers. *)
Definition ex_args : Config.args :=
  {| Config.class_loss_coef := 1;
     Config.bbox_loss_coef := 5;
     Config.giou_loss_coef := 2;
     Config.conf_loss_coef := 10;
     Config.aux_loss := true;
     Config.dec_layers := 2;
     Config.region_prompt_dim := 0;
     Config.eos_coef := 1;
     Config.enable_focal_loss := false;
     Config.focal_alpha := 1;
     Config.focal_gamma := 2;
     Config.consider_all := false |}.

(** The worked criterion with the weights built from [ex_args]. *)
Definition ex_weighted_criterion : SetCriterion :=
  {| matcher := ex_matcher;
     weight_dict := match build_weight_dict ex_args with
                    | Ok weight_dict => weight_dict
                    | Raise _ => ∅
                    end;
     eos_coef := 1;
     losses := ["boxes"; "confidences"];
     enable_focal_loss := false;
     focal_alpha := 1;
     focal_gamma := 2;
     consider_all := false;
     training := true |}.

(** * Part II: properties *)

(** ** Generic facts about the error monad and the torch primitives *)

Lemma mapM_Ok_Forall2 {A B} (f : A → result B) (l : list A) (k : list B) :
  Forall2 (λ a b, f a = Ok b) l k → mapM f l = Ok k.
Proof.
  induction 1 as [|a b l k Hab _ IH]; [done|].
  cbn. rewrite Hab. cbn. rewrite IH. done.
Qed.

Lemma mapM_Ok_fmap {A B} (f : A → result B) (g : A → B) (l : list A) :
  Forall (λ a, f a = Ok (g a)) l → mapM f l = Ok (g <$> l).
Proof.
  intros H. apply mapM_Ok_Forall2.
  induction H; constructor; auto.
Qed.

Lemma zip_replicate_l {A B} (c : A) (l : list B) :
  zip (replicate (length l) c) l = (λ s, (c, s)) <$> l.
Proof. induction l as [|b l IH]; [done|]. cbn. by rewrite IH. Qed.

Lemma zip_permutation_idx (n : nat) (indices : assignment) :
  zip (concat (imap (λ i p, Torch.full_like p.1 (n + i)) indices))
      (concat ((λ p, p.1) <$> indices))
  = concat (imap (λ i p, (λ s, (n + i, s)) <$> p.1) indices).
Proof.
  revert n. induction indices as [|[src tgt] indices IH]; intros n; [done|].
  cbn [imap fmap list_fmap concat fst].
  rewrite zip_with_app by (unfold Torch.full_like; by rewrite length_replicate).
  unfold Torch.full_like at 1. rewrite zip_replicate_l. f_equal.
  specialize (IH (S n)).
  erewrite (imap_ext _ (λ i p, Torch.full_like p.1 (S n + i)));
    [|intros; cbn; f_equal; lia].
  erewrite (imap_ext (_ ∘ S) (λ i p, (λ s, (S n + i, s)) <$> p.1));
    [|intros; cbn; apply list_fmap_ext; intros; f_equal; lia].
  exact IH.
Qed.

Lemma length_permutation_batch_idx (n : nat) (indices : assignment) :
  length (concat (imap (λ i p, Torch.full_like p.1 (n + i)) indices))
  = sum_list ((λ p, length p.1) <$> indices).
Proof.
  revert n. induction indices as [|[src tgt] indices IH]; intros n; [done|].
  cbn [imap fmap list_fmap concat fst sum_list_with].
  rewrite length_app. unfold Torch.full_like at 1. rewrite length_replicate.
  f_equal. rewrite <- (IH (S n)). f_equal. f_equal.
  apply imap_ext. intros; cbn; f_equal; lia.
Qed.

Lemma length_permutation_src_idx (indices : assignment) :
  length (concat ((λ p, p.1) <$> indices))
  = sum_list ((λ p, length p.1) <$> indices).
Proof.
  induction indices as [|[src tgt] indices IH]; [done|].
  cbn. rewrite length_app. by rewrite IH.
Qed.

(** ** The permutation indexer *)

(** C8 (as stated, refuted): the Assignment of an empty batch, an empty
    sequence of per-image pairs, makes the indexer raise: [torch.cat]
    refuses an empty list of tensors. *)
Lemma src_permutation_idx_empty_assignment_raises :
  _get_src_permutation_idx [] = Raise RuntimeError
  ∧ ¬ is_Ok (_get_src_permutation_idx []).
Proof. split; [reflexivity|]. intros [a Ha]. discriminate Ha. Qed.

(** C8 (amended): for every Assignment with at least one per-image entry
    (the entries themselves may all be empty) the indexer returns two
    parallel index tensors whose common length is the sum of the
    per-image matched-slot counts; they enumerate the matched
    (image, slot) coordinates in assignment order, and advanced indexing
    of a [batch, slots, ...] tensor that has those coordinates returns
    exactly the matched rows in that order. *)
Theorem src_permutation_idx_spec (indices : assignment) :
  indices ≠ [] →
  ∃ batch_idx src_idx,
    _get_src_permutation_idx indices = Ok (batch_idx, src_idx)
    ∧ length batch_idx = sum_list ((λ p, length p.1) <$> indices)
    ∧ length src_idx = sum_list ((λ p, length p.1) <$> indices)
    ∧ zip batch_idx src_idx = matched_coordinates indices
    ∧ (Forall (λ p, p.1 = []) indices → batch_idx = [] ∧ src_idx = [])
    ∧ ∀ (A : Type) (t : list (list A)) (rows : list A),
        Forall2 (λ bs row, t !! bs.1 ≫= (.!! bs.2) = Some row)
                (matched_coordinates indices) rows →
        Torch.index2 t (batch_idx, src_idx) = Ok rows.
Proof.
  intros Hne.
  exists (concat (imap (λ i p, Torch.full_like p.1 i) indices)),
         (concat ((λ p, p.1) <$> indices)).
  pose proof (zip_permutation_idx 0 indices) as Hzip.
  pose proof (length_permutation_batch_idx 0 indices) as Hlb.
  pose proof (length_permutation_src_idx indices) as Hls.
  cbn in Hzip, Hlb.
  split.
  { unfold _get_src_permutation_idx, Torch.cat.
    destruct indices as [|p indices]; [done|]. reflexivity. }
  split; [exact Hlb|]. split; [exact Hls|].
  split; [exact Hzip|].
  split.
  { intros Hall.
    assert (sum_list ((λ p, length p.1) <$> indices) = 0) as H0.
    { clear -Hall. induction Hall as [|[src tgt] l Hp _ IH]; [done|].
      cbn in *. subst src. cbn. exact IH. }
    rewrite H0 in Hlb, Hls.
    split; by apply nil_length_inv. }
  intros A t rows Hrows.
  unfold Torch.index2. cbn [fst snd].
  rewrite decide_True by congruence.
  rewrite Hzip. apply mapM_Ok_Forall2.
  eapply Forall2_impl; [exact Hrows|].
  intros [b s] row. cbn.
  destruct (t !! b) as [r|]; cbn; [|done].
  destruct (r !! s); cbn; [|done]. congruence.
Qed.

(** A batch of two images, slots [2;0] matched in the first and none in
    the second. *)
Lemma src_permutation_idx_spec_witness :
  ∃ batch_idx src_idx,
    _get_src_permutation_idx [([2; 0], [0; 1]); ([], [])]
      = Ok (batch_idx, src_idx)
    ∧ length batch_idx = 2 ∧ length src_idx = 2.
Proof.
  destruct (src_permutation_idx_spec [([2; 0], [0; 1]); ([], [])])
    as (b & s & H1 & H2 & H3 & _); [discriminate|].
  exists b, s. split; [exact H1|]. split; [exact H2|exact H3].
Defined.

(** ** Masked multi-label cross-entropy *)

Lemma index_nonzero_from {A} (pre xs : list A) (mask : list bool) :
  length mask = length xs →
  Torch.index (pre ++ xs) (Torch.nonzero_from (length pre) mask)
  = Ok (Torch.select mask xs).
Proof.
  revert pre xs. induction mask as [|b mask IH]; intros pre [|x xs] Hlen;
    try done.
  cbn in Hlen. injection Hlen as Hlen.
  specialize (IH (pre ++ [x]) xs Hlen).
  rewrite length_app, <- app_assoc in IH. cbn in IH.
  replace (length pre + 1) with (S (length pre)) in IH by lia.
  unfold Torch.index in *. cbn [Torch.nonzero_from Torch.select].
  destruct b; [|exact IH].
  cbn. rewrite list_lookup_middle by done. cbn.
  rewrite IH. done.
Qed.

Lemma index_nonzero {A} (xs : list A) (mask : list bool) :
  length mask = length xs →
  Torch.index xs (Torch.nonzero mask) = Ok (Torch.select mask xs).
Proof. intros H. exact (index_nonzero_from [] xs mask H). Qed.

Lemma nonzero_from_bound (i : nat) (mask : list bool) :
  Forall (λ j, i ≤ j < i + length mask) (Torch.nonzero_from i mask).
Proof.
  revert i. induction mask as [|b mask IH]; intros i; cbn; [constructor|].
  specialize (IH (S i)).
  assert (Forall (λ j, i ≤ j < i + S (length mask))
                 (Torch.nonzero_from (S i) mask)) as IH'.
  { eapply Forall_impl; [exact IH|]. cbn. intros; lia. }
  destruct b; [constructor; [lia|]|]; exact IH'.
Qed.

Lemma nonzero_entries_bound (t : list Z) :
  Forall (λ j, j < length t) (nonzero_entries t).
Proof.
  unfold nonzero_entries, Torch.nonzero.
  eapply Forall_impl; [apply nonzero_from_bound|].
  cbn. intros j. rewrite length_fmap. lia.
Qed.

Lemma select_zip {A B} (mask : list bool) (xs : list A) (ys : list B) :
  Torch.select mask (zip xs ys)
  = zip (Torch.select mask xs) (Torch.select mask ys).
Proof.
  revert xs ys. induction mask as [|b mask IH]; intros [|x xs] [|y ys];
    cbn; try done.
  - by destruct b, (Torch.select mask xs).
  - destruct b; cbn; by rewrite IH.
Qed.

Lemma length_select_same {A B} (mask : list bool) (xs : list A) (ys : list B) :
  length xs = length ys →
  length (Torch.select mask xs) = length (Torch.select mask ys).
Proof.
  revert xs ys. induction mask as [|b mask IH]; intros [|x xs] [|y ys] H;
    cbn in *; try done.
  injection H as H. destruct b; cbn; auto.
Qed.

Lemma select_fmap {A B} (f : A → B) (mask : list bool) (xs : list A) :
  Torch.select mask (f <$> xs) = f <$> Torch.select mask xs.
Proof.
  revert xs. induction mask as [|b mask IH]; intros [|x xs]; cbn; try done.
  destruct b; cbn; by rewrite IH.
Qed.

Lemma select_Forall {A} (P : A → Prop) (mask : list bool) (xs : list A) :
  Forall P xs → Forall P (Torch.select mask xs).
Proof.
  intros H. revert mask. induction H as [|x xs Hx _ IH]; intros [|b mask];
    cbn; try constructor.
  destruct b; [constructor|]; auto.
Qed.

Lemma select_lookup_true {A} (mask : list bool) (xs : list A) (j : nat) :
  mask !! j = Some true → j < length xs → Torch.select mask xs ≠ [].
Proof.
  revert xs j. induction mask as [|b mask IH]; intros [|x xs] [|j] Hm Hj;
    cbn in *; try done; try lia.
  - by injection Hm as ->.
  - destruct b; [done|]. eapply IH; [exact Hm|lia].
Qed.

Lemma argmax_from_bound (best : Z) (besti i : nat) (l : list Z) :
  besti < i → Torch.argmax_from best besti i l < i + length l.
Proof.
  revert best besti i. induction l as [|z l IH]; intros best besti i Hi;
    cbn; [lia|].
  destruct (best <? z)%Z.
  - specialize (IH z i (S i)). lia.
  - specialize (IH best besti (S i)). lia.
Qed.

Lemma argmax_row_bound (t : list Z) : t ≠ [] → argmax_row t < length t.
Proof.
  destruct t as [|z t]; [done|]. intros _. cbn.
  pose proof (argmax_from_bound z 0 1 t). lia.
Qed.

Lemma argmax_Ok (t : list Z) : t ≠ [] → Torch.argmax t = Ok (argmax_row t).
Proof. by destruct t. Qed.

Lemma cross_entropy_sum_Ok (rows : list (list R)) (tgts : list nat) :
  Forall2 (λ x t, t < length x) rows tgts →
  Torch.cross_entropy Torch.Sum rows tgts
  = Ok (Torch.sumR ((λ xt, Torch.nll xt.1 xt.2) <$> zip rows tgts)).
Proof.
  intros H. unfold Torch.cross_entropy.
  rewrite decide_True by (eapply Forall2_length; exact H).
  rewrite (mapM_Ok_fmap _ (λ xt, Torch.nll xt.1 xt.2)); [done|].
  induction H as [|x t rows tgts Hxt _ IH]; cbn; constructor; [|exact IH].
  cbn. unfold Torch.cross_entropy_row. by rewrite decide_True.
Qed.

Lemma foldlM_sum {B} (h : B → result R) (g : B → R) (a : R) (l : list B) :
  Forall (λ j, h j = Ok (g j)) l →
  foldlM (λ acc j, ce ← h j; Ok (acc + ce)%R) a l
  = Ok (a + Torch.sumR (g <$> l))%R.
Proof.
  intros H. revert a. induction H as [|j l Hj _ IH]; intros a; cbn.
  - f_equal. unfold Torch.sumR. cbn. lra.
  - rewrite Hj. cbn. rewrite IH. f_equal. unfold Torch.sumR. cbn. lra.
Qed.

Lemma take_1_drop_lookup {A} (l : list A) (i : nat) (x : A) :
  l !! i = Some x → take 1 (drop i l) = [x].
Proof.
  revert i. induction l as [|a l IH]; intros [|i] H; cbn in *; try done.
  - injection H as ->. by rewrite take_0.
  - by apply IH.
Qed.

Lemma keep_mask_lookup (t : list Z) (j : nat) :
  j < length t → keep_mask t j !! j = Some true.
Proof.
  intros Hj. unfold keep_mask. apply list_lookup_insert_eq.
  by rewrite length_fmap.
Qed.

Lemma length_keep_mask (t : list Z) (j : nat) :
  length (keep_mask t j) = length t.
Proof. unfold keep_mask. by rewrite length_insert, length_fmap. Qed.

Lemma masked_select_Ok {A} (mask : list bool) (x : list A) :
  length mask = length x →
  Torch.masked_select mask x = Ok (Torch.select mask x).
Proof. intros H. unfold Torch.masked_select. by rewrite decide_True. Qed.

Lemma masked_out_term_Ok (src : list (list R)) (i : nat) (x : list R)
    (t : list Z) (j : nat) :
  src !! i = Some x → length x = length t → j < length t →
  masked_out_term src i t j
  = Ok (Torch.nll (Torch.select (keep_mask t j) x)
                  (argmax_row (Torch.select (keep_mask t j) t))).
Proof.
  intros Hx Hlen Hj. unfold masked_out_term. cbv zeta. fold (keep_mask t j).
  pose proof (keep_mask_lookup t j Hj) as Hm.
  pose proof (length_keep_mask t j) as Hl.
  rewrite masked_select_Ok by done. cbn.
  assert (Torch.select (keep_mask t j) t ≠ []) as Hne
    by (eapply select_lookup_true; eauto).
  rewrite (argmax_Ok _ Hne). cbn.
  rewrite (take_1_drop_lookup _ _ _ Hx). cbn.
  rewrite masked_select_Ok by congruence. cbn.
  rewrite cross_entropy_sum_Ok.
  - cbn. f_equal. unfold Torch.sumR. cbn. lra.
  - constructor; [|constructor].
    rewrite (length_select_same _ x t Hlen). by apply argmax_row_bound.
Qed.

Lemma many_positives_loop (pre_s : list (list R)) (pre_t : list (list Z))
    (xs : list (list R)) (ts : list (list Z)) (a : R) :
  length pre_s = length pre_t →
  same_shape xs ts →
  foldlM (λ loss i,
            t ← or_raise IndexError ((pre_t ++ ts) !! i);
            let cnt := Torch.sumZ t in
            loss_t ← foldlM (λ loss_t j,
                               ce ← masked_out_term (pre_s ++ xs) i t j;
                               Ok (loss_t + ce)%R)
                            0%R (nonzero_entries t);
            Ok (loss + loss_t / IZR cnt)%R)
         a
         (Torch.nonzero_from (length pre_t)
            ((λ n, bool_decide (1 < n)%Z) <$> num_pos ts))
  = Ok (a + Torch.sumR
              (many_positives_term
                 <$> Torch.select
                       ((λ n, bool_decide (1 < n)%Z) <$> num_pos ts)
                       (zip xs ts)))%R.
Proof.
  intros Hpre Hshape. revert pre_s pre_t a Hpre.
  induction Hshape as [|x t xs ts [Hxt Hne] _ IH]; intros pre_s pre_t a Hpre.
  - cbn. f_equal. unfold Torch.sumR. cbn. lra.
  - specialize (IH (pre_s ++ [x]) (pre_t ++ [t])).
    rewrite !length_app, <- !app_assoc in IH. cbn in IH.
    replace (length pre_t + 1) with (S (length pre_t)) in IH by lia.
    cbn [num_pos fmap list_fmap Torch.nonzero_from zip zip_with Torch.select].
    fold (num_pos ts).
    destruct (bool_decide (1 < Torch.sumZ t)%Z).
    + cbn [foldlM]. rewrite list_lookup_middle by done. cbn [or_raise mbind result_bind].
      rewrite (foldlM_sum _
                 (λ j, Torch.nll (Torch.select (keep_mask t j) x)
                         (argmax_row (Torch.select (keep_mask t j) t)))).
      2:{ eapply Forall_impl; [apply nonzero_entries_bound|].
          cbn. intros j Hj. apply masked_out_term_Ok; [|done..].
          rewrite <- Hpre. by apply list_lookup_middle. }
      cbn [mbind result_bind]. rewrite IH by lia.
      f_equal. cbn. unfold many_positives_term at 2, Torch.sumR. cbn.
      rewrite Rplus_0_l, Rplus_assoc. reflexivity.
    + rewrite IH by lia. done.
Qed.

Lemma select_Forall2 {A B} (P : A → B → Prop) (mask : list bool)
    (xs : list A) (ys : list B) :
  Forall2 P xs ys → Forall2 P (Torch.select mask xs) (Torch.select mask ys).
Proof.
  intros H. revert mask. induction H as [|x y xs ys Hxy _ IH];
    intros [|b mask]; cbn; try constructor.
  destruct b; [constructor|]; auto.
Qed.

Lemma fmap_zip_fmap_r {A B C D} (g : A * C → D) (f : B → C)
    (xs : list A) (ys : list B) :
  g <$> zip xs (f <$> ys) = (λ xy, g (xy.1, f xy.2)) <$> zip xs ys.
Proof.
  revert ys. induction xs as [|x xs IH]; intros [|y ys]; cbn; try done.
  by rewrite IH.
Qed.

Lemma same_shape_nonempty (src_logits : list (list R))
    (target_classes : list (list Z)) :
  same_shape src_logits target_classes →
  Forall (λ t, t ≠ []) target_classes.
Proof. induction 1 as [|x t xs ts [_ Hne] _ IH]; constructor; auto. Qed.

(** The two loops of [masked_out_cross_entropy], read row by row. *)
Lemma masked_out_loss_sum_rows (src_logits : list (list R))
    (target_classes : list (list Z)) :
  same_shape src_logits target_classes →
  masked_out_loss_sum src_logits target_classes
  = Ok (Torch.sumR
          (few_positives_term
             <$> Torch.select
                   ((λ n, bool_decide (n < 2)%Z) <$> num_pos target_classes)
                   (zip src_logits target_classes))
        + Torch.sumR
            (many_positives_term
               <$> Torch.select
                     ((λ n, bool_decide (1 < n)%Z) <$> num_pos target_classes)
                     (zip src_logits target_classes)))%R.
Proof.
  intros Hshape. unfold masked_out_loss_sum. cbv zeta.
  pose proof (Forall2_length _ _ _ Hshape) as Hlen.
  set (m1 := (λ n, bool_decide (n < 2)%Z) <$> num_pos target_classes).
  assert (length m1 = length target_classes) as Hm1
    by (subst m1; unfold num_pos; rewrite !length_fmap; reflexivity).
  rewrite (index_nonzero target_classes m1 Hm1). cbn [mbind result_bind].
  rewrite (mapM_Ok_fmap _ argmax_row).
  2:{ apply select_Forall. eapply Forall_impl.
      - eapply same_shape_nonempty; exact Hshape.
      - cbn. intros t Hne. by apply argmax_Ok. }
  cbn [mbind result_bind].
  rewrite (index_nonzero src_logits m1) by congruence. cbn [mbind result_bind].
  rewrite cross_entropy_sum_Ok.
  2:{ apply Forall2_fmap_r. apply select_Forall2.
      eapply Forall2_impl; [exact Hshape|]. cbn.
      intros x t [Hxt Hne]. rewrite Hxt. by apply argmax_row_bound. }
  cbn [mbind result_bind].
  pose proof (many_positives_loop [] [] src_logits target_classes) as Hloop.
  cbn in Hloop. unfold Torch.nonzero.
  rewrite Hloop by done. f_equal.
  rewrite fmap_zip_fmap_r, <- select_zip, Rplus_0_l. reflexivity.
Qed.

(** *** Positions, masks and [argmax] on indicator rows *)

Lemma filter_ext_Forall {A} (P Q : A → Prop) `{∀ a, Decision (P a)}
    `{∀ a, Decision (Q a)} (l : list A) :
  Forall (λ a, P a ↔ Q a) l → filter P l = filter Q l.
Proof.
  induction 1 as [|a l Ha _ IH]; [done|].
  rewrite !filter_cons, IH.
  destruct (decide (P a)), (decide (Q a)); tauto.
Qed.

Lemma nonzero_from_filter_seq (i : nat) (mask : list bool) :
  Torch.nonzero_from i mask
  = filter (λ j, mask !! (j - i) = Some true) (seq i (length mask)).
Proof.
  revert i. induction mask as [|b mask IH]; intros i; [done|].
  cbn [Torch.nonzero_from length seq]. rewrite filter_cons.
  replace (i - i) with 0 by lia. cbn [lookup list_lookup].
  rewrite (filter_ext_Forall _ (λ j, mask !! (j - S i) = Some true)).
  2:{ apply Forall_forall. intros j Hj%elem_of_seq.
      replace (j - i) with (S (j - S i)) by lia. done. }
  rewrite <- IH. destruct b.
  - by rewrite decide_True.
  - by rewrite decide_False.
Qed.

Lemma nonzero_filter_seq (mask : list bool) :
  Torch.nonzero mask
  = filter (λ j, mask !! j = Some true) (seq 0 (length mask)).
Proof.
  unfold Torch.nonzero. rewrite nonzero_from_filter_seq.
  apply filter_ext_Forall, Forall_forall. intros j _.
  by replace (j - 0) with j by lia.
Qed.

Lemma select_nonzero_from {A} (d : A) (i : nat) (mask : list bool)
    (x : list A) :
  length mask = length x →
  Torch.select mask x = (λ k, nth (k - i) x d) <$> Torch.nonzero_from i mask.
Proof.
  revert i x. induction mask as [|b mask IH]; intros i [|a x] Hlen;
    try done.
  cbn in Hlen. injection Hlen as Hlen. cbn [Torch.select Torch.nonzero_from].
  assert ((λ k, nth (k - i) (a :: x) d) <$> Torch.nonzero_from (S i) mask
          = Torch.select mask x) as Htail.
  { rewrite (IH (S i) x Hlen). apply Forall_fmap_ext.
    eapply Forall_impl; [apply nonzero_from_bound|]. cbn. intros k Hk.
    by replace (k - i) with (S (k - S i)) by lia. }
  destruct b; cbn [fmap list_fmap]; rewrite Htail; [|done].
  by replace (i - i) with 0 by lia.
Qed.

Lemma select_restrict (mask : list bool) (x : list R) :
  length mask = length x →
  Torch.select mask x = restrict x (Torch.nonzero mask).
Proof.
  intros Hlen. unfold restrict, Torch.nonzero.
  rewrite (select_nonzero_from 0%R 0 mask x Hlen).
  apply list_fmap_ext. intros _ k _. by replace (k - 0) with k by lia.
Qed.

Lemma positive_columns_nonzero (t : list Z) :
  positive_columns t = Torch.nonzero ((λ z, bool_decide (z = 1%Z)) <$> t).
Proof.
  unfold positive_columns. rewrite nonzero_filter_seq, length_fmap.
  apply filter_ext_Forall, Forall_forall. intros j _.
  rewrite list_lookup_fmap. destruct (t !! j) as [z|]; cbn; [|done].
  case_bool_decide; split; congruence.
Qed.

Lemma kept_columns_nonzero (t : list Z) (j : nat) :
  j < length t →
  kept_columns t j = Torch.nonzero (keep_mask t j).
Proof.
  intros Hj. unfold kept_columns.
  rewrite nonzero_filter_seq, length_keep_mask.
  apply filter_ext_Forall, Forall_forall. intros k Hk%elem_of_seq.
  unfold keep_mask. destruct (decide (k = j)) as [->|Hkj].
  - rewrite list_lookup_insert_eq by (rewrite length_fmap; lia). tauto.
  - rewrite list_lookup_insert_ne by done. rewrite list_lookup_fmap.
    destruct (t !! k) as [z|]; cbn.
    + case_bool_decide as Hz; split.
      * done.
      * intros _. left. by rewrite Hz.
      * intros [[=]|]; congruence.
      * intros [=].
    + split; [|done]. intros [|]; congruence.
Qed.

Lemma nonzero_entries_indicator (i : nat) (t : list Z) :
  indicator_row t →
  Torch.nonzero_from i ((λ z, bool_decide (z ≠ 0%Z)) <$> t)
  = Torch.nonzero_from i ((λ z, bool_decide (z = 1%Z)) <$> t).
Proof.
  intros H. revert i. induction H as [|z t Hz _ IH]; intros i; [done|].
  cbn. rewrite IH. by destruct Hz as [-> | ->].
Qed.

Lemma nonzero_entries_positive_columns (t : list Z) :
  indicator_row t → nonzero_entries t = positive_columns t.
Proof.
  intros H. rewrite positive_columns_nonzero.
  by apply nonzero_entries_indicator.
Qed.

Lemma sumZ_indicator (i : nat) (t : list Z) :
  indicator_row t →
  Torch.sumZ t
  = Z.of_nat (length (Torch.nonzero_from i ((λ z, bool_decide (z = 1%Z)) <$> t))).
Proof.
  intros H. revert i. induction H as [|z t Hz _ IH]; intros i; [done|].
  cbn. fold (Torch.sumZ t). rewrite (IH (S i)).
  destruct Hz as [-> | ->]; cbn; case_bool_decide; try done; cbn [length]; lia.
Qed.

Lemma sumZ_positive_columns (t : list Z) :
  indicator_row t → Torch.sumZ t = Z.of_nat (length (positive_columns t)).
Proof.
  intros H. rewrite positive_columns_nonzero. by apply sumZ_indicator.
Qed.

Lemma argmax_from_le (best : Z) (besti i : nat) (l : list Z) :
  Forall (λ z, (z ≤ best)%Z) l → Torch.argmax_from best besti i l = besti.
Proof.
  intros H. revert i. induction H as [|z l Hz _ IH]; intros i; [done|].
  cbn. destruct (Z.ltb_spec best z); [lia|]. apply IH.
Qed.

Lemma indicator_row_le_1 (t : list Z) :
  indicator_row t → Forall (λ z, (z ≤ 1)%Z) t.
Proof. intros H. eapply Forall_impl; [exact H|]. intros z [-> | ->]; lia. Qed.

Lemma argmax_from_indicator (besti i : nat) (t : list Z) :
  indicator_row t →
  Torch.argmax_from 0 besti i t
  = default besti
      (head (Torch.nonzero_from i ((λ z, bool_decide (z = 1%Z)) <$> t))).
Proof.
  intros H. revert i. induction H as [|z t Hz Ht IH]; intros i; [done|].
  cbn. destruct Hz as [-> | ->]; case_bool_decide; try done; cbn.
  - apply IH.
  - by apply argmax_from_le, indicator_row_le_1.
Qed.

Lemma argmax_row_indicator (t : list Z) :
  indicator_row t → argmax_row t = Torch.argmax_from 0 0 0 t.
Proof.
  destruct 1 as [|z t Hz Ht]; [done|]. cbn.
  destruct Hz as [-> | ->]; cbn; [done|].
  rewrite !argmax_from_le; auto using indicator_row_le_1.
Qed.

(** On an indicator row [argmax] finds the first positive column, and
    column 0 when there is none. *)
Lemma argmax_row_positive_column (t : list Z) :
  indicator_row t → argmax_row t = positive_column t.
Proof.
  intros H. rewrite argmax_row_indicator by done.
  rewrite argmax_from_indicator by done.
  unfold positive_column. by rewrite positive_columns_nonzero.
Qed.

Lemma select_indicator (mask : list bool) (t : list Z) :
  indicator_row t → indicator_row (Torch.select mask t).
Proof. apply select_Forall. Qed.

Lemma filter_none {A} (P : A → Prop) `{∀ a, Decision (P a)} (l : list A) :
  Forall (λ a, ¬ P a) l → filter P l = [].
Proof.
  induction 1 as [|a l Ha _ IH]; [done|].
  by rewrite filter_cons, decide_False.
Qed.

Lemma keep_mask_cons_0 (z : Z) (t : list Z) :
  keep_mask (z :: t) 0 = true :: ((λ z, bool_decide (z = 0%Z)) <$> t).
Proof. reflexivity. Qed.

Lemma keep_mask_cons_S (z : Z) (t : list Z) (j : nat) :
  keep_mask (z :: t) (S j) = bool_decide (z = 0%Z) :: keep_mask t j.
Proof. reflexivity. Qed.

Lemma argmax_from_keep_mask (besti i : nat) (t : list Z) (j : nat) :
  indicator_row t → t !! j = Some 1%Z →
  Torch.argmax_from 0 besti i (Torch.select (keep_mask t j) t)
  = i + length (filter (λ z, z = 0%Z) (take j t)).
Proof.
  intros H. revert besti i j.
  induction H as [|z t Hz Ht IH]; intros besti i [|j] Hj; try done.
  - cbn in Hj. injection Hj as ->. rewrite keep_mask_cons_0. cbn.
    rewrite argmax_from_le; [lia|].
    by apply indicator_row_le_1, select_indicator.
  - cbn in Hj. rewrite keep_mask_cons_S. cbn [Torch.select take].
    rewrite filter_cons.
    destruct Hz as [-> | ->]; case_bool_decide; try done.
    + rewrite decide_True by done.
      change (Torch.argmax_from 0 besti i (0%Z :: ?l))
        with (Torch.argmax_from 0 besti (S i) l).
      rewrite (IH besti (S i) j Hj). cbn [length]. lia.
    + rewrite decide_False by done. apply IH. done.
Qed.

Lemma position_within_keep_mask (i : nat) (t : list Z) (j : nat) :
  indicator_row t → j < length t →
  length (filter (λ k, k < i + j) (Torch.nonzero_from i (keep_mask t j)))
  = length (filter (λ z, z = 0%Z) (take j t)).
Proof.
  intros H. revert i j.
  induction H as [|z t Hz Ht IH]; intros i [|j] Hj; cbn in Hj; try lia.
  - rewrite keep_mask_cons_0.
    cbn [Torch.nonzero_from take]. rewrite filter_cons.
    rewrite decide_False by lia.
    rewrite filter_none; [done|].
    eapply Forall_impl; [apply nonzero_from_bound|]. cbn. intros; lia.
  - rewrite keep_mask_cons_S. cbn [Torch.nonzero_from take].
    specialize (IH (S i) j ltac:(lia)).
    replace (S i + j) with (i + S j) in IH by lia.
    rewrite (filter_cons (λ z, z = 0%Z)).
    destruct Hz as [-> | ->]; case_bool_decide; try done.
    rewrite filter_cons, decide_True by lia.
    rewrite decide_True by done.
    cbn [length]. by rewrite IH.
Qed.

(** Lines 128-130 on an indicator row: the target handed to the
    cross-entropy is the position of the positive column [j] within
    the kept columns. *)
Lemma argmax_keep_mask_position (t : list Z) (j : nat) :
  indicator_row t → t !! j = Some 1%Z →
  argmax_row (Torch.select (keep_mask t j) t)
  = position_within j (kept_columns t j).
Proof.
  intros H Hj.
  assert (j < length t) as Hlt by (eapply lookup_lt_Some; eauto).
  rewrite argmax_row_indicator by by apply select_indicator.
  rewrite argmax_from_keep_mask by done.
  unfold position_within. rewrite kept_columns_nonzero by done.
  by rewrite <- (position_within_keep_mask 0 t j).
Qed.

(** *** The loss as a sum over rows *)

Lemma select_zip_filter {A B} (P : B → Prop) `{∀ b, Decision (P b)}
    (xs : list A) (ys : list B) :
  Torch.select ((λ b, bool_decide (P b)) <$> ys) (zip xs ys)
  = filter (λ xy, P xy.2) (zip xs ys).
Proof.
  revert xs. induction ys as [|y ys IH]; intros [|x xs]; try done.
  cbn [fmap list_fmap zip zip_with Torch.select]. rewrite filter_cons.
  cbn [snd]. rewrite IH. case_bool_decide.
  - by rewrite decide_True.
  - by rewrite decide_False.
Qed.

Lemma sumR_app (l k : list R) :
  Torch.sumR (l ++ k) = (Torch.sumR l + Torch.sumR k)%R.
Proof.
  unfold Torch.sumR. induction l as [|a l IH]; cbn; [lra|].
  rewrite IH. lra.
Qed.

Lemma sumR_cons (a : R) (l : list R) :
  Torch.sumR (a :: l) = (a + Torch.sumR l)%R.
Proof. reflexivity. Qed.

Lemma sumR_nil : Torch.sumR [] = 0%R.
Proof. reflexivity. Qed.

(** The loss before the final division, as two sums over the rows
    of the paired matrices. *)
Lemma masked_out_loss_sum_filter (src_logits : list (list R))
    (target_classes : list (list Z)) :
  same_shape src_logits target_classes →
  masked_out_loss_sum src_logits target_classes
  = Ok (Torch.sumR
          (few_positives_term
             <$> filter (λ xt, (Torch.sumZ xt.2 < 2)%Z)
                        (zip src_logits target_classes))
        + Torch.sumR
            (many_positives_term
               <$> filter (λ xt, (1 < Torch.sumZ xt.2)%Z)
                          (zip src_logits target_classes)))%R.
Proof.
  intros Hshape. rewrite masked_out_loss_sum_rows by done.
  unfold num_pos. rewrite <- !list_fmap_compose.
  f_equal. f_equal; f_equal; f_equal.
  - exact (select_zip_filter (λ t, (Torch.sumZ t < 2)%Z) _ _).
  - exact (select_zip_filter (λ t, (1 < Torch.sumZ t)%Z) _ _).
Qed.

Lemma positive_columns_lookup (t : list Z) (j : nat) :
  j ∈ positive_columns t → t !! j = Some 1%Z.
Proof. unfold positive_columns. by intros [? _]%list_elem_of_filter. Qed.

(** On an indicator row the second branch computes the averaged
    per-positive loss of the design document. *)
Lemma many_positives_term_indicator (x : list R) (t : list Z) :
  indicator_row t → length x = length t →
  many_positives_term (x, t) = multi_positive_row_loss x t.
Proof.
  intros Ht Hlen. unfold many_positives_term, multi_positive_row_loss.
  cbn [fst snd].
  rewrite nonzero_entries_positive_columns by done.
  rewrite sumZ_positive_columns by done. rewrite <- INR_IZR_INZ.
  f_equal. f_equal. apply list_fmap_ext. intros _ j Hj%list_elem_of_lookup_2.
  pose proof (positive_columns_lookup t j Hj) as Hj1.
  assert (j < length t) as Hlt by (eapply lookup_lt_Some; eauto).
  rewrite argmax_keep_mask_position by done.
  rewrite select_restrict by (rewrite length_keep_mask; congruence).
  by rewrite <- kept_columns_nonzero.
Qed.

Lemma few_positives_term_indicator (x : list R) (t : list Z) :
  indicator_row t →
  few_positives_term (x, t) = Torch.nll x (positive_column t).
Proof.
  intros Ht. unfold few_positives_term. cbn [fst snd].
  by rewrite argmax_row_positive_column.
Qed.

(** Rows classified by their number of positive columns. *)
Lemma masked_out_rows_classified (l : list (list R * list Z)) :
  Forall (λ xt, indicator_row xt.2 ∧ length xt.1 = length xt.2) l →
  (Torch.sumR (few_positives_term
                 <$> filter (λ xt, (Torch.sumZ xt.2 < 2)%Z) l)
   + Torch.sumR (many_positives_term
                   <$> filter (λ xt, (1 < Torch.sumZ xt.2)%Z) l))%R
  = (Torch.sumR ((λ xt, Torch.nll xt.1 (positive_column xt.2))
                 <$> filter (λ xt, length (positive_columns xt.2) = 1%nat) l)
     + Torch.sumR ((λ xt, Torch.nll xt.1 0%nat)
                   <$> filter (λ xt, length (positive_columns xt.2) = 0%nat) l)
     + Torch.sumR ((λ xt, multi_positive_row_loss xt.1 xt.2)
                   <$> filter (λ xt, (2 ≤ length (positive_columns xt.2))%nat)
                              l))%R.
Proof.
  induction 1 as [|[x t] l [Ht Hlen] _ IH].
  - unfold Torch.sumR. cbn. lra.
  - cbn [fst snd] in *. rewrite !filter_cons. cbn [fst snd].
    pose proof (sumZ_positive_columns t Ht) as Hsum.
    pose proof (few_positives_term_indicator x t Ht) as Hfew.
    pose proof (many_positives_term_indicator x t Ht Hlen) as Hmany.
    destruct (length (positive_columns t)) as [|[|n]] eqn:Hn.
    + rewrite decide_True by lia. rewrite decide_False by lia.
      rewrite decide_False by lia. rewrite decide_True by lia.
      rewrite decide_False by lia.
      assert (positive_column t = 0%nat) as H0.
      { unfold positive_column. apply nil_length_inv in Hn. by rewrite Hn. }
      cbn [fmap list_fmap]. rewrite !sumR_cons, Hfew, H0. cbn [fst snd]. lra.
    + rewrite decide_True by lia. rewrite decide_False by lia.
      rewrite decide_True by lia. rewrite decide_False by lia.
      rewrite decide_False by lia.
      cbn [fmap list_fmap]. rewrite !sumR_cons, Hfew. cbn [fst snd]. lra.
    + rewrite decide_False by lia. rewrite decide_True by lia.
      rewrite decide_False by lia. rewrite decide_False by lia.
      rewrite decide_True by lia.
      cbn [fmap list_fmap]. rewrite !sumR_cons, Hmany. cbn [fst snd]. lra.
Qed.

Lemma same_shape_indicator_zip (src_logits : list (list R))
    (target_classes : list (list Z)) :
  same_shape src_logits target_classes →
  Forall indicator_row target_classes →
  Forall (λ xt, indicator_row xt.2 ∧ length xt.1 = length xt.2)
         (zip src_logits target_classes).
Proof.
  induction 1 as [|x t xs ts [Hlen _] _ IH]; intros Hind; [constructor|].
  apply Forall_cons in Hind as [Ht Hts]. cbn. constructor; auto.
Qed.

Lemma cross_entropy_mean_Ok (rows : list (list R)) (tgts : list nat) :
  Forall2 (λ x t, t < length x) rows tgts →
  Torch.cross_entropy Torch.Mean rows tgts
  = Ok (Torch.sumR ((λ xt, Torch.nll xt.1 xt.2) <$> zip rows tgts)
        / INR (length rows))%R.
Proof.
  intros H. unfold Torch.cross_entropy.
  rewrite decide_True by (eapply Forall2_length; exact H).
  rewrite (mapM_Ok_fmap _ (λ xt, Torch.nll xt.1 xt.2)); [done|].
  induction H as [|x t rows tgts Hxt _ IH]; cbn; constructor; [|exact IH].
  cbn. unfold Torch.cross_entropy_row. by rewrite decide_True.
Qed.

Lemma sumZ_zeros (t : list Z) : Forall (λ z, z = 0%Z) t → Torch.sumZ t = 0%Z.
Proof. induction 1 as [|z t -> _ IH]; [done|]. cbn. exact IH. Qed.

Lemma argmax_row_zeros (t : list Z) :
  Forall (λ z, z = 0%Z) t → argmax_row t = 0.
Proof.
  destruct 1 as [|z t -> Ht]; [done|]. cbn.
  apply argmax_from_le. eapply Forall_impl; [exact Ht|]. cbn. lia.
Qed.

(** C2: on indicator matrices of matching shape the function returns
    the grand total divided by the number of target rows, where the
    grand total adds, for every row with two or more positive columns,
    the sum over its positive columns [j] of the cross-entropy of the
    row restricted to the negatives plus [j] with target the position
    of [j] within the kept columns, divided by the row's number of
    positives, to the summed ordinary cross-entropy of the rows with one
    positive (against that column); rows without any positive enter the
    same first sum with target column 0. *)
Theorem masked_out_cross_entropy_spec (src_logits : list (list R))
    (target_classes : list (list Z)) :
  same_shape src_logits target_classes →
  Forall indicator_row target_classes →
  masked_out_cross_entropy src_logits target_classes
  = Ok ((Torch.sumR ((λ xt, Torch.nll xt.1 (positive_column xt.2))
                     <$> rows_with (λ n, n = 1%nat) src_logits target_classes)
         + Torch.sumR ((λ xt, Torch.nll xt.1 0%nat)
                       <$> rows_with (λ n, n = 0%nat) src_logits target_classes)
         + Torch.sumR ((λ xt, multi_positive_row_loss xt.1 xt.2)
                       <$> rows_with (λ n, (2 ≤ n)%nat)
                             src_logits target_classes))
        / INR (length target_classes))%R.
Proof.
  intros Hshape Hind. unfold masked_out_cross_entropy.
  rewrite masked_out_loss_sum_filter by done. cbn [mbind result_bind].
  rewrite masked_out_rows_classified by by apply same_shape_indicator_zip.
  rewrite (Forall2_length _ _ _ Hshape). reflexivity.
Qed.

(** C3: when every indicator row has exactly one positive column the
    function returns the mean-reduced cross-entropy of the logit rows
    against the positive column indices. *)
Theorem masked_out_cross_entropy_one_positive (src_logits : list (list R))
    (target_classes : list (list Z)) :
  same_shape src_logits target_classes →
  Forall indicator_row target_classes →
  Forall (λ t, length (positive_columns t) = 1) target_classes →
  masked_out_cross_entropy src_logits target_classes
  = Torch.cross_entropy Torch.Mean src_logits
      (positive_column <$> target_classes).
Proof.
  intros Hshape Hind Hone. unfold masked_out_cross_entropy.
  rewrite masked_out_loss_sum_filter by done. cbn [mbind result_bind].
  rewrite cross_entropy_mean_Ok.
  2:{ apply Forall2_fmap_r.
      clear Hone. induction Hshape as [|x t xs ts [Hlen Hne] _ IH];
        constructor.
      - apply Forall_cons in Hind as [Ht _]. cbn.
        rewrite <- argmax_row_positive_column, Hlen by done.
        by apply argmax_row_bound.
      - apply IH. by apply Forall_cons in Hind as [_ ?]. }
  f_equal. f_equal. rewrite fmap_zip_fmap_r.
  clear Hshape.
  assert (Forall (λ xt, indicator_row xt.2
                        ∧ length (positive_columns xt.2) = 1)
                 (zip src_logits target_classes)) as Hzip.
  { revert src_logits. induction target_classes as [|t ts IH];
      intros [|x xs]; cbn; try constructor.
    - split; [by eapply Forall_inv|by eapply (Forall_inv Hone)].
    - apply IH; by eapply Forall_inv_tail. }
  induction Hzip as [|[x t] l [Ht H1] _ IH].
  - unfold Torch.sumR. cbn. lra.
  - rewrite !filter_cons. cbn [fst snd] in *.
    rewrite (sumZ_positive_columns t Ht), H1.
    rewrite decide_True by lia. rewrite decide_False by lia.
    cbn [fmap list_fmap]. rewrite !sumR_cons, <- IH.
    rewrite few_positives_term_indicator by done. cbn [fst snd]. lra.
Qed.

(** C9: a target row without any positive column is not skipped.  Its
    index is among those selected by the [num_pos < 2] test (and not
    among those of the [num_pos > 1] loop), [argmax] over it resolves
    to column 0, and the row adds the ordinary cross-entropy of its
    logits toward column 0 to the loss accumulated over the other
    rows. *)
Theorem masked_out_zero_positive_row (src1 src2 : list (list R))
    (tgt1 tgt2 : list (list Z)) (x : list R) (t : list Z) :
  same_shape src1 tgt1 → same_shape src2 tgt2 →
  length x = length t → t ≠ [] → Forall (λ z, z = 0%Z) t →
  (length tgt1
     ∈ Torch.nonzero ((λ n, bool_decide (n < 2)%Z)
                      <$> num_pos (tgt1 ++ t :: tgt2)))
  ∧ (length tgt1
       ∉ Torch.nonzero ((λ n, bool_decide (1 < n)%Z)
                        <$> num_pos (tgt1 ++ t :: tgt2)))
  ∧ Torch.argmax t = Ok 0
  ∧ ∃ rest : R,
      masked_out_loss_sum (src1 ++ src2) (tgt1 ++ tgt2) = Ok rest
      ∧ masked_out_loss_sum (src1 ++ x :: src2) (tgt1 ++ t :: tgt2)
        = Ok (rest + Torch.nll x 0)%R
      ∧ masked_out_cross_entropy (src1 ++ x :: src2) (tgt1 ++ t :: tgt2)
        = Ok ((rest + Torch.nll x 0)
              / INR (length (src1 ++ x :: src2)))%R.
Proof.
  intros Hs1 Hs2 Hlen Hne Hzero.
  pose proof (sumZ_zeros t Hzero) as Hsum.
  pose proof (argmax_row_zeros t Hzero) as Harg.
  assert (∀ f : Z → bool,
            (f <$> num_pos (tgt1 ++ t :: tgt2)) !! length tgt1
            = Some (f 0%Z)) as Hlook.
  { intros f. unfold num_pos. rewrite !list_lookup_fmap.
    rewrite list_lookup_middle by done. cbn. by rewrite Hsum. }
  assert (length tgt1 < length (tgt1 ++ t :: tgt2)) as Hlt
    by (rewrite length_app; cbn; lia).
  split; [|split; [|split]].
  - rewrite nonzero_filter_seq. apply list_elem_of_filter. split.
    + by rewrite Hlook.
    + apply elem_of_seq. unfold num_pos. rewrite !length_fmap. lia.
  - rewrite nonzero_filter_seq. intros [H _]%list_elem_of_filter.
    rewrite Hlook in H. done.
  - rewrite argmax_Ok by done. by rewrite Harg.
  - pose proof (Forall2_length _ _ _ Hs1) as Hl1.
    assert (same_shape (src1 ++ src2) (tgt1 ++ tgt2)) as Hs12
      by by apply Forall2_app.
    assert (same_shape (src1 ++ x :: src2) (tgt1 ++ t :: tgt2)) as Hs
      by (apply Forall2_app; [done|by constructor]).
    eexists. split; [by apply masked_out_loss_sum_filter|].
    assert (masked_out_loss_sum (src1 ++ x :: src2) (tgt1 ++ t :: tgt2)
            = Ok (Torch.sumR
                    (few_positives_term
                       <$> filter (λ xt, (Torch.sumZ xt.2 < 2)%Z)
                                  (zip (src1 ++ src2) (tgt1 ++ tgt2)))
                  + Torch.sumR
                      (many_positives_term
                         <$> filter (λ xt, (1 < Torch.sumZ xt.2)%Z)
                                    (zip (src1 ++ src2) (tgt1 ++ tgt2)))
                  + Torch.nll x 0)%R) as Hsum_with.
    { rewrite masked_out_loss_sum_filter by done. f_equal.
      rewrite !zip_with_app by done. cbn [zip_with].
      rewrite !filter_app, !filter_cons. cbn [fst snd]. rewrite Hsum.
      rewrite decide_True by lia. rewrite decide_False by lia.
      rewrite !fmap_app, !sumR_app. cbn [fmap list_fmap].
      rewrite sumR_cons. unfold few_positives_term at 2. cbn [fst snd].
      rewrite Harg. lra. }
    split; [exact Hsum_with|].
    unfold masked_out_cross_entropy. rewrite Hsum_with. reflexivity.
Qed.

Lemma masked_out_cross_entropy_spec_witness :
  is_Ok (masked_out_cross_entropy
           [[1; 2; 3]; [0; 0; 0]; [4; 5; 6]]%R
           [[1; 0; 1]; [0; 1; 0]; [0; 0; 0]]%Z).
Proof.
  eexists. apply masked_out_cross_entropy_spec.
  - repeat constructor; done.
  - repeat constructor; (by left) || (by right).
Defined.

Lemma masked_out_cross_entropy_one_positive_witness :
  masked_out_cross_entropy [[1; 2; 3]; [0; 0; 0]]%R [[0; 0; 1]; [0; 1; 0]]%Z
  = Torch.cross_entropy Torch.Mean [[1; 2; 3]; [0; 0; 0]]%R [2; 1].
Proof.
  apply (masked_out_cross_entropy_one_positive
           [[1; 2; 3]; [0; 0; 0]]%R [[0; 0; 1]; [0; 1; 0]]%Z).
  - repeat constructor; done.
  - repeat constructor; (by left) || (by right).
  - repeat constructor.
Defined.

Lemma masked_out_zero_positive_row_witness :
  Torch.argmax [0; 0]%Z = Ok 0
  ∧ ∃ rest : R,
      masked_out_loss_sum [[1; 2]]%R [[1; 0]]%Z = Ok rest
      ∧ masked_out_loss_sum [[1; 2]; [3; 4]]%R [[1; 0]; [0; 0]]%Z
        = Ok (rest + Torch.nll [3; 4]%R 0)%R.
Proof.
  destruct (masked_out_zero_positive_row
              [[1; 2]]%R [] [[1; 0]]%Z [] [3; 4]%R [0; 0]%Z)
    as (_ & _ & Harg & rest & Hrest & Hsum & _).
  - repeat constructor; done.
  - constructor.
  - reflexivity.
  - discriminate.
  - repeat constructor.
  - split; [exact Harg|]. exists rest. split; [exact Hrest|exact Hsum].
Defined.

(** ** Properties of the losses and of the orchestrator *)

Section criterion_properties.

Variable accuracy : list (list R) → list nat → result R.
Variable generalized_box_iou
  : list (list R) → list (list R) → result (list (list R)).
Variable box_cxcywh_to_xyxy : list (list R) → list (list R).

(** *** The classification loss under "consider all classes" *)

Lemma get_tgt_labels_consider_all (self : SetCriterion)
    (targets : list target) (indices : assignment)
    (r : list nat * option (nat * list (list Z))) :
  consider_all self = true →
  _get_tgt_labels self targets indices = Ok r → r.2 = None.
Proof.
  intros Hall. unfold _get_tgt_labels. rewrite Hall, andb_false_r.
  destruct (for_matched _ targets indices) as [tci|e]; cbn; [|done].
  by intros [= <-].
Qed.

(** C10: with the module in training mode, the "consider all classes"
    flag set and the focal loss off, [loss_labels] cannot return a
    loss: the label resolver hands back [None] for [target_classes_t],
    and the text-to-image branch, entered on the training flag alone,
    reads its [shape].  Whenever the steps before that branch succeed
    the exception is the [AttributeError] of that read. *)
Theorem loss_labels_consider_all_training_raises (self : SetCriterion)
    (outputs : prediction_output) (targets : list target)
    (indices : assignment) (num_boxes : R) (log : bool) :
  training self = true → consider_all self = true →
  enable_focal_loss self = false →
  (∀ r, _get_tgt_labels self targets indices = Ok r → r.2 = None)
  ∧ (∃ e, loss_labels accuracy self outputs targets indices num_boxes log = Raise e)
  ∧ (∀ src_logits target_classes_i idx selected loss_i,
       tensors outputs !! "logits_per_hoi" = Some src_logits →
       _get_tgt_labels self targets indices = Ok (target_classes_i, None) →
       _get_src_permutation_idx indices = Ok idx →
       Torch.index2 src_logits idx = Ok selected →
       Torch.cross_entropy Torch.Mean selected target_classes_i = Ok loss_i →
       loss_labels accuracy self outputs targets indices num_boxes log
       = Raise AttributeError).
Proof.
  intros Htrain Hall Hfocal. split; [|split].
  - intros r. by apply get_tgt_labels_consider_all.
  - unfold loss_labels.
    destruct (tensors outputs !! "logits_per_hoi") as [src_logits|]; cbn;
      [|by eexists].
    destruct (_get_tgt_labels self targets indices) as [[tci tct]|e] eqn:Hl;
      cbn; [|by eexists].
    apply get_tgt_labels_consider_all in Hl; [|done]. cbn in Hl. subst tct.
    destruct (_get_src_permutation_idx indices) as [idx|e]; cbn;
      [|by eexists].
    rewrite Hfocal, Htrain.
    destruct (Torch.index2 src_logits idx) as [selected|e]; cbn;
      [|by eexists].
    destruct (Torch.cross_entropy _ selected tci) as [loss_i|e]; cbn;
      by eexists.
  - intros src_logits tci idx selected loss_i Hsrc Hlab Hidx Hsel Hce.
    unfold loss_labels. rewrite Hsrc. cbn. rewrite Hlab. cbn.
    rewrite Hidx. cbn. rewrite Hfocal, Htrain, Hsel. cbn. rewrite Hce.
    reflexivity.
Qed.

(** *** The normalizer *)

Lemma get_world_size_pos (dist : dist_context) :
  (0 < INR (get_world_size dist))%R.
Proof. apply lt_0_INR. destruct dist; cbn; lia. Qed.

(** C5: the normalizer is the number of ground-truth interactions of
    the batch, summed with the other workers' values when a process
    group is active, divided by the world size and clamped from below
    at 1.  The divisor is never zero, the result is at least 1, and a
    batch without any annotated interaction run without a process
    group (world size 1) gets exactly 1. *)
Theorem normalizer_spec (dist : dist_context) (targets : list target) :
  normalizer dist targets
  = Rmax (all_reduce dist (INR (total_interactions targets))
          / INR (get_world_size dist)) 1
  ∧ (dist = None →
     normalizer dist targets = Rmax (INR (total_interactions targets)) 1)
  ∧ (∀ peers, dist = Some peers →
     normalizer dist targets
     = Rmax ((INR (total_interactions targets) + Torch.sumR peers)
             / INR (S (length peers))) 1)
  ∧ INR (get_world_size dist) ≠ 0%R
  ∧ (1 <= normalizer dist targets)%R
  ∧ (total_interactions targets = 0 → dist = None →
     normalizer dist targets = 1%R).
Proof.
  assert (normalizer dist targets
          = Rmax (all_reduce dist (INR (total_interactions targets))
                  / INR (get_world_size dist)) 1) as Hdef.
  { unfold normalizer, total_interactions. by destruct dist. }
  split; [exact Hdef|]. split; [|split; [|split; [|split]]].
  - intros ->. rewrite Hdef. cbn. f_equal. lra.
  - intros peers ->. by rewrite Hdef.
  - pose proof (get_world_size_pos dist). lra.
  - rewrite Hdef. apply Rmax_r.
  - intros H0 ->. rewrite Hdef, H0. cbn.
    rewrite Rmax_right; lra.
Qed.

(** *** The region-mask loss *)

Lemma mapM_Ok_app {A B} (f : A → result B) (l1 l2 : list A)
    (k1 k2 : list B) :
  mapM f l1 = Ok k1 → mapM f l2 = Ok k2 →
  mapM f (l1 ++ l2) = Ok (k1 ++ k2).
Proof.
  revert k1. induction l1 as [|a l1 IH]; intros k1; cbn.
  - intros [= <-]. done.
  - destruct (f a) as [b|e]; cbn; [|done].
    destruct (mapM f l1) as [k|e]; cbn; [|done].
    intros [= <-] H2. by rewrite (IH k eq_refl H2).
Qed.

(** The nested loop over the matched interactions succeeds with the
    values of its body, in assignment order. *)
Lemma for_matched_Ok {A} (body : target → nat → result A)
    (targets : list target) (indices : assignment) (vals : list A) :
  Forall2 (λ ti v, body ti.1 ti.2 = Ok v)
          (matched_interactions targets indices) vals →
  for_matched body targets indices = Ok vals.
Proof.
  unfold for_matched, matched_interactions.
  generalize (zip targets indices). intros l. revert vals.
  induction l as [|[t [src tgt]] l IH]; intros vals; cbn.
  - by intros ->%Forall2_nil_inv_l.
  - intros (v1 & v2 & H1 & H2 & ->)%Forall2_app_inv_l.
    specialize (IH v2 H2).
    destruct (mapM _ l) as [per_image|e]; cbn in IH; [|done].
    injection IH as <-.
    rewrite (mapM_Ok_Forall2 (body t) tgt v1); [done|].
    by apply Forall2_fmap_l in H1.
Qed.

Lemma shape3_maximum (a b : tensor3) :
  Torch.shape3 a = Torch.shape3 b →
  Torch.shape3 (zip_with (zip_with (zip_with Rmax)) a b) = Torch.shape3 a.
Proof.
  unfold Torch.shape3, Torch.shape2.
  revert b. induction a as [|m a IH]; intros [|n b] H; try done.
  cbn in *. injection H as Hm H. rewrite (IH b H). f_equal.
  clear -Hm. revert n Hm. induction m as [|r m IH]; intros [|s n] H;
    try done.
  cbn in *. injection H as Hr H. rewrite (IH n H). f_equal.
  rewrite length_zip_with. lia.
Qed.

(** C7 (amended): the region-mask loss gathers, for each matched
    prediction, the region logits of the image the prediction belongs
    to (the three tensors are indexed by the batch index alone),
    builds the human and object targets by dereferencing the matched
    interaction's [subject_id] and [object_id] into the image's
    ["mask_region_hw"], takes their element-wise maximum as union
    target, and returns the three mean binary cross-entropies with
    logits under ["loss_hum_mask"], ["loss_obj_mask"] and
    ["loss_uni_mask"]. *)
Theorem loss_masks_spec (self : SetCriterion) (outputs : prediction_output)
    (targets : list target) (indices : assignment) (num_boxes : R)
    (hum obj uni : tensor3) (batch_idx src_idx : list nat)
    (pred_hum pred_obj pred_uni : tensor3)
    (masks : list (list (list R) * list (list R))) :
  tensors outputs !! "hum_region" = Some hum →
  tensors outputs !! "obj_region" = Some obj →
  tensors outputs !! "uni_region" = Some uni →
  _get_src_permutation_idx indices = Ok (batch_idx, src_idx) →
  Forall2 (λ b p, hum !! b = Some p) batch_idx pred_hum →
  Forall2 (λ b p, obj !! b = Some p) batch_idx pred_obj →
  Forall2 (λ b p, uni !! b = Some p) batch_idx pred_uni →
  Forall2 interaction_masks (matched_interactions targets indices) masks →
  masks ≠ [] →
  Torch.shape3 (masks.*1) = Torch.shape3 (masks.*2) →
  Torch.shape3 pred_hum = Torch.shape3 (masks.*1) →
  Torch.shape3 pred_obj = Torch.shape3 (masks.*2) →
  Torch.shape3 pred_uni = Torch.shape3 (masks.*1) →
  loss_masks self outputs targets indices num_boxes
  = Ok (<[ "loss_uni_mask" :=
             Torch.mean
               (zip_with Torch.bce_with_logits (Torch.flatten3 pred_uni)
                  (Torch.flatten3
                     (zip_with (zip_with (zip_with Rmax))
                        (masks.*1) (masks.*2)))) ]>
          (<[ "loss_obj_mask" :=
                Torch.mean
                  (zip_with Torch.bce_with_logits (Torch.flatten3 pred_obj)
                     (Torch.flatten3 (masks.*2))) ]>
             (<[ "loss_hum_mask" :=
                   Torch.mean
                     (zip_with Torch.bce_with_logits
                        (Torch.flatten3 pred_hum)
                        (Torch.flatten3 (masks.*1))) ]> ∅))).
Proof.
  intros Hhum Hobj Huni Hidx Hph Hpo Hpu Hmasks Hne Hs12 Hsh Hso Hsu.
  unfold loss_masks. rewrite Hhum, Hobj, Huni, Hidx.
  rewrite !bool_decide_eq_true_2 by eauto.
  cbn [andb assert mbind result_bind or_raise].
  assert (∀ (region pred : tensor3),
            Forall2 (λ b p, region !! b = Some p) batch_idx pred →
            gather_region region (batch_idx, src_idx) = Ok pred) as Hgather.
  { intros region pred H. unfold gather_region, Torch.index. cbn.
    apply mapM_Ok_Forall2. eapply Forall2_impl; [exact H|].
    cbn. by intros b p ->. }
  rewrite (Hgather hum pred_hum Hph), (Hgather obj pred_obj Hpo),
    (Hgather uni pred_uni Hpu).
  cbn [mbind result_bind].
  unfold collect_target_masks. rewrite (for_matched_Ok _ _ _ masks).
  2:{ eapply Forall2_impl; [exact Hmasks|]. cbn.
      intros [t i] [pm om] (h & m & Hh & Hm & Hp & Ho). cbn in *.
      rewrite Hh. cbn. rewrite Hm. cbn. rewrite Hp. cbn. by rewrite Ho. }
  cbn [mbind result_bind].
  assert (∀ {A} (l : list A), l ≠ [] → Torch.stack l = Ok l) as Hstack
    by (by intros A [|a l]).
  rewrite !Hstack by (by destruct masks). cbn [mbind result_bind].
  unfold Torch.maximum. rewrite decide_True by done.
  cbn [mbind result_bind].
  unfold Torch.binary_cross_entropy_with_logits.
  rewrite !decide_True; try done.
  by rewrite shape3_maximum.
Qed.

(** C7 (as stated, refuted): the gathered logits are not the matched
    prediction's own per-slot logits.  For one image with region
    logits [[1;2];[3;4]] and the matched slot 1, the loss gathers the
    whole image-level map, whichever slot is matched, whereas
    indexing by image and slot yields the one row [3;4]. *)
Lemma loss_masks_gather_ignores_slot :
  gather_region [[[1; 2]; [3; 4]]]%R ([0], [1]) = Ok [[[1; 2]; [3; 4]]]%R
  ∧ gather_region [[[1; 2]; [3; 4]]]%R ([0], [0])
    = gather_region [[[1; 2]; [3; 4]]]%R ([0], [1])
  ∧ Torch.index2 [[[1; 2]; [3; 4]]]%R ([0], [1]) = Ok [[3; 4]]%R
  ∧ Torch.flatten3 [[[1; 2]; [3; 4]]]%R ≠ concat [[3; 4]]%R.
Proof.
  repeat split. cbn. intros H.
  apply (f_equal length) in H. discriminate H.
Qed.

(** *** Keys of the loss-map fragments *)

Lemma bind_Ok_inv {A B} (m : result A) (f : A → result B) (b : B) :
  m ≫= f = Ok b → ∃ a, m = Ok a ∧ f a = Ok b.
Proof. destruct m as [a|e]; cbn; [eauto|done]. Qed.

Lemma loss_boxes_keys (self : SetCriterion) (outputs : prediction_output)
    (targets : list target) (indices : assignment) (num_boxes : R)
    (d : gmap string R) :
  loss_boxes generalized_box_iou box_cxcywh_to_xyxy
    self outputs targets indices num_boxes = Ok d →
  ∃ bbox giou, d = <[ "loss_giou" := giou ]> (<[ "loss_bbox" := bbox ]> ∅).
Proof.
  unfold loss_boxes. intros H.
  repeat (apply bind_Ok_inv in H as (? & _ & H)).
  injection H as <-. eauto.
Qed.

Lemma loss_confidences_keys (self : SetCriterion)
    (outputs : prediction_output) (targets : list target)
    (indices : assignment) (num_boxes : R) (d : gmap string R) :
  loss_confidences self outputs targets indices num_boxes = Ok d →
  ∃ conf, d = {[ "loss_conf" := conf ]}.
Proof.
  unfold loss_confidences. intros H.
  repeat (apply bind_Ok_inv in H as (? & _ & H)).
  injection H as <-. eauto.
Qed.

Lemma loss_masks_keys (self : SetCriterion) (outputs : prediction_output)
    (targets : list target) (indices : assignment) (num_boxes : R)
    (d : gmap string R) :
  loss_masks self outputs targets indices num_boxes = Ok d →
  ∃ h o u, d = <[ "loss_uni_mask" := u ]>
                 (<[ "loss_obj_mask" := o ]>
                    (<[ "loss_hum_mask" := h ]> ∅)).
Proof.
  unfold loss_masks. intros H.
  repeat (apply bind_Ok_inv in H as (? & _ & H)).
  injection H as <-. eauto.
Qed.

Lemma loss_labels_keys (self : SetCriterion) (outputs : prediction_output)
    (targets : list target) (indices : assignment) (num_boxes : R)
    (log : bool) (d : gmap string R) :
  loss_labels accuracy self outputs targets indices num_boxes log = Ok d →
  ∃ ce, d = {[ "loss_ce" := ce ]}
        ∨ ∃ err, d = <[ "class_error" := err ]> {[ "loss_ce" := ce ]}.
Proof.
  unfold loss_labels. intros H.
  apply bind_Ok_inv in H as (? & _ & H).
  apply bind_Ok_inv in H as (src_logits & _ & H).
  apply bind_Ok_inv in H as ([tci tct] & _ & H).
  apply bind_Ok_inv in H as (idx & _ & H).
  apply bind_Ok_inv in H as (losses & Hlosses & H).
  assert (∃ ce, losses = {[ "loss_ce" := ce ]}) as [ce ->].
  { destruct (enable_focal_loss self).
    - apply bind_Ok_inv in Hlosses as (selected & _ & Hlosses).
      apply bind_Ok_inv in Hlosses as (labels & _ & Hlosses).
      apply bind_Ok_inv in Hlosses as (focal & _ & Hlosses).
      destruct focal; [|done]. injection Hlosses as <-. eauto.
    - apply bind_Ok_inv in Hlosses as (? & _ & Hlosses).
      apply bind_Ok_inv in Hlosses as (? & _ & Hlosses).
      destruct (training self).
      + destruct tct as [[n tct]|]; [|done].
        apply bind_Ok_inv in Hlosses as (? & _ & Hlosses).
        injection Hlosses as <-. eauto.
      + injection Hlosses as <-. eauto. }
  exists ce. destruct log.
  - repeat (apply bind_Ok_inv in H as (? & _ & H)).
    injection H as <-. eauto.
  - injection H as <-. eauto.
Qed.

(** Every key a loss function produces is one of [primary_keys]. *)
Lemma get_loss_keys (self : SetCriterion) (loss : string)
    (outputs : prediction_output) (targets : list target)
    (indices : assignment) (num_boxes : R) (d : gmap string R)
    (k : string) :
  get_loss accuracy generalized_box_iou box_cxcywh_to_xyxy
    self loss outputs targets indices num_boxes = Ok d →
  is_Some (d !! k) → k ∈ primary_keys.
Proof.
  unfold get_loss, primary_keys. intros H Hk.
  repeat case_decide; try done.
  - apply loss_labels_keys in H as [ce [-> | [err ->]]].
    + apply lookup_singleton_is_Some in Hk as <-. set_solver.
    + apply lookup_insert_is_Some in Hk as [<- | [_ Hk]]; [set_solver|].
      apply lookup_singleton_is_Some in Hk as <-. set_solver.
  - apply loss_boxes_keys in H as (b & g & ->).
    apply lookup_insert_is_Some in Hk as [<- | [_ Hk]]; [set_solver|].
    apply lookup_insert_is_Some in Hk as [<- | [_ Hk]]; [set_solver|].
    rewrite lookup_empty in Hk. by destruct Hk.
  - apply loss_confidences_keys in H as (c & ->).
    apply lookup_singleton_is_Some in Hk as <-. set_solver.
  - apply loss_masks_keys in H as (h & o & u & ->).
    apply lookup_insert_is_Some in Hk as [<- | [_ Hk]]; [set_solver|].
    apply lookup_insert_is_Some in Hk as [<- | [_ Hk]]; [set_solver|].
    apply lookup_insert_is_Some in Hk as [<- | [_ Hk]]; [set_solver|].
    rewrite lookup_empty in Hk. by destruct Hk.
Qed.

(** *** Keys of the auxiliary layers *)

Lemma list_ascii_of_string_app (s1 s2 : string) :
  String.list_ascii_of_string (s1 +:+ s2)
  = String.list_ascii_of_string s1 ++ String.list_ascii_of_string s2.
Proof.
  induction s1 as [|a s1 IH]; [done|].
  cbn [String.append String.list_ascii_of_string app]. by rewrite <- IH.
Qed.

Lemma string_app_inj_r (s k1 k2 : string) :
  k1 +:+ s = k2 +:+ s → k1 = k2.
Proof.
  intros H. apply (f_equal String.list_ascii_of_string) in H.
  rewrite !list_ascii_of_string_app in H. apply app_inv_tail in H.
  rewrite <- (String.string_of_list_ascii_of_string k1).
  rewrite <- (String.string_of_list_ascii_of_string k2).
  by rewrite H.
Qed.

#[local] Instance suffix_inj (s : string) : Inj (=) (=) (λ k, k +:+ s).
Proof. intros k1 k2. apply string_app_inj_r. Qed.

Lemma aux_key_inj_index (name : string) (i j : nat) :
  aux_key name i = aux_key name j → i = j.
Proof.
  unfold aux_key. intros H. apply String.app_inj in H.
  apply String.app_inj in H. by apply pretty_nat_inj in H.
Qed.

Lemma aux_key_inj_name (n1 n2 : string) (i : nat) :
  aux_key n1 i = aux_key n2 i → n1 = n2.
Proof. unfold aux_key. apply string_app_inj_r. Qed.

Lemma lookup_suffix_keys (i : nat) (d : gmap string R) (name : string) :
  suffix_keys i d !! aux_key name i = d !! name.
Proof.
  unfold suffix_keys, aux_key.
  exact (lookup_kmap (λ k : string, k +:+ "_" +:+ pretty i) d name).
Qed.

Lemma lookup_suffix_keys_Some (i : nat) (d : gmap string R) (k : string)
    (v : R) :
  suffix_keys i d !! k = Some v →
  ∃ name, k = aux_key name i ∧ d !! name = Some v.
Proof.
  unfold suffix_keys, aux_key. intros H.
  apply (lookup_kmap_Some (λ k : string, k +:+ "_" +:+ pretty i)) in H.
  exact H.
Qed.

(** What one successful turn of the auxiliary loop did. *)
Lemma aux_layer_inv (self : SetCriterion) (logits_per_hoi : option tensor3)
    (targets : list target) (num_boxes : R)
    (st st' : gmap string R * assignment * list (gmap string tensor3))
    (i : nat) (aux : gmap string tensor3) :
  aux_layer accuracy generalized_box_iou box_cxcywh_to_xyxy
    self logits_per_hoi targets num_boxes st (i, aux) = Ok st' →
  ∃ logits bbox giou conf,
    logits_per_hoi = Some logits
    ∧ let a := aux_as_outputs (<[ "logits_per_hoi" := logits ]> aux) in
      let ind := matcher self a targets in
      loss_boxes generalized_box_iou box_cxcywh_to_xyxy
        self a targets ind num_boxes
      = Ok (<[ "loss_giou" := giou ]> (<[ "loss_bbox" := bbox ]> ∅))
      ∧ loss_confidences self a targets ind num_boxes
        = Ok {[ "loss_conf" := conf ]}
      ∧ st' = (suffix_keys i {[ "loss_conf" := conf ]}
               ∪ (suffix_keys i (<[ "loss_giou" := giou ]>
                                   (<[ "loss_bbox" := bbox ]> ∅))
                  ∪ st.1.1),
               ind, st.2 ++ [<[ "logits_per_hoi" := logits ]> aux]).
Proof.
  unfold aux_layer. cbn [fst snd]. intros H.
  apply bind_Ok_inv in H as (logits & Hlog & H).
  destruct logits_per_hoi as [l|]; [|done]. injection Hlog as ->.
  apply bind_Ok_inv in H as (losses & Hl & H). injection H as <-.
  cbn [foldlM] in Hl.
  apply bind_Ok_inv in Hl as (L1 & Hb & Hl).
  apply bind_Ok_inv in Hl as (L2 & Hc & Hl). injection Hl as <-.
  apply bind_Ok_inv in Hb as (db & Hb & HL1). injection HL1 as <-.
  apply bind_Ok_inv in Hc as (dc & Hc & HL2). injection HL2 as <-.
  change (loss_boxes generalized_box_iou box_cxcywh_to_xyxy self
            (aux_as_outputs (<[ "logits_per_hoi" := logits ]> aux)) targets
            (matcher self
               (aux_as_outputs (<[ "logits_per_hoi" := logits ]> aux))
               targets) num_boxes = Ok db) in Hb.
  change (loss_confidences self
            (aux_as_outputs (<[ "logits_per_hoi" := logits ]> aux)) targets
            (matcher self
               (aux_as_outputs (<[ "logits_per_hoi" := logits ]> aux))
               targets) num_boxes = Ok dc) in Hc.
  destruct (loss_boxes_keys _ _ _ _ _ _ Hb) as (bbox & giou & ->).
  destruct (loss_confidences_keys _ _ _ _ _ _ Hc) as (conf & ->).
  exists logits, bbox, giou, conf. cbn zeta. auto.
Qed.

Lemma aux_layer_Ok (self : SetCriterion) (logits : tensor3)
    (targets : list target) (num_boxes : R)
    (st : gmap string R * assignment * list (gmap string tensor3))
    (i : nat) (aux : gmap string tensor3) :
  let a := aux_as_outputs (<[ "logits_per_hoi" := logits ]> aux) in
  let ind := matcher self a targets in
  is_Ok (loss_boxes generalized_box_iou box_cxcywh_to_xyxy
           self a targets ind num_boxes) →
  is_Ok (loss_confidences self a targets ind num_boxes) →
  is_Ok (aux_layer accuracy generalized_box_iou box_cxcywh_to_xyxy
           self (Some logits) targets num_boxes st (i, aux)).
Proof.
  intros a ind [db Hb] [dc Hc]. unfold aux_layer. cbn [fst snd or_raise].
  cbn [mbind result_bind foldlM].
  change (get_loss accuracy generalized_box_iou box_cxcywh_to_xyxy self
            "boxes" ?o targets ?ix num_boxes)
    with (loss_boxes generalized_box_iou box_cxcywh_to_xyxy self
            o targets ix num_boxes).
  change (get_loss accuracy generalized_box_iou box_cxcywh_to_xyxy self
            "confidences" ?o targets ?ix num_boxes)
    with (loss_confidences self o targets ix num_boxes).
  fold a. fold ind. rewrite Hb. cbn [mbind result_bind].
  rewrite Hc. cbn [mbind result_bind]. by eexists.
Qed.

Lemma written_for_layer_inj (n : string) (i j : nat) :
  n ∈ ["loss_bbox"; "loss_giou"; "loss_conf"] →
  written_for_layer (aux_key n i) j → i = j.
Proof.
  intros Hn [H | [H | H]];
    repeat (apply elem_of_cons in Hn as [-> | Hn]);
    try (by apply aux_key_inj_index in H);
    try (by apply elem_of_nil in Hn);
    unfold aux_key in H; cbn in H; discriminate H.
Qed.

Lemma not_written_other_name (n : string) (i j : nat) :
  n ∈ ["loss_ce"; "class_error"; "loss_hum_mask"; "loss_obj_mask";
       "loss_uni_mask"] →
  ¬ written_for_layer (aux_key n i) j.
Proof.
  intros Hn [H | [H | H]];
    repeat (apply elem_of_cons in Hn as [-> | Hn]);
    try (by apply elem_of_nil in Hn);
    unfold aux_key in H; cbn in H; discriminate H.
Qed.

Lemma aux_key_not_primary (n : string) (i : nat) :
  n ∈ primary_keys → aux_key n i ∉ primary_keys.
Proof.
  unfold primary_keys. intros Hn Hk.
  repeat (apply elem_of_cons in Hn as [-> | Hn]);
    try (by apply elem_of_nil in Hn);
    repeat (apply elem_of_cons in Hk as [Hk | Hk]);
    try (by apply elem_of_nil in Hk);
    unfold aux_key in Hk; cbn in Hk; discriminate Hk.
Qed.

(** *** The loop over the auxiliary layers *)

(** An auxiliary mapping after the injection of the primary logits,
    as handed to the matcher and to the losses. *)
Local Abbreviation injected logits aux :=
  (aux_as_outputs (<[ "logits_per_hoi" := logits ]> aux)).

Lemma aux_layer_losses_lookup (i : nat) (L : gmap string R)
    (bbox giou conf : R) :
  let L1 := suffix_keys i {[ "loss_conf" := conf ]}
            ∪ (suffix_keys i (<[ "loss_giou" := giou ]>
                                (<[ "loss_bbox" := bbox ]> ∅))
               ∪ L) in
  L1 !! aux_key "loss_bbox" i = Some bbox
  ∧ L1 !! aux_key "loss_giou" i = Some giou
  ∧ L1 !! aux_key "loss_conf" i = Some conf
  ∧ (∀ k, ¬ written_for_layer k i → L1 !! k = L !! k).
Proof.
  intros L1. subst L1. repeat split.
  - rewrite lookup_union_r by by rewrite lookup_suffix_keys.
    apply lookup_union_Some_l. by rewrite lookup_suffix_keys.
  - rewrite lookup_union_r by by rewrite lookup_suffix_keys.
    apply lookup_union_Some_l. by rewrite lookup_suffix_keys.
  - apply lookup_union_Some_l. by rewrite lookup_suffix_keys.
  - intros k Hk. rewrite !lookup_union_r; [done| |].
    + destruct (suffix_keys i (<[ "loss_giou" := giou ]> _) !! k) as [v|]
        eqn:Hv; [|done].
      apply lookup_suffix_keys_Some in Hv as (name & -> & Hv).
      destruct Hk.
      apply lookup_insert_Some in Hv as [[<- _] | [_ Hv]];
        [right; by left|].
      apply lookup_insert_Some in Hv as [[<- _] | [_ Hv]]; [by left|].
      by rewrite lookup_empty in Hv.
    + destruct (suffix_keys i {[ "loss_conf" := conf ]} !! k) as [v|]
        eqn:Hv; [|done].
      apply lookup_suffix_keys_Some in Hv as (name & -> & Hv).
      destruct Hk.
      apply lookup_singleton_Some in Hv as [<- _]. right; by right.
Qed.

Lemma aux_layers_inv (self : SetCriterion) (logits : tensor3)
    (targets : list target) (num_boxes : R)
    (layers : list (gmap string tensor3)) (n0 : nat)
    (st st' : gmap string R * assignment * list (gmap string tensor3)) :
  foldlM (aux_layer accuracy generalized_box_iou box_cxcywh_to_xyxy
            self (Some logits) targets num_boxes)
         st (imap (λ j, pair (n0 + j)) layers) = Ok st' →
  st'.2 = st.2 ++ ((λ aux, <[ "logits_per_hoi" := logits ]> aux) <$> layers)
  ∧ st'.1.2
    = default st.1.2
        (last ((λ aux, matcher self (injected logits aux) targets)
               <$> layers))
  ∧ (∀ j aux, layers !! j = Some aux →
       ∃ bbox giou conf,
         loss_boxes generalized_box_iou box_cxcywh_to_xyxy self
           (injected logits aux) targets
           (matcher self (injected logits aux) targets) num_boxes
         = Ok (<[ "loss_giou" := giou ]> (<[ "loss_bbox" := bbox ]> ∅))
         ∧ loss_confidences self (injected logits aux) targets
             (matcher self (injected logits aux) targets) num_boxes
           = Ok {[ "loss_conf" := conf ]}
         ∧ st'.1.1 !! aux_key "loss_bbox" (n0 + j) = Some bbox
         ∧ st'.1.1 !! aux_key "loss_giou" (n0 + j) = Some giou
         ∧ st'.1.1 !! aux_key "loss_conf" (n0 + j) = Some conf)
  ∧ (∀ k, (∀ j, j < length layers → ¬ written_for_layer k (n0 + j)) →
          st'.1.1 !! k = st.1.1 !! k).
Proof.
  revert n0 st. induction layers as [|aux layers IH]; intros n0 st H.
  - cbn in H. injection H as <-. rewrite app_nil_r.
    repeat split; done.
  - cbn [imap foldlM] in H.
    apply bind_Ok_inv in H as (st1 & H1 & H).
    rewrite (imap_ext _ (λ j, pair (S n0 + j))) in H
      by (intros; cbn; f_equal; lia).
    apply IH in H as (Hupd & Hind & Hvals & Hother).
    apply aux_layer_inv in H1
      as (logits' & bbox & giou & conf & [= <-] & Hb & Hc & ->).
    cbn [fst snd] in *.
    destruct (aux_layer_losses_lookup (n0 + 0) st.1.1 bbox giou conf)
      as (Lb & Lg & Lc & Lo).
    split; [|split; [|split]].
    + rewrite Hupd, <- app_assoc. reflexivity.
    + rewrite Hind. destruct layers as [|aux' layers]; [reflexivity|].
      cbn [fmap list_fmap]. rewrite last_cons_cons.
      destruct (last _) eqn:E; [reflexivity|].
      apply last_None in E. discriminate E.
    + intros [|j] aux0 Hj.
      * injection Hj as <-. exists bbox, giou, conf.
        assert (∀ n, n ∈ ["loss_bbox"; "loss_giou"; "loss_conf"] →
                     st'.1.1 !! aux_key n (n0 + 0)
                     = (suffix_keys (n0 + 0) {[ "loss_conf" := conf ]}
                        ∪ (suffix_keys (n0 + 0)
                             (<[ "loss_giou" := giou ]>
                                (<[ "loss_bbox" := bbox ]> ∅))
                           ∪ st.1.1)) !! aux_key n (n0 + 0)) as Hkeep.
        { intros n Hn. apply Hother. intros j Hj Hw.
          apply (written_for_layer_inj n _ _ Hn) in Hw. lia. }
        split; [exact Hb|]. split; [exact Hc|].
        rewrite !Hkeep by (repeat constructor).
        split; [exact Lb|]. split; [exact Lg|exact Lc].
      * destruct (Hvals j aux0 Hj)
          as (b' & g' & c' & Hb' & Hc' & L1 & L2 & L3).
        exists b', g', c'.
        replace (n0 + S j) with (S n0 + j) by lia.
        split; [exact Hb'|]. split; [exact Hc'|].
        split; [exact L1|]. split; [exact L2|exact L3].
    + intros k Hk. rewrite Hother.
      * apply Lo. apply (Hk 0). cbn. lia.
      * intros j Hj. replace (S n0 + j) with (n0 + S j) by lia.
        apply Hk. cbn. lia.
Qed.

Lemma aux_layers_Ok (self : SetCriterion) (logits : tensor3)
    (targets : list target) (num_boxes : R)
    (layers : list (gmap string tensor3)) (n0 : nat)
    (st : gmap string R * assignment * list (gmap string tensor3)) :
  (∀ j aux, layers !! j = Some aux →
     is_Ok (loss_boxes generalized_box_iou box_cxcywh_to_xyxy self
              (injected logits aux) targets
              (matcher self (injected logits aux) targets) num_boxes)
     ∧ is_Ok (loss_confidences self (injected logits aux) targets
                (matcher self (injected logits aux) targets) num_boxes)) →
  is_Ok (foldlM (aux_layer accuracy generalized_box_iou box_cxcywh_to_xyxy
                   self (Some logits) targets num_boxes)
                st (imap (λ j, pair (n0 + j)) layers)).
Proof.
  revert n0 st. induction layers as [|aux layers IH]; intros n0 st H.
  - by eexists.
  - cbn [imap foldlM].
    destruct (H 0 aux eq_refl) as [Hb Hc].
    destruct (aux_layer_Ok self logits targets num_boxes st (n0 + 0) aux
                Hb Hc) as [st1 ->].
    cbn [mbind result_bind].
    rewrite (imap_ext _ (λ j, pair (S n0 + j)))
      by (intros; cbn; f_equal; lia).
    apply IH. intros j aux' Hj. apply (H (S j) aux' Hj).
Qed.

(** *** The orchestrator *)

(** The loop over the enabled losses (lines 300-302). *)
Local Abbreviation primary_losses self outputs targets indices num_boxes :=
  (foldlM (λ losses loss,
             l_dict ← get_loss accuracy generalized_box_iou
                        box_cxcywh_to_xyxy self loss outputs targets
                        indices num_boxes;
             Ok (l_dict ∪ losses))).

Lemma primary_losses_keys (self : SetCriterion)
    (outputs : prediction_output) (targets : list target)
    (indices : assignment) (num_boxes : R) (names : list string)
    (acc L0 : gmap string R) (k : string) :
  primary_losses self outputs targets indices num_boxes acc names = Ok L0 →
  (∀ k, is_Some (acc !! k) → k ∈ primary_keys) →
  is_Some (L0 !! k) → k ∈ primary_keys.
Proof.
  revert acc. induction names as [|name names IH]; intros acc H Hacc.
  - injection H as <-. apply Hacc.
  - cbn [foldlM] in H. apply bind_Ok_inv in H as (acc' & H1 & H).
    apply bind_Ok_inv in H1 as (d & Hd & [= <-]).
    apply (IH _ H). intros k' [v Hk'].
    apply lookup_union_Some_raw in Hk' as [Hk' | [_ Hk']].
    + eapply get_loss_keys; eauto.
    + apply Hacc. eauto.
Qed.

Lemma imap_pair_offset {A} (l : list A) :
  imap pair l = imap (λ j, pair (0 + j)) l.
Proof. by apply imap_ext. Qed.

(** What a successful call went through. *)
Lemma forward_inv (self : SetCriterion) (dist : dist_context)
    (outputs : prediction_output) (targets : list target)
    (L : gmap string R) (ind : assignment) (o' : prediction_output) :
  forward accuracy generalized_box_iou box_cxcywh_to_xyxy
    self dist outputs targets = Ok (L, ind, o') →
  ∃ L0,
    primary_losses self outputs targets (matcher self outputs targets)
      (normalizer dist targets) ∅ (losses self) = Ok L0
    ∧ match aux_outputs outputs with
      | None => L = L0 ∧ ind = matcher self outputs targets ∧ o' = outputs
      | Some layers =>
          ∃ st',
            foldlM (aux_layer accuracy generalized_box_iou
                      box_cxcywh_to_xyxy self
                      (tensors outputs !! "logits_per_hoi") targets
                      (normalizer dist targets))
                   (L0, matcher self outputs targets, [])
                   (imap (λ j, pair (0 + j)) layers) = Ok st'
            ∧ L = st'.1.1 ∧ ind = st'.1.2
            ∧ o' = {| tensors := tensors outputs;
                      aux_outputs := Some st'.2 |}
      end.
Proof.
  unfold forward. intros H.
  apply bind_Ok_inv in H as (? & _ & H).
  apply bind_Ok_inv in H as (L0 & HL0 & H).
  exists L0. split; [exact HL0|].
  destruct (aux_outputs outputs) as [layers|].
  - apply bind_Ok_inv in H as (st' & Hst & [= <- <- <-]).
    exists st'. rewrite <- imap_pair_offset. auto.
  - by injection H as <- <- <-.
Qed.

(** The assignment a successful call returns: the one of the last
    auxiliary layer whenever there is one. *)
Lemma forward_returned_indices (self : SetCriterion) (dist : dist_context)
    (outputs : prediction_output) (targets : list target)
    (layers : list (gmap string tensor3)) (logits : tensor3)
    (L : gmap string R) (ind : assignment) (o' : prediction_output) :
  aux_outputs outputs = Some layers →
  tensors outputs !! "logits_per_hoi" = Some logits →
  forward accuracy generalized_box_iou box_cxcywh_to_xyxy
    self dist outputs targets = Ok (L, ind, o') →
  ind = default (matcher self outputs targets)
          (last ((λ aux, matcher self (injected logits aux) targets)
                 <$> layers)).
Proof.
  intros Haux Hlog H. apply forward_inv in H as (L0 & _ & H).
  rewrite Haux, Hlog in H. destruct H as (st' & Hst & _ & -> & _).
  apply aux_layers_inv in Hst as (_ & Hind & _). exact Hind.
Qed.

(** The losses read the tensor entries of the mapping only. *)
Lemma get_loss_tensors (self : SetCriterion) (loss : string)
    (o1 o2 : prediction_output) (targets : list target)
    (indices : assignment) (num_boxes : R) :
  tensors o1 = tensors o2 →
  get_loss accuracy generalized_box_iou box_cxcywh_to_xyxy
    self loss o1 targets indices num_boxes
  = get_loss accuracy generalized_box_iou box_cxcywh_to_xyxy
      self loss o2 targets indices num_boxes.
Proof.
  intros H.
  unfold get_loss, loss_labels, loss_boxes, loss_confidences, loss_masks.
  by rewrite H.
Qed.

Lemma primary_losses_tensors (self : SetCriterion)
    (o1 o2 : prediction_output) (targets : list target)
    (indices : assignment) (num_boxes : R) (names : list string)
    (acc : gmap string R) :
  tensors o1 = tensors o2 →
  primary_losses self o1 targets indices num_boxes acc names
  = primary_losses self o2 targets indices num_boxes acc names.
Proof.
  intros H. revert acc. induction names as [|name names IH]; intros acc;
    [done|].
  cbn [foldlM]. rewrite (get_loss_tensors self name o1 o2) by done.
  destruct (get_loss _ _ _ self name o2 targets indices num_boxes)
    as [d|e]; cbn; [|done].
  apply IH.
Qed.

(** Updating an already updated auxiliary mapping changes nothing. *)
Lemma aux_layers_updated (self : SetCriterion) (logits : tensor3)
    (targets : list target) (num_boxes : R)
    (layers : list (gmap string tensor3)) (n0 : nat)
    (st : gmap string R * assignment * list (gmap string tensor3)) :
  foldlM (aux_layer accuracy generalized_box_iou box_cxcywh_to_xyxy
            self (Some logits) targets num_boxes)
         st
         (imap (λ j, pair (n0 + j))
               ((λ aux, <[ "logits_per_hoi" := logits ]> aux) <$> layers))
  = foldlM (aux_layer accuracy generalized_box_iou box_cxcywh_to_xyxy
              self (Some logits) targets num_boxes)
           st (imap (λ j, pair (n0 + j)) layers).
Proof.
  revert n0 st. induction layers as [|aux layers IH]; intros n0 st; [done|].
  cbn [fmap list_fmap imap foldlM].
  assert (aux_layer accuracy generalized_box_iou box_cxcywh_to_xyxy
            self (Some logits) targets num_boxes st
            (n0 + 0, <[ "logits_per_hoi" := logits ]> aux)
          = aux_layer accuracy generalized_box_iou box_cxcywh_to_xyxy
              self (Some logits) targets num_boxes st (n0 + 0, aux)) as ->.
  { unfold aux_layer. cbn [fst snd or_raise mbind result_bind].
    by rewrite insert_insert_eq. }
  destruct (aux_layer _ _ _ self (Some logits) targets num_boxes st
              (n0 + 0, aux)) as [st1|e]; cbn [mbind result_bind]; [|done].
  rewrite (imap_ext _ (λ j, pair (S n0 + j)) layers)
    by (intros; cbn; f_equal; lia).
  rewrite (imap_ext _ (λ j, pair (S n0 + j)) (_ <$> layers))
    by (intros; cbn; f_equal; lia).
  apply IH.
Qed.

(** C4 (amended): a successful call leaves every tensor entry of the
    outputs mapping as it was and changes the mapping in one way
    only: each auxiliary-layer entry has ["logits_per_hoi"] set to
    the primary logits (nothing changes without auxiliary layers).
    Calling again on the mapping so updated returns the same loss
    map and assignment and leaves the mapping as it is, provided the
    matcher's answer for the top-level mapping does not depend on
    that update of its auxiliary entries. *)
Theorem forward_outputs_frame (self : SetCriterion) (dist : dist_context)
    (outputs : prediction_output) (targets : list target)
    (L : gmap string R) (ind : assignment) (o' : prediction_output) :
  forward accuracy generalized_box_iou box_cxcywh_to_xyxy
    self dist outputs targets = Ok (L, ind, o') →
  tensors o' = tensors outputs
  ∧ (aux_outputs outputs = None → o' = outputs)
  ∧ (aux_outputs outputs = Some [] → o' = outputs)
  ∧ (∀ layers, aux_outputs outputs = Some layers → layers ≠ [] →
       ∃ logits,
         tensors outputs !! "logits_per_hoi" = Some logits
         ∧ aux_outputs o'
           = Some ((λ aux, <[ "logits_per_hoi" := logits ]> aux)
                   <$> layers))
  ∧ ((∀ layers logits,
        aux_outputs outputs = Some layers →
        tensors outputs !! "logits_per_hoi" = Some logits →
        matcher self
          {| tensors := tensors outputs;
             aux_outputs :=
               Some ((λ aux, <[ "logits_per_hoi" := logits ]> aux)
                     <$> layers) |}
          targets
        = matcher self outputs targets) →
     forward accuracy generalized_box_iou box_cxcywh_to_xyxy
       self dist o' targets = Ok (L, ind, o')).
Proof.
  intros H. pose proof H as Hfwd.
  apply forward_inv in H as (L0 & HL0 & H).
  destruct outputs as [ts aux]. cbn [tensors aux_outputs] in *.
  destruct aux as [layers|].
  - destruct H as (st' & Hst & -> & -> & ->).
    destruct layers as [|aux layers].
    + cbn in Hst. injection Hst as <-. cbn [fst snd tensors].
      split; [done|]. split; [done|]. split; [done|].
      split; [by intros layers [= <-]|]. intros _. exact Hfwd.
    + destruct (ts !! "logits_per_hoi") as [logits|] eqn:Hlog;
        [|by cbn in Hst].
      pose proof Hst as Hst0.
      apply aux_layers_inv in Hst as (Hupd & _). cbn [snd app] in Hupd.
      cbn [tensors]. split; [done|]. split; [done|]. split; [done|].
      split.
      { intros layers' [= <-] _. exists logits. by rewrite Hupd. }
      intros Hmatcher. specialize (Hmatcher _ logits eq_refl eq_refl).
      unfold forward in Hfwd |- *. cbn [tensors aux_outputs] in Hfwd |- *.
      rewrite Hupd, Hmatcher, Hlog.
      apply bind_Ok_inv in Hfwd as (u & Hu & _). rewrite Hu.
      cbn [mbind result_bind].
      rewrite (primary_losses_tensors self _
                 {| tensors := ts; aux_outputs := Some (aux :: layers) |})
        by done.
      rewrite HL0. cbn [mbind result_bind].
      rewrite imap_pair_offset, aux_layers_updated, Hst0.
      cbn [mbind result_bind]. by rewrite Hupd.
  - destruct H as (-> & -> & ->). cbn [tensors].
    split; [done|]. split; [done|]. split; [done|].
    split; [done|]. intros _. exact Hfwd.
Qed.

Lemma written_by_some_layer_dec (k : string) (n : nat) :
  (∃ j, j < n ∧ written_for_layer k j)
  ∨ (∀ j, j < n → ¬ written_for_layer k j).
Proof.
  induction n as [|n [(j & Hj & Hw) | IH]].
  - right. intros j Hj. lia.
  - left. exists j. split; [lia|done].
  - destruct (decide (k = aux_key "loss_bbox" n)) as [Hb|Hb];
      [left; exists n; split; [lia|by left]|].
    destruct (decide (k = aux_key "loss_giou" n)) as [Hg|Hg];
      [left; exists n; split; [lia|right; by left]|].
    destruct (decide (k = aux_key "loss_conf" n)) as [Hc|Hc];
      [left; exists n; split; [lia|right; by right]|].
    right. intros j Hj. destruct (decide (j = n)) as [->|Hne].
    + intros [? | [? | ?]]; done.
    + apply IH. lia.
Qed.

(** C6: when the outputs carry [n] auxiliary layers (and the primary
    losses and each layer's two losses can be computed) the call
    returns, and for every layer [i < n] the loss map holds, under
    ["loss_bbox_i"], ["loss_giou_i"] and ["loss_conf_i"], the box and
    confidence losses of that layer computed against the assignment
    the matcher gives for the layer after the injection of the
    primary logits.  These are the only keys added to those of the
    primary losses: the map has no ["loss_ce_i"], no
    ["class_error_i"] and no suffixed mask-loss key. *)
Theorem forward_auxiliary_losses (self : SetCriterion)
    (dist : dist_context) (outputs : prediction_output)
    (targets : list target) (layers : list (gmap string tensor3))
    (logits : tensor3) (L0 : gmap string R) :
  aux_outputs outputs = Some layers →
  tensors outputs !! "logits_per_hoi" = Some logits →
  primary_losses self outputs targets (matcher self outputs targets)
    (normalizer dist targets) ∅ (losses self) = Ok L0 →
  (∀ j aux, layers !! j = Some aux →
     is_Ok (loss_boxes generalized_box_iou box_cxcywh_to_xyxy self
              (injected logits aux) targets
              (matcher self (injected logits aux) targets)
              (normalizer dist targets))
     ∧ is_Ok (loss_confidences self (injected logits aux) targets
                (matcher self (injected logits aux) targets)
                (normalizer dist targets))) →
  ∃ L ind o',
    forward accuracy generalized_box_iou box_cxcywh_to_xyxy
      self dist outputs targets = Ok (L, ind, o')
    ∧ (∀ i aux, layers !! i = Some aux →
         ∃ bbox giou conf,
           loss_boxes generalized_box_iou box_cxcywh_to_xyxy self
             (injected logits aux) targets
             (matcher self (injected logits aux) targets)
             (normalizer dist targets)
           = Ok (<[ "loss_giou" := giou ]> (<[ "loss_bbox" := bbox ]> ∅))
           ∧ loss_confidences self (injected logits aux) targets
               (matcher self (injected logits aux) targets)
               (normalizer dist targets)
             = Ok {[ "loss_conf" := conf ]}
           ∧ L !! aux_key "loss_bbox" i = Some bbox
           ∧ L !! aux_key "loss_giou" i = Some giou
           ∧ L !! aux_key "loss_conf" i = Some conf)
    ∧ (∀ k, is_Some (L !! k)
            ↔ is_Some (L0 !! k)
              ∨ ∃ i, i < length layers ∧ written_for_layer k i)
    ∧ (∀ k, is_Some (L0 !! k) → k ∈ primary_keys)
    ∧ (∀ i name,
         name ∈ ["loss_ce"; "class_error"; "loss_hum_mask";
                 "loss_obj_mask"; "loss_uni_mask"] →
         L !! aux_key name i = None).
Proof.
  intros Haux Hlog HL0 Hlayers.
  destruct (aux_layers_Ok self logits targets (normalizer dist targets)
              layers 0 (L0, matcher self outputs targets, []) Hlayers)
    as [st' Hst].
  assert (forward accuracy generalized_box_iou box_cxcywh_to_xyxy
            self dist outputs targets
          = Ok (st'.1.1, st'.1.2,
                {| tensors := tensors outputs;
                   aux_outputs := Some st'.2 |})) as Hfwd.
  { unfold forward. rewrite decide_False.
    2:{ intros Hsize%map_size_empty_iff. rewrite Hsize in Hlog.
        by rewrite lookup_empty in Hlog. }
    cbn [mbind result_bind]. rewrite HL0. cbn [mbind result_bind].
    rewrite Haux, Hlog, imap_pair_offset, Hst. reflexivity. }
  exists st'.1.1, st'.1.2,
    {| tensors := tensors outputs; aux_outputs := Some st'.2 |}.
  split; [exact Hfwd|].
  apply aux_layers_inv in Hst as (_ & _ & Hvals & Hother).
  cbn [fst snd] in Hvals, Hother.
  assert (∀ k, is_Some (L0 !! k) → k ∈ primary_keys) as Hprim.
  { intros k. eapply primary_losses_keys; [exact HL0|].
    intros k' Hk'. rewrite lookup_empty in Hk'. by destruct Hk'. }
  assert (∀ k i, i < length layers → written_for_layer k i →
                 is_Some (st'.1.1 !! k)) as Hwritten.
  { intros k i Hi Hw.
    destruct (lookup_lt_is_Some_2 layers i Hi) as [aux Hauxi].
    destruct (Hvals i aux Hauxi) as (b & g & c & _ & _ & Lb & Lg & Lc).
    cbn in Lb, Lg, Lc. destruct Hw as [-> | [-> | ->]]; eauto. }
  split; [exact Hvals|]. split; [|split; [exact Hprim|]].
  - intros k. split.
    + intros Hk.
      destruct (written_by_some_layer_dec k (length layers)) as [Hw|Hw];
        [by right|].
      left. rewrite <- (Hother k); [done|]. intros j Hj. by apply Hw.
    + intros [Hk | (i & Hi & Hw)]; [|by eapply Hwritten].
      destruct (written_by_some_layer_dec k (length layers))
        as [(i & Hi & Hw)|Hw]; [by eapply Hwritten|].
      rewrite (Hother k); [done|]. intros j Hj. by apply Hw.
  - intros i name Hname. rewrite Hother.
    + destruct (L0 !! aux_key name i) as [v|] eqn:Hv; [|done].
      exfalso. apply (aux_key_not_primary name i).
      * unfold primary_keys.
        repeat (apply elem_of_cons in Hname as [-> | Hname]);
          try (by apply elem_of_nil in Hname);
          apply list_elem_of_In; cbn; auto 10.
      * apply Hprim. eauto.
    + intros j _. by apply not_written_other_name.
Qed.

(** ** Further properties of the orchestrator and of the losses *)

Lemma get_loss_Ok_name (self : SetCriterion) (loss : string)
    (outputs : prediction_output) (targets : list target)
    (indices : assignment) (num_boxes : R) :
  is_Ok (get_loss accuracy generalized_box_iou box_cxcywh_to_xyxy
           self loss outputs targets indices num_boxes) →
  loss ∈ ["labels"; "boxes"; "confidences"; "masks"].
Proof.
  unfold get_loss. intros [d H].
  repeat case_decide; subst; try done;
    apply list_elem_of_In; cbn; auto 10.
Qed.

Lemma primary_losses_each_Ok (self : SetCriterion)
    (outputs : prediction_output) (targets : list target)
    (indices : assignment) (num_boxes : R) (names : list string)
    (acc L0 : gmap string R) (name : string) :
  primary_losses self outputs targets indices num_boxes acc names = Ok L0 →
  name ∈ names →
  is_Ok (get_loss accuracy generalized_box_iou box_cxcywh_to_xyxy
           self name outputs targets indices num_boxes).
Proof.
  revert acc. induction names as [|n names IH]; intros acc H Hin.
  - by apply elem_of_nil in Hin.
  - cbn [foldlM] in H. apply bind_Ok_inv in H as (acc' & H1 & H).
    apply bind_Ok_inv in H1 as (d & Hd & _).
    apply elem_of_cons in Hin as [-> | Hin]; [by exists d|].
    by apply (IH acc').
Qed.

(** X1: a loss name outside the four the dispatcher knows makes the
    whole call fail: [forward] never returns when [self.losses]
    contains such a name. *)
Theorem forward_unknown_loss_raises (self : SetCriterion)
    (dist : dist_context) (outputs : prediction_output)
    (targets : list target) (name : string) :
  name ∈ losses self →
  name ∉ ["labels"; "boxes"; "confidences"; "masks"] →
  ¬ is_Ok (forward accuracy generalized_box_iou box_cxcywh_to_xyxy
             self dist outputs targets).
Proof.
  intros Hin Hname [[[L ind] o'] H].
  apply forward_inv in H as (L0 & HL0 & _).
  apply Hname. eapply get_loss_Ok_name.
  eapply primary_losses_each_Ok; eauto.
Qed.

(** X2: auxiliary layers need the primary logits.  When ["aux_outputs"]
    holds at least one layer and the outputs have no ["logits_per_hoi"]
    entry the call never returns; once the primary losses are
    computed, the exception is the [KeyError] of line 306. *)
Theorem forward_aux_without_logits_raises (self : SetCriterion)
    (dist : dist_context) (outputs : prediction_output)
    (targets : list target) (layer : gmap string tensor3)
    (layers : list (gmap string tensor3)) :
  aux_outputs outputs = Some (layer :: layers) →
  tensors outputs !! "logits_per_hoi" = None →
  ¬ is_Ok (forward accuracy generalized_box_iou box_cxcywh_to_xyxy
             self dist outputs targets)
  ∧ (∀ L0, size (tensors outputs) ≠ 0 →
       primary_losses self outputs targets (matcher self outputs targets)
         (normalizer dist targets) ∅ (losses self) = Ok L0 →
       forward accuracy generalized_box_iou box_cxcywh_to_xyxy
         self dist outputs targets = Raise KeyError).
Proof.
  intros Haux Hlog. split.
  - intros [[[L ind] o'] H]. apply forward_inv in H as (L0 & _ & H).
    rewrite Haux, Hlog in H. destruct H as (st' & Hst & _). done.
  - intros L0 Hsize HL0. unfold forward.
    rewrite decide_False by done. cbn [mbind result_bind].
    rewrite HL0. cbn [mbind result_bind]. by rewrite Haux, Hlog.
Qed.

Lemma for_matched_nothing {A} (body : target → nat → result A)
    (targets : list target) (indices : assignment) :
  Forall (λ p, p.2 = []) indices →
  for_matched body targets indices = Ok [].
Proof.
  intros H. apply for_matched_Ok. unfold matched_interactions.
  assert (concat ((λ ti : target * (list nat * list nat),
                     (λ i, (ti.1, i)) <$> ti.2.2)
                  <$> zip targets indices) = []) as ->; [|constructor].
  revert targets. induction H as [|[src tgt] indices Hp _ IH];
    intros [|t targets]; try done.
  cbn in Hp. subst tgt. cbn. apply IH.
Qed.

Lemma src_permutation_idx_nothing (indices : assignment) :
  indices ≠ [] → Forall (λ p, p.1 = []) indices →
  _get_src_permutation_idx indices = Ok ([], []).
Proof.
  intros Hne Hall.
  assert (sum_list ((λ p, length p.1) <$> indices) = 0) as H0.
  { clear Hne. induction Hall as [|[src tgt] l Hp _ IH]; [done|].
    cbn in *. subst src. exact IH. }
  pose proof (length_permutation_batch_idx 0 indices) as Hb.
  pose proof (length_permutation_src_idx indices) as Hs.
  rewrite H0 in Hb, Hs. cbn in Hb.
  apply nil_length_inv in Hb, Hs.
  unfold _get_src_permutation_idx, Torch.cat.
  destruct indices as [|p indices]; [done|].
  cbn [mbind result_bind]. by rewrite Hb, Hs.
Qed.

Lemma loss_boxes_nothing_matched (self : SetCriterion)
    (outputs : prediction_output) (targets : list target)
    (indices : assignment) (num_boxes : R) :
  Forall (λ p, p.2 = []) indices →
  ¬ is_Ok (loss_boxes generalized_box_iou box_cxcywh_to_xyxy
             self outputs targets indices num_boxes).
Proof.
  intros Hnone [d H]. unfold loss_boxes in H.
  apply bind_Ok_inv in H as (? & _ & H).
  apply bind_Ok_inv in H as (pred_boxes & _ & H).
  apply bind_Ok_inv in H as (idx & _ & H).
  apply bind_Ok_inv in H as (src_boxes & _ & H).
  rewrite for_matched_nothing in H by done. done.
Qed.

(** X3: the box loss cannot be computed for a batch in which no
    ground-truth interaction is matched (every per-image target index
    sequence empty, as for a batch without annotations): the list of
    target boxes is then empty and [torch.stack] refuses it, so
    [loss_boxes] never returns; with ["pred_boxes"] present and a
    non-empty Assignment of empty pairs the exception is that
    [RuntimeError]. *)
Theorem loss_boxes_nothing_matched_raises (self : SetCriterion)
    (outputs : prediction_output) (targets : list target)
    (indices : assignment) (num_boxes : R) :
  Forall (λ p, p.2 = []) indices →
  ¬ is_Ok (loss_boxes generalized_box_iou box_cxcywh_to_xyxy
             self outputs targets indices num_boxes)
  ∧ (is_Some (tensors outputs !! "pred_boxes") → indices ≠ [] →
     Forall (λ p, p.1 = []) indices →
     loss_boxes generalized_box_iou box_cxcywh_to_xyxy
       self outputs targets indices num_boxes = Raise RuntimeError).
Proof.
  intros Hnone. split; [by apply loss_boxes_nothing_matched|].
  intros [pred_boxes Hpred] Hne Hsrc. unfold loss_boxes.
  rewrite Hpred. rewrite bool_decide_eq_true_2 by eauto.
  cbn [assert or_raise mbind result_bind].
  rewrite src_permutation_idx_nothing by done. cbn.
  by rewrite for_matched_nothing.
Qed.

(** X4: the same holds for the region-mask loss: without any matched
    interaction [loss_masks] never returns. *)
Theorem loss_masks_nothing_matched_raises (self : SetCriterion)
    (outputs : prediction_output) (targets : list target)
    (indices : assignment) (num_boxes : R) :
  Forall (λ p, p.2 = []) indices →
  ¬ is_Ok (loss_masks self outputs targets indices num_boxes).
Proof.
  intros Hnone [d H]. unfold loss_masks in H.
  apply bind_Ok_inv in H as (? & _ & H).
  apply bind_Ok_inv in H as (idx & _ & H).
  apply bind_Ok_inv in H as (hum & _ & H).
  apply bind_Ok_inv in H as (pred_hum & _ & H).
  apply bind_Ok_inv in H as (obj & _ & H).
  apply bind_Ok_inv in H as (pred_obj & _ & H).
  apply bind_Ok_inv in H as (uni & _ & H).
  apply bind_Ok_inv in H as (pred_uni & _ & H).
  unfold collect_target_masks in H.
  rewrite for_matched_nothing in H by done. done.
Qed.

(** X5: hence a criterion with the ["boxes"] loss enabled fails on
    every batch for which the matcher matches nothing: [forward] never
    returns a loss map for it. *)
Theorem forward_nothing_matched_raises (self : SetCriterion)
    (dist : dist_context) (outputs : prediction_output)
    (targets : list target) :
  "boxes" ∈ losses self →
  Forall (λ p, p.2 = []) (matcher self outputs targets) →
  ¬ is_Ok (forward accuracy generalized_box_iou box_cxcywh_to_xyxy
             self dist outputs targets).
Proof.
  intros Hin Hnone [[[L ind] o'] H].
  apply forward_inv in H as (L0 & HL0 & _).
  pose proof (primary_losses_each_Ok _ _ _ _ _ _ _ _ "boxes" HL0 Hin) as Hb.
  change (is_Ok (loss_boxes generalized_box_iou box_cxcywh_to_xyxy self
                   outputs targets (matcher self outputs targets)
                   (normalizer dist targets))) in Hb.
  by eapply loss_boxes_nothing_matched.
Qed.

(** *** More on the masked multi-label cross-entropy *)

Lemma sumR_exp_nonneg (x : list R) : (0 <= Torch.sumR (exp <$> x))%R.
Proof.
  induction x as [|a x IH]; [unfold Torch.sumR; cbn; lra|].
  rewrite fmap_cons, sumR_cons. pose proof (exp_pos a). lra.
Qed.

Lemma sumR_exp_lower (x : list R) (t : nat) :
  t < length x → (exp (nth t x 0) <= Torch.sumR (exp <$> x))%R.
Proof.
  revert t. induction x as [|a x IH]; intros t Ht; cbn in Ht; [lia|].
  rewrite fmap_cons, sumR_cons. destruct t as [|t]; cbn [nth].
  - pose proof (sumR_exp_nonneg x). lra.
  - specialize (IH t ltac:(lia)). pose proof (exp_pos a). lra.
Qed.

(** The negative log-likelihood of a class of the row is never
    negative. *)
Lemma nll_nonneg (x : list R) (t : nat) :
  t < length x → (0 <= Torch.nll x t)%R.
Proof.
  intros Ht. unfold Torch.nll.
  pose proof (sumR_exp_lower x t Ht) as Hle.
  pose proof (exp_pos (nth t x 0%R)) as Hpos.
  destruct (Rle_lt_or_eq_dec _ _ Hle) as [Hlt | Heq].
  - pose proof (ln_increasing _ _ Hpos Hlt) as H. rewrite ln_exp in H. lra.
  - rewrite <- Heq, ln_exp. lra.
Qed.

Lemma sumR_nonneg (l : list R) :
  Forall (λ a, 0 <= a)%R l → (0 <= Torch.sumR l)%R.
Proof.
  induction 1 as [|a l Ha _ IH]; [unfold Torch.sumR; cbn; lra|].
  rewrite sumR_cons. lra.
Qed.

Lemma select_length {A B} (mask : list bool) (x : list A) (y : list B) :
  length x = length y →
  length (Torch.select mask x) = length (Torch.select mask y).
Proof.
  revert x y. induction mask as [|b mask IH]; intros [|a x] [|c y] Hlen;
    try done.
  cbn in Hlen. injection Hlen as Hlen. cbn.
  destruct b; cbn; by rewrite (IH x y Hlen).
Qed.

Lemma few_positives_term_nonneg (x : list R) (t : list Z) :
  length x = length t → t ≠ [] → (0 <= few_positives_term (x, t))%R.
Proof.
  intros Hlen Hne. unfold few_positives_term. cbn [fst snd].
  apply nll_nonneg. rewrite Hlen. by apply argmax_row_bound.
Qed.

Lemma many_positives_term_nonneg (x : list R) (t : list Z) :
  length x = length t → (1 < Torch.sumZ t)%Z →
  (0 <= many_positives_term (x, t))%R.
Proof.
  intros Hlen Hcnt. unfold many_positives_term. cbn [fst snd].
  apply Rle_mult_inv_pos; [|apply IZR_lt; lia].
  apply sumR_nonneg, Forall_fmap.
  eapply Forall_impl; [apply nonzero_entries_bound|].
  intros j Hj. cbn. apply nll_nonneg.
  rewrite (select_length _ x t Hlen). apply argmax_row_bound.
  eapply select_lookup_true; [by apply keep_mask_lookup|done].
Qed.

(** X6: on matrices of matching shape (as many logit rows as target
    rows, at least one row, rows of one width, at least one column) the
    function never raises, whatever integers the target holds, and the
    loss it returns is not negative. *)
Theorem masked_out_cross_entropy_nonneg (src_logits : list (list R))
    (target_classes : list (list Z)) :
  same_shape src_logits target_classes →
  src_logits ≠ [] →
  ∃ loss : R,
    masked_out_cross_entropy src_logits target_classes = Ok loss
    ∧ (0 <= loss)%R.
Proof.
  intros Hshape Hne. unfold masked_out_cross_entropy.
  rewrite masked_out_loss_sum_filter by done.
  eexists. split; [reflexivity|].
  assert (Forall (λ xt : list R * list Z,
                    length xt.1 = length xt.2 ∧ xt.2 ≠ [])
                 (zip src_logits target_classes)) as Hrows.
  { clear Hne. induction Hshape as [|x t xs ts Hxt _ IH]; cbn;
      by constructor. }
  apply Rle_mult_inv_pos.
  - apply Rplus_le_le_0_compat; apply sumR_nonneg, Forall_fmap,
      Forall_forall; intros [x t] [Hcnt Hin]%list_elem_of_filter;
      rewrite Forall_forall in Hrows; destruct (Hrows _ Hin) as [Hlen Ht];
      cbn [fst snd] in *.
    + by apply few_positives_term_nonneg.
    + by apply many_positives_term_nonneg.
  - apply lt_0_INR. destruct src_logits; [done|cbn; lia].
Qed.

Lemma mapM_argmax_empty_row (rows : list (list Z)) :
  [] ∈ rows → mapM Torch.argmax rows = Raise IndexError.
Proof.
  induction rows as [|t rows IH]; intros Hin.
  - by apply elem_of_nil in Hin.
  - apply elem_of_cons in Hin as [<- | Hin]; [done|].
    cbn. destruct t as [|z t]; [done|]. cbn. by rewrite IH.
Qed.

Lemma select_elem_of {A} (f : A → bool) (l : list A) (a : A) :
  a ∈ l → f a = true → a ∈ Torch.select (f <$> l) l.
Proof.
  induction l as [|b l IH]; intros Hin Hf.
  - by apply elem_of_nil in Hin.
  - cbn. apply elem_of_cons in Hin as [<- | Hin].
    + rewrite Hf. by left.
    + destruct (f b); [right|]; by apply IH.
Qed.

(** X7: a target matrix with a row of no column (a matrix with rows
    but zero columns) makes the function raise [IndexError]: the row
    counts fewer than two positives and [argmax] refuses it. *)
Theorem masked_out_cross_entropy_no_column (src_logits : list (list R))
    (target_classes : list (list Z)) :
  [] ∈ target_classes →
  masked_out_cross_entropy src_logits target_classes = Raise IndexError.
Proof.
  intros Hin. unfold masked_out_cross_entropy, masked_out_loss_sum.
  cbv zeta. rewrite (index_nonzero target_classes)
    by (unfold num_pos; by rewrite !length_fmap).
  cbn [mbind result_bind]. rewrite mapM_argmax_empty_row; [done|].
  unfold num_pos. rewrite <- list_fmap_compose.
  by apply (select_elem_of (λ t, bool_decide (Torch.sumZ t < 2)%Z)).
Qed.

Lemma sumR_Permutation (l k : list R) :
  l ≡ₚ k → Torch.sumR l = Torch.sumR k.
Proof.
  unfold Torch.sumR.
  induction 1 as [|a l k _ IH|a b l|l k m _ IH1 _ IH2]; cbn;
    [reflexivity|by rewrite IH|lra|by rewrite IH1].
Qed.

(** X8: the loss does not depend on the order of the rows: permuting
    the logit rows together with their target rows leaves the result
    unchanged. *)
Theorem masked_out_cross_entropy_row_order (l l' : list (list R * list Z)) :
  l ≡ₚ l' →
  same_shape (l.*1) (l.*2) →
  masked_out_cross_entropy (l.*1) (l.*2)
  = masked_out_cross_entropy (l'.*1) (l'.*2).
Proof.
  intros Hperm Hshape.
  assert (∀ k : list (list R * list Z),
            same_shape (k.*1) (k.*2)
            ↔ Forall (λ xt, length xt.1 = length xt.2 ∧ xt.2 ≠ []) k)
    as Hforall.
  { intros k. unfold same_shape. induction k as [|[x t] k IH]; cbn.
    - split; constructor.
    - split.
      + intros [Hxt Hk]%Forall2_cons. constructor; [done|by apply IH].
      + intros [Hxt Hk]%Forall_cons. constructor; [done|by apply IH]. }
  assert (same_shape (l'.*1) (l'.*2)) as Hshape'.
  { apply Hforall. rewrite <- Hperm. by apply Hforall. }
  unfold masked_out_cross_entropy.
  rewrite !masked_out_loss_sum_filter by done.
  rewrite !zip_fst_snd, !length_fmap. cbn [mbind result_bind].
  rewrite (Permutation_length Hperm).
  do 3 f_equal; apply sumR_Permutation; by rewrite Hperm.
Qed.

Lemma filter_eq_seq (j i n : nat) :
  filter (λ k, k = j) (seq i n)
  = if bool_decide (i ≤ j < i + n) then [j] else [].
Proof.
  revert i. induction n as [|n IH]; intros i.
  - cbn. case_bool_decide; [lia|done].
  - cbn [seq]. rewrite filter_cons, IH. destruct (decide (i = j)) as [->|Hij].
    + rewrite bool_decide_eq_false_2 by lia.
      by rewrite bool_decide_eq_true_2 by lia.
    + repeat case_bool_decide; try done; lia.
Qed.

Lemma filter_all {A} (P : A → Prop) `{∀ a, Decision (P a)} (l : list A) :
  Forall P l → filter P l = l.
Proof.
  induction 1 as [|a l Ha _ IH]; [done|].
  rewrite filter_cons, decide_True by done. by rewrite IH.
Qed.

Lemma positive_columns_all (t : list Z) :
  Forall (λ z, z = 1%Z) t → positive_columns t = seq 0 (length t).
Proof.
  intros Hall. unfold positive_columns. apply filter_all, Forall_forall.
  intros j [_ Hj]%elem_of_seq. cbn in Hj.
  destruct (lookup_lt_is_Some_2 t j Hj) as [z Hz].
  rewrite Forall_forall in Hall. rewrite Hz. f_equal. apply Hall.
  by eapply list_elem_of_lookup_2.
Qed.

Lemma kept_columns_all (t : list Z) (j : nat) :
  Forall (λ z, z = 1%Z) t → j < length t → kept_columns t j = [j].
Proof.
  intros Hall Hj. unfold kept_columns.
  rewrite (filter_ext_Forall _ (λ k, k = j)).
  - rewrite filter_eq_seq. by rewrite bool_decide_eq_true_2 by lia.
  - apply Forall_forall. intros k [_ Hk]%elem_of_seq. cbn in Hk.
    destruct (lookup_lt_is_Some_2 t k Hk) as [z Hz].
    rewrite Forall_forall in Hall.
    rewrite (Hall z (list_elem_of_lookup_2 _ _ _ Hz)) in Hz. rewrite Hz.
    split; [intros [?| ->]; done|by right].
Qed.

Lemma many_positives_term_all (x : list R) (t : list Z) :
  Forall (λ z, z = 1%Z) t → length x = length t →
  many_positives_term (x, t) = 0%R.
Proof.
  intros Hall Hlen.
  rewrite many_positives_term_indicator; [|by eapply Forall_impl; [exact Hall|]; cbn; auto|done].
  unfold multi_positive_row_loss.
  replace (Torch.sumR _) with 0%R; [unfold Rdiv; apply Rmult_0_l|].
  rewrite positive_columns_all by done.
  symmetry. assert (∀ l : list nat, Forall (λ j, j < length t) l →
    Torch.sumR ((λ j, Torch.nll (restrict x (kept_columns t j))
                          (position_within j (kept_columns t j))) <$> l)
    = 0%R) as Hzero.
  { induction 1 as [|j l Hj _ IH]; [done|].
    rewrite fmap_cons, sumR_cons, IH, kept_columns_all by done.
    unfold restrict, position_within, Torch.nll. cbn [fmap list_fmap].
    rewrite filter_cons, decide_False by lia. cbn [filter list_filter length nth].
    replace (Torch.sumR [exp (nth j x 0%R)]) with (exp (nth j x 0%R))
      by (unfold Torch.sumR; cbn; lra).
    rewrite ln_exp. lra. }
  apply Hzero, Forall_forall. intros j [_ Hj]%elem_of_seq. exact Hj.
Qed.

(** X9: a target row all of whose columns are positive (two or more)
    adds nothing to the summed loss: each of its per-positive terms is
    a cross-entropy over the single kept column.  The row still counts
    in the final division by the number of rows. *)
Theorem masked_out_all_positive_row (src1 src2 : list (list R))
    (tgt1 tgt2 : list (list Z)) (x : list R) (t : list Z) :
  same_shape src1 tgt1 → same_shape src2 tgt2 →
  length x = length t → 2 ≤ length t → Forall (λ z, z = 1%Z) t →
  ∃ rest : R,
    masked_out_loss_sum (src1 ++ src2) (tgt1 ++ tgt2) = Ok rest
    ∧ masked_out_loss_sum (src1 ++ x :: src2) (tgt1 ++ t :: tgt2) = Ok rest
    ∧ masked_out_cross_entropy (src1 ++ x :: src2) (tgt1 ++ t :: tgt2)
      = Ok (rest / INR (length (src1 ++ x :: src2)))%R.
Proof.
  intros Hs1 Hs2 Hlen Hwide Hall.
  assert (t ≠ []) as Hne by (destruct t; [cbn in Hwide; lia|done]).
  assert (Torch.sumZ t = Z.of_nat (length t)) as Hsum.
  { rewrite sumZ_positive_columns
      by (eapply Forall_impl; [exact Hall|]; cbn; auto).
    by rewrite positive_columns_all, length_seq. }
  pose proof (Forall2_length _ _ _ Hs1) as Hl1.
  assert (same_shape (src1 ++ src2) (tgt1 ++ tgt2)) as Hs12
    by by apply Forall2_app.
  assert (same_shape (src1 ++ x :: src2) (tgt1 ++ t :: tgt2)) as Hs
    by (apply Forall2_app; [done|by constructor]).
  eexists. split; [by apply masked_out_loss_sum_filter|].
  assert (masked_out_loss_sum (src1 ++ x :: src2) (tgt1 ++ t :: tgt2)
          = Ok (Torch.sumR
                  (few_positives_term
                     <$> filter (λ xt, (Torch.sumZ xt.2 < 2)%Z)
                                (zip (src1 ++ src2) (tgt1 ++ tgt2)))
                + Torch.sumR
                    (many_positives_term
                       <$> filter (λ xt, (1 < Torch.sumZ xt.2)%Z)
                                  (zip (src1 ++ src2) (tgt1 ++ tgt2))))%R)
    as Hsum_with.
  { rewrite masked_out_loss_sum_filter by done. f_equal.
    rewrite !zip_with_app by done. cbn [zip_with].
    rewrite !filter_app, !filter_cons. cbn [fst snd]. rewrite Hsum.
    rewrite decide_False by lia. rewrite decide_True by lia.
    rewrite !fmap_app, !sumR_app. cbn [fmap list_fmap].
    rewrite sumR_cons, many_positives_term_all by done. lra. }
  split; [exact Hsum_with|].
  unfold masked_out_cross_entropy. rewrite Hsum_with. reflexivity.
Qed.

(** *** The target permutation indexer *)

(** X10: for an Assignment with at least one per-image entry,
    [_get_tgt_permutation_idx] returns two parallel index tensors that
    list the matched (image, interaction) coordinates in assignment
    order; when every image matches as many slots as interactions, its
    batch index is the batch index of [_get_src_permutation_idx], so
    the k-th matched prediction and the k-th matched target belong to
    the same image. *)
Theorem tgt_permutation_idx_spec (indices : assignment) :
  indices ≠ [] →
  ∃ batch_idx tgt_idx,
    _get_tgt_permutation_idx indices = Ok (batch_idx, tgt_idx)
    ∧ length batch_idx = length tgt_idx
    ∧ zip batch_idx tgt_idx = matched_target_coordinates indices
    ∧ (Forall (λ p, length p.1 = length p.2) indices →
       ∃ src_idx,
         _get_src_permutation_idx indices = Ok (batch_idx, src_idx)
         ∧ length src_idx = length tgt_idx).
Proof.
  intros Hne.
  exists (concat (imap (λ i p, Torch.full_like p.2 i) indices)),
         (concat ((λ p, p.2) <$> indices)).
  assert (imap (λ i p, Torch.full_like p.2 i) indices
          = imap (λ i p, Torch.full_like p.1 (0 + i)) (prod_swap <$> indices))
    as Hb by (rewrite imap_fmap; apply imap_ext; by intros i [src tgt] _).
  assert ((λ p : list nat * list nat, p.2) <$> indices
          = (λ p, p.1) <$> (prod_swap <$> indices)) as Ht
    by (rewrite <- list_fmap_compose; apply list_fmap_ext;
        by intros i [src tgt] _).
  split; [|split; [|split]].
  - unfold _get_tgt_permutation_idx, Torch.cat.
    destruct indices as [|p indices]; [done|]. reflexivity.
  - rewrite Hb, Ht, length_permutation_batch_idx.
    by rewrite length_permutation_src_idx.
  - rewrite Hb, Ht, zip_permutation_idx. unfold matched_target_coordinates.
    by rewrite imap_fmap.
  - intros Heq. exists (concat ((λ p, p.1) <$> indices)). split.
    + assert (imap (λ i p, Torch.full_like p.1 i) indices
              = imap (λ i (p : list nat * list nat), Torch.full_like p.2 i)
                     indices) as Himap.
      { apply imap_ext. intros i [src tgt] Hi.
        rewrite Forall_forall in Heq.
        specialize (Heq _ (list_elem_of_lookup_2 _ _ _ Hi)). cbn in Heq.
        unfold Torch.full_like. cbn. by rewrite Heq. }
      unfold _get_src_permutation_idx, Torch.cat. rewrite Himap.
      destruct indices as [|p indices]; [done|]. reflexivity.
    + rewrite Ht, !length_permutation_src_idx. f_equal.
      rewrite <- list_fmap_compose. apply list_fmap_ext.
      intros i [src tgt] Hi. rewrite Forall_forall in Heq.
      exact (Heq _ (list_elem_of_lookup_2 _ _ _ Hi)).
Qed.

(** *** The numbering of the classes of a mini-batch *)

Lemma unique_hois_snoc (ids : list nat) (a : nat) :
  unique_hois (ids ++ [a]) = unique_hois_step (unique_hois ids) a.
Proof. unfold unique_hois. by rewrite foldl_app. Qed.

Lemma list_snoc_eq_middle {A} (l pre post : list A) (a x : A) :
  l ++ [a] = pre ++ x :: post →
  (post = [] ∧ pre = l ∧ x = a)
  ∨ ∃ post', post = post' ++ [a] ∧ l = pre ++ x :: post'.
Proof.
  destruct (decide (post = [])) as [->|Hne].
  - intros H. apply app_inj_tail in H as [-> ->]. by left.
  - destruct (exists_last Hne) as (post' & b & ->).
    intros H. right. exists post'.
    replace (pre ++ x :: post' ++ [b]) with ((pre ++ x :: post') ++ [b]) in H
      by (by rewrite <- app_assoc).
    apply app_inj_tail in H as [-> ->]. done.
Qed.

Lemma unique_hois_invariant (ids : list nat) :
  (unique_hois ids).2 = size (list_to_set ids : gset nat)
  ∧ (∀ id k,
       (unique_hois ids).1 !! id = Some k
       ↔ ∃ pre post, ids = pre ++ id :: post ∧ (id ∉ pre)
                     ∧ k = size (list_to_set pre : gset nat))
  ∧ (∀ id k, (unique_hois ids).1 !! id = Some k → k < (unique_hois ids).2)
  ∧ (∀ id id' k, (unique_hois ids).1 !! id = Some k →
                 (unique_hois ids).1 !! id' = Some k → id = id').
Proof.
  induction ids as [|a ids (Hcnt & Hchar & Hlt & Hinj)] using rev_ind.
  - cbn. split; [symmetry; apply size_empty|].
    split; [|split]; try (intros; by rewrite lookup_empty in *).
    intros id k. rewrite lookup_empty. split; [done|].
    intros (pre & post & H & _). by destruct pre.
  - rewrite unique_hois_snoc. unfold unique_hois_step.
    destruct (unique_hois ids) as [m cnt] eqn:Hst. cbn [fst snd] in *.
    assert (is_Some (m !! a) ↔ a ∈ ids) as Hdom.
    { split.
      - intros [k (pre & post & -> & _)%Hchar].
        apply elem_of_app. right. left.
      - intros (pre & post & -> & Hpre)%list_elem_of_split_l.
        exists (size (list_to_set pre : gset nat)). apply Hchar. eauto. }
    destruct (decide (is_Some (m !! a))) as [Hin | Hout]; cbn [fst snd].
    + pose proof (proj1 Hdom Hin) as Ha.
      split; [|split; [|split]]; [| |done|done].
      * rewrite Hcnt. f_equal. apply set_eq. intros x.
        rewrite !elem_of_list_to_set, elem_of_app. split; [by left|].
        intros [Hx | Hx]; [done|]. inversion Hx as [|? ? ? Hnil]; subst;
          [done|by apply elem_of_nil in Hnil].
      * intros id k. rewrite Hchar. split.
        -- intros (pre & post & -> & Hpre & ->).
           exists pre, (post ++ [a]). by rewrite <- app_assoc.
        -- intros (pre & post & Heq & Hpre & ->).
           apply list_snoc_eq_middle in Heq
             as [(-> & -> & ->) | (post' & -> & ->)]; [done|eauto].
    + assert (a ∉ ids) as Ha by (by rewrite <- Hdom).
      assert (m !! a = None) as Hnone
        by (by apply eq_None_not_Some).
      split; [|split; [|split]].
      * rewrite Hcnt, list_to_set_app_L, size_union.
        2:{ intros x. rewrite !elem_of_list_to_set. intros Hx Hx'.
            inversion Hx' as [|? ? ? Hnil]; subst;
              [done|by apply elem_of_nil in Hnil]. }
        rewrite list_to_set_singleton, size_singleton. lia.
      * intros id k. destruct (decide (id = a)) as [->|Hne].
        -- rewrite lookup_insert_eq. split.
           ++ intros [= <-]. exists ids, []. done.
           ++ intros (pre & post & Heq & Hpre & ->).
              apply list_snoc_eq_middle in Heq
                as [(-> & -> & _) | (post' & -> & ->)]; [by rewrite Hcnt|].
              exfalso. apply Ha, elem_of_app. right. left.
        -- rewrite lookup_insert_ne by done. rewrite Hchar. split.
           ++ intros (pre & post & -> & Hpre & ->).
              exists pre, (post ++ [a]). by rewrite <- app_assoc.
           ++ intros (pre & post & Heq & Hpre & ->).
              apply list_snoc_eq_middle in Heq
                as [(-> & -> & ->) | (post' & -> & ->)]; [done|eauto].
      * intros id k. destruct (decide (id = a)) as [->|Hne].
        -- rewrite lookup_insert_eq. intros [= <-]. lia.
        -- rewrite lookup_insert_ne by done. intros H%Hlt. lia.
      * intros id id' k.
        destruct (decide (id = a)) as [->|Hne];
          destruct (decide (id' = a)) as [->|Hne']; [done| | |].
        -- rewrite lookup_insert_eq, lookup_insert_ne by done.
           intros [= <-] H%Hlt. lia.
        -- rewrite lookup_insert_ne, lookup_insert_eq by done.
           intros H%Hlt [= <-]. lia.
        -- rewrite !lookup_insert_ne by done. apply Hinj.
Qed.

(** X11: the loop of lines 245-251 numbers the distinct interaction
    classes of the mini-batch from 0 in order of first appearance: a
    class is numbered with the count of distinct classes that precede
    its first occurrence; the counter ends at the number of distinct
    classes; every number is below the counter, and two classes never
    share a number. *)
Theorem unique_hois_numbering (ids : list nat) :
  (unique_hois ids).2 = size (list_to_set ids : gset nat)
  ∧ (∀ id, is_Some ((unique_hois ids).1 !! id) ↔ id ∈ ids)
  ∧ (∀ id k,
       (unique_hois ids).1 !! id = Some k
       ↔ ∃ pre post, ids = pre ++ id :: post ∧ (id ∉ pre)
                     ∧ k = size (list_to_set pre : gset nat))
  ∧ (∀ id k, (unique_hois ids).1 !! id = Some k → k < (unique_hois ids).2)
  ∧ (∀ id id' k, (unique_hois ids).1 !! id = Some k →
                 (unique_hois ids).1 !! id' = Some k → id = id').
Proof.
  destruct (unique_hois_invariant ids) as (Hcnt & Hchar & Hlt & Hinj).
  split; [done|]. split; [|done].
  intros id. split.
  - intros [k (pre & post & -> & _)%Hchar].
        apply elem_of_app. right. left.
  - intros (pre & post & -> & Hpre)%list_elem_of_split_l.
    exists (size (list_to_set pre : gset nat)). apply Hchar. eauto.
Qed.

(** *** The label resolver in training mode *)

Lemma label_matrix_loop (cnt : nat) (written : list (list Z))
    (cs : list nat) (k : nat) :
  Forall (λ c, c < cnt) cs → length cs ≤ k →
  foldlM (λ (m : list (list Z)) (ic : nat * nat),
            row ← or_raise IndexError (m !! ic.1);
            _ ← or_raise IndexError (row !! ic.2);
            Ok (<[ic.1 := <[ic.2 := 1%Z]> row]> m))
         (written ++ replicate k (replicate cnt 0%Z))
         (zip (seq (length written) (length cs)) cs)
  = Ok (written ++ (one_hot cnt <$> cs)
        ++ replicate (k - length cs) (replicate cnt 0%Z)).
Proof.
  intros Hcs. revert written k.
  induction Hcs as [|c cs Hc _ IH]; intros written k Hk.
  - cbn. by rewrite Nat.sub_0_r.
  - destruct k as [|k]; cbn in Hk; [lia|].
    cbn [length seq zip zip_with foldlM fst snd replicate].
    rewrite list_lookup_middle by done. cbn [or_raise mbind result_bind].
    rewrite lookup_replicate_2 by done. cbn [or_raise mbind result_bind].
    replace (length written) with (length written + 0) at 1 by lia.
    rewrite insert_app_r. cbn [insert list_insert].
    specialize (IH (written ++ [one_hot cnt c]) k ltac:(lia)).
    rewrite length_app, <- app_assoc in IH. cbn [length app] in IH.
    replace (length written + 1) with (S (length written)) in IH by lia.
    rewrite <- app_assoc in IH. cbn [app] in IH.
    cbn [fmap list_fmap app Nat.sub]. exact IH.
Qed.

Lemma sumZ_one_hot (n c : nat) : c < n → Torch.sumZ (one_hot n c) = 1%Z.
Proof.
  unfold one_hot, Torch.sumZ. revert c.
  induction n as [|n IH]; intros c Hc; [lia|].
  destruct c as [|c]; cbn.
  - assert (foldr Z.add 0%Z (replicate n 0%Z) = 0%Z) as ->; [|done].
    clear. induction n as [|n IH]; [done|]. cbn. exact IH.
  - apply IH. lia.
Qed.

Lemma length_one_hot (n c : nat) : length (one_hot n c) = n.
Proof. unfold one_hot. by rewrite length_insert, length_replicate. Qed.

Lemma matched_interactions_in_range (targets : list target)
    (indices : assignment) :
  Forall2 (λ t p, Forall (λ i, i < length (hois t)) p.2) targets indices →
  Forall (λ ti, ti.1 ∈ targets ∧ ti.2 < length (hois ti.1))
         (matched_interactions targets indices).
Proof.
  unfold matched_interactions.
  induction 1 as [|t [src tgt] targets indices Ht _ IH]; [constructor|].
  cbn [zip zip_with fmap list_fmap concat fst snd]. apply Forall_app. split.
  - apply Forall_fmap. eapply Forall_impl; [exact Ht|].
    intros i Hi. cbn. split; [left|done].
  - eapply Forall_impl; [exact IH|]. intros [t' i] [Hin Hi]. cbn in *.
    split; [by right|done].
Qed.

Lemma length_matched_interactions (targets : list target)
    (indices : assignment) :
  length targets = length indices →
  Forall (λ p, length p.1 = length p.2) indices →
  length (matched_interactions targets indices)
  = length (concat ((λ p, p.1) <$> indices)).
Proof.
  unfold matched_interactions. intros Hlen Heq. revert targets Hlen.
  induction Heq as [|[src tgt] indices Hp _ IH]; intros [|t targets] Hlen;
    try done.
  cbn in Hlen, Hp. injection Hlen as Hlen.
  cbn [zip zip_with fmap list_fmap concat fst snd].
  rewrite !length_app, length_fmap, Hp. f_equal. by apply IH.
Qed.

(** X12: in training mode without [consider_all], on an Assignment
    that matches, in every image, as many slots as interactions and
    only interactions the image has, the label resolver returns: the
    in-batch number of the class of each matched interaction, in
    assignment order, every number below the class count; and, as
    [target_classes_t], the matrix with one row per matched prediction
    and one column per distinct class of the batch whose row [i] is
    one-hot at the class number of match [i]. *)
Theorem get_tgt_labels_training (self : SetCriterion)
    (targets : list target) (indices : assignment) :
  training self = true → consider_all self = false →
  indices ≠ [] →
  Forall (λ p, length p.1 = length p.2) indices →
  Forall2 (λ t p, Forall (λ i, i < length (hois t)) p.2) targets indices →
  let numbering := unique_hois (hoi_id <$> concat (hois <$> targets)) in
  ∃ target_classes_i : list nat,
    _get_tgt_labels self targets indices
    = Ok (target_classes_i,
          Some (numbering.2, one_hot numbering.2 <$> target_classes_i))
    ∧ Forall2 (λ ti c, ∃ h, hois ti.1 !! ti.2 = Some h
                            ∧ numbering.1 !! hoi_id h = Some c)
              (matched_interactions targets indices) target_classes_i
    ∧ Forall (λ c, c < numbering.2) target_classes_i
    ∧ length target_classes_i = sum_list ((λ p, length p.1) <$> indices)
    ∧ Forall (λ row, length row = numbering.2 ∧ Torch.sumZ row = 1%Z)
             (one_hot numbering.2 <$> target_classes_i).
Proof.
  intros Htrain Hall Hne Heq Hrange numbering.
  pose proof (Forall2_length _ _ _ Hrange) as Hlen.
  destruct (unique_hois_invariant (hoi_id <$> concat (hois <$> targets)))
    as (_ & Hchar & Hlt & _).
  fold numbering in Hchar, Hlt.
  set (number := λ ti : target * nat,
         default 0 (hois ti.1 !! ti.2 ≫= λ h, numbering.1 !! hoi_id h)).
  assert (Forall (λ ti, ∃ h, hois ti.1 !! ti.2 = Some h
                             ∧ numbering.1 !! hoi_id h = Some (number ti))
                 (matched_interactions targets indices)) as Hnum.
  { eapply Forall_impl; [by apply matched_interactions_in_range|].
    intros [t i] [Ht Hi]. cbn in Ht, Hi.
    destruct (lookup_lt_is_Some_2 _ _ Hi) as [h Hh].
    assert (is_Some (numbering.1 !! hoi_id h)) as [c Hc].
    { assert (hoi_id h ∈ hoi_id <$> concat (hois <$> targets)) as Hin.
      { apply list_elem_of_fmap. exists h. split; [done|].
        apply list_elem_of_In, in_concat. exists (hois t). split.
        - apply list_elem_of_In, list_elem_of_fmap. by exists t.
        - apply list_elem_of_In. by eapply list_elem_of_lookup_2. }
      apply list_elem_of_split_l in Hin as (pre & post & Hids & Hpre).
      eexists. apply Hchar. eauto. }
    exists h. split; [done|]. unfold number. cbn [fst snd].
    rewrite Hh. cbn. by rewrite Hc. }
  exists (number <$> matched_interactions targets indices).
  assert (Forall (λ c, c < numbering.2)
                 (number <$> matched_interactions targets indices)) as Hbound.
  { apply Forall_fmap. eapply Forall_impl; [exact Hnum|].
    intros ti (h & _ & Hc). cbn. by eapply Hlt. }
  assert (length (number <$> matched_interactions targets indices)
          = length (concat ((λ p : list nat * list nat, p.1) <$> indices)))
    as Hrows by (rewrite length_fmap; by apply length_matched_interactions).
  split; [|split; [|split; [done|split]]].
  - unfold _get_tgt_labels. rewrite Htrain, Hall. cbn [andb negb].
    change (foldl unique_hois_step (∅, 0)
              (hoi_id <$> concat (hois <$> targets))) with numbering.
    destruct numbering as [m cnt] eqn:Hst. cbn [fst snd] in *.
    rewrite (for_matched_Ok _ targets indices
               (number <$> matched_interactions targets indices)).
    2:{ apply Forall2_fmap_r, Forall_Forall2_diag.
        eapply Forall_impl; [exact Hnum|].
        intros ti (h & Hh & Hc). cbn. rewrite Hh. cbn. by rewrite Hc. }
    cbn [mbind result_bind].
    assert (Torch.cat ((λ p : list nat * list nat, p.1) <$> indices)
            = Ok (concat ((λ p : list nat * list nat, p.1) <$> indices)))
      as -> by (by destruct indices).
    cbn [mbind result_bind]. rewrite <- Hrows.
    pose proof (label_matrix_loop cnt []
                  (number <$> matched_interactions targets indices)
                  (length (number <$> matched_interactions targets indices))
                  Hbound ltac:(lia)) as Hloop.
    cbn [app length] in Hloop. rewrite Nat.sub_diag in Hloop.
    cbn [replicate] in Hloop. rewrite app_nil_r in Hloop.
    rewrite Hloop. reflexivity.
  - apply Forall2_fmap_r, Forall_Forall2_diag.
    eapply Forall_impl; [exact Hnum|]. intros ti (h & Hh & Hc). eauto.
  - by rewrite Hrows, length_permutation_src_idx.
  - apply Forall_fmap. eapply Forall_impl; [exact Hbound|].
    intros c Hc. cbn. split; [apply length_one_hot|by apply sumZ_one_hot].
Qed.

(** *** The confidence loss *)

Lemma per_slot_per_slot {A B C} (f : nat → nat → B → C)
    (g : nat → nat → A → B) (t : list (list A)) :
  per_slot f (per_slot g t) = per_slot (λ b s a, f b s (g b s a)) t.
Proof.
  unfold per_slot. apply list_eq. intros b. rewrite !list_lookup_imap.
  destruct (t !! b) as [m|]; [|done]. cbn. f_equal.
  apply list_eq. intros s. rewrite !list_lookup_imap.
  by destruct (m !! s).
Qed.

Lemma per_slot_fmap {A B} (g : A → B) (t : list (list A)) :
  (λ m : list A, g <$> m) <$> t = per_slot (λ _ _, g) t.
Proof.
  unfold per_slot. apply list_eq. intros b.
  rewrite list_lookup_fmap, list_lookup_imap.
  destruct (t !! b) as [m|]; [|done]. cbn. f_equal.
  apply list_eq. intros s. by rewrite list_lookup_fmap, list_lookup_imap.
Qed.

Lemma zip_with_imap {A B C D} (h : B → C → D) (f : nat → A → B)
    (g : nat → A → C) (m : list A) :
  zip_with h (imap f m) (imap g m) = imap (λ s a, h (f s a) (g s a)) m.
Proof.
  revert f g. induction m as [|a m IH]; intros f g; [done|].
  cbn. f_equal. apply IH.
Qed.

Lemma zip_with_concat_imap {A B C D} (h : B → C → D)
    (f : nat → list A → list B) (g : nat → list A → list C)
    (k : nat → list A → list D) (t : list (list A)) :
  (∀ b m, length (f b m) = length (g b m)) →
  (∀ b m, zip_with h (f b m) (g b m) = k b m) →
  zip_with h (concat (imap f t)) (concat (imap g t)) = concat (imap k t).
Proof.
  intros Hlen Hk. revert f g k Hlen Hk.
  induction t as [|m t IH]; intros f g k Hlen Hk; [done|].
  cbn. rewrite zip_with_app by apply Hlen. rewrite Hk. f_equal.
  apply IH; intros; [apply Hlen|apply Hk].
Qed.

Lemma zip_with_per_slot {A B C D} (h : B → C → D) (f : nat → nat → A → B)
    (g : nat → nat → A → C) (t : list (list A)) :
  zip_with h (concat (per_slot f t)) (concat (per_slot g t))
  = concat (per_slot (λ b s a, h (f b s a) (g b s a)) t).
Proof.
  unfold per_slot. apply zip_with_concat_imap.
  - intros b m. by rewrite !length_imap.
  - intros b m. apply zip_with_imap.
Qed.

Lemma length_concat_per_slot {A B} (f : nat → nat → A → B)
    (t : list (list A)) :
  length (concat (per_slot f t)) = length (concat t).
Proof.
  unfold per_slot. revert f. induction t as [|m t IH]; intros f; [done|].
  cbn. rewrite !length_app, length_imap. f_equal. apply IH.
Qed.

Lemma concat_concat {A} (t : list (list (list A))) :
  concat (concat t) = concat ((λ m : list (list A), concat m) <$> t).
Proof.
  induction t as [|m t IH]; [done|]. cbn. by rewrite concat_app, IH.
Qed.

(** A rank-3 tensor whose last dimension has size 1, flattened. *)
Lemma flatten3_last_dim_1 (g : R → R) (t : tensor3) :
  Forall (Forall (λ row, length row = 1)) t →
  Torch.flatten3 ((λ m : list (list R), (λ row : list R, g <$> row) <$> m)
                  <$> t)
  = concat (per_slot (λ _ _ row, g (nth 0 row 0%R)) t).
Proof.
  intros Hshape. unfold Torch.flatten3. rewrite concat_concat. f_equal.
  rewrite <- list_fmap_compose, <- per_slot_fmap.
  apply Forall_fmap_ext_1. eapply Forall_impl; [exact Hshape|].
  intros m Hm. cbn. induction Hm as [|row m Hrow _ IH]; [done|].
  cbn. rewrite IH. destruct row as [|x [|y row]]; try done.
Qed.

(** [index_put2] writes its value at the indexed positions and keeps
    every other entry. *)
Lemma index_put2_Ok {A} (t : list (list A)) (idx : list nat * list nat)
    (v : A) :
  length idx.1 = length idx.2 →
  Forall (λ bs, ∃ row, t !! bs.1 = Some row ∧ bs.2 < length row)
         (zip idx.1 idx.2) →
  Torch.index_put2 t idx v
  = Ok (per_slot (λ b s a,
                    if bool_decide ((b, s) ∈ zip idx.1 idx.2) then v else a)
                 t).
Proof.
  intros Hlen. unfold Torch.index_put2. rewrite decide_True by done.
  generalize (zip idx.1 idx.2). clear Hlen idx. intros cs Hcs. revert t Hcs.
  induction cs as [|[b s] cs IH]; intros t Hcs.
  - cbn. f_equal. unfold per_slot. apply list_eq. intros i.
    rewrite list_lookup_imap. destruct (t !! i) as [m|]; [|done]. cbn.
    f_equal. apply list_eq. intros j. rewrite list_lookup_imap.
    destruct (m !! j); [|done]. cbn. by rewrite bool_decide_eq_false_2
      by apply not_elem_of_nil.
  - apply Forall_cons in Hcs as [(row & Hrow & Hs) Hcs]. cbn [fst snd] in *.
    destruct (lookup_lt_is_Some_2 row s Hs) as [a Ha].
    pose proof (lookup_lt_Some _ _ _ Hrow) as Hb.
    cbn [foldlM fst snd]. rewrite Hrow. cbn [or_raise mbind result_bind].
    rewrite Ha. cbn [or_raise mbind result_bind].
    rewrite IH.
    2:{ eapply Forall_impl; [exact Hcs|]. intros [b' s'] (row' & Hrow' & Hs').
        cbn [fst snd] in *. destruct (decide (b' = b)) as [->|Hne].
        - rewrite list_lookup_insert_eq by done. eexists. split; [done|].
          rewrite length_insert. congruence.
        - rewrite list_lookup_insert_ne by done. eauto. }
    f_equal. unfold per_slot. apply list_eq. intros i.
    rewrite !list_lookup_imap. destruct (decide (i = b)) as [->|Hne].
    + rewrite list_lookup_insert_eq by done. rewrite Hrow. cbn. f_equal.
      apply list_eq. intros j. rewrite !list_lookup_imap.
      destruct (decide (j = s)) as [->|Hnes].
      * rewrite list_lookup_insert_eq by done. rewrite Ha. cbn.
        rewrite (bool_decide_eq_true_2 ((b, s) ∈ (b, s) :: cs)) by left.
        by case_bool_decide.
      * rewrite list_lookup_insert_ne by done.
        destruct (row !! j); [|done]. cbn. f_equal.
        apply (f_equal (λ c : bool, if c then v else _)).
        apply bool_decide_ext. rewrite elem_of_cons.
        split; [by right|]. intros [Heq|?]; [congruence|done].
    + rewrite list_lookup_insert_ne by done.
      destruct (t !! i) as [m|]; [|done]. cbn. f_equal.
      apply list_eq. intros j. rewrite !list_lookup_imap.
      destruct (m !! j); [|done]. cbn. f_equal.
      apply (f_equal (λ c : bool, if c then v else _)).
      apply bool_decide_ext. rewrite elem_of_cons.
        split; [by right|]. intros [Heq|?]; [congruence|done].
Qed.

Lemma src_permutation_idx_Ok (indices : assignment) :
  indices ≠ [] →
  _get_src_permutation_idx indices
  = Ok (concat (imap (λ i p, Torch.full_like p.1 i) indices),
        concat ((λ p, p.1) <$> indices)).
Proof.
  intros Hne. unfold _get_src_permutation_idx, Torch.cat.
  by destruct indices.
Qed.

Lemma length_matched_ones (targets : list target) (indices : assignment) :
  length targets = length indices →
  Forall (λ p, length p.1 = length p.2) indices →
  length (concat ((λ ti : target * (list nat * list nat),
                     (λ _ : nat, 1%R) <$> ti.2.2)
                  <$> zip targets indices))
  = sum_list ((λ p, length p.1) <$> indices).
Proof.
  intros Hlen Heq. revert targets Hlen.
  induction Heq as [|[src tgt] indices Hp _ IH]; intros [|t targets] Hlen;
    try done.
  cbn in Hlen, Hp. injection Hlen as Hlen. cbn.
  rewrite length_app, length_fmap, Hp. f_equal. by apply IH.
Qed.

(** X13: the confidence loss is the mean, over all slots of all
    images, of a per-slot term: a slot matched by the Assignment is a
    positive with weight 1 and adds the (clamped) negative
    log-probability of its sigmoid score, every other slot is a
    negative with weight [eos_coef].  Preconditions: one score per
    slot, an Assignment with one pair per image that matches as many
    slots as interactions, and matched slots that exist. *)
Theorem loss_confidences_spec (self : SetCriterion)
    (outputs : prediction_output) (targets : list target)
    (indices : assignment) (num_boxes : R) (box_scores : tensor3) :
  tensors outputs !! "box_scores" = Some box_scores →
  Forall (Forall (λ row, length row = 1)) box_scores →
  indices ≠ [] →
  length targets = length indices →
  Forall (λ p, length p.1 = length p.2) indices →
  Forall (λ bs, ∃ m, box_scores !! bs.1 = Some m ∧ bs.2 < length m)
         (matched_coordinates indices) →
  loss_confidences self outputs targets indices num_boxes
  = Ok {[ "loss_conf" :=
            Torch.mean
              (concat
                 (per_slot
                    (λ b s row,
                       confidence_term
                         (eos_coef self)
                         (bool_decide ((b, s) ∈ matched_coordinates indices))
                         (nth 0 row 0%R))
                    box_scores)) ]}.
Proof.
  intros Hbs Hshape Hne Hlen Heq Hrange.
  unfold loss_confidences. rewrite Hbs.
  rewrite bool_decide_eq_true_2 by eauto.
  cbn [assert or_raise mbind result_bind].
  rewrite flatten3_last_dim_1 by done.
  rewrite (per_slot_fmap (λ row : list R, Torch.sigmoid <$> row)).
  rewrite (per_slot_fmap (λ _ : list R, 0%R)), per_slot_per_slot.
  rewrite src_permutation_idx_Ok by done. cbn [mbind result_bind fst snd].
  pose proof (zip_permutation_idx 0 indices) as Hzip. cbn in Hzip.
  fold (matched_coordinates indices) in Hzip.
  pose proof (length_permutation_batch_idx 0 indices) as Hlb. cbn in Hlb.
  pose proof (length_permutation_src_idx indices) as Hls.
  assert (Torch.cat ((λ ti : target * (list nat * list nat),
                        (λ _ : nat, 1%R) <$> ti.2.2)
                     <$> zip targets indices)
          = Ok (concat ((λ ti : target * (list nat * list nat),
                           (λ _ : nat, 1%R) <$> ti.2.2)
                        <$> zip targets indices))) as ->.
  { destruct indices as [|p indices]; [done|].
    destruct targets as [|t targets]; [done|]. reflexivity. }
  cbn [mbind result_bind].
  rewrite decide_True
    by (left; rewrite Hlb; symmetry; by apply length_matched_ones).
  cbn [mbind result_bind].
  assert (∀ (A : Type) (f : nat → nat → list R → A),
            Forall (λ bs, ∃ row, per_slot f box_scores !! bs.1 = Some row
                                 ∧ bs.2 < length row)
                   (matched_coordinates indices)) as Hin.
  { intros A f. eapply Forall_impl; [exact Hrange|].
    intros [b s] (m & Hm & Hs). cbn [fst snd] in *. unfold per_slot.
    rewrite list_lookup_imap, Hm. cbn. eexists. split; [done|].
    by rewrite length_imap. }
  rewrite index_put2_Ok; cbn [fst snd];
    [|by rewrite Hlb, Hls|rewrite Hzip; apply Hin].
  cbn [mbind result_bind]. rewrite per_slot_per_slot.
  rewrite (per_slot_fmap (λ _ : R, (1 * eos_coef self)%R)), per_slot_per_slot.
  rewrite index_put2_Ok; cbn [fst snd];
    [|by rewrite Hlb, Hls|rewrite Hzip; apply Hin].
  cbn [mbind result_bind]. rewrite per_slot_per_slot, Hzip.
  unfold Torch.binary_cross_entropy.
  rewrite !decide_True by (by rewrite !length_concat_per_slot).
  cbn [mbind result_bind]. rewrite !zip_with_per_slot.
  do 4 f_equal. unfold per_slot. apply imap_ext. intros b m _. cbn.
  apply imap_ext. intros s row _. cbn. unfold confidence_term, Torch.bce.
  case_bool_decide; lra.
Qed.

(** *** The attention masks *)

Lemma entry_empty_fill (n m : nat) (junk : nat → nat → Model.efloat)
    (v : Model.efloat) (i j : nat) :
  i < n → j < m →
  Model.entry (Model.fill_ (Model.empty n m junk) v) i j = Some v.
Proof.
  intros Hi Hj. unfold Model.entry, Model.fill_, Model.empty.
  rewrite !list_lookup_fmap, lookup_seq_lt by done. cbn.
  by rewrite !list_lookup_fmap, lookup_seq_lt by done.
Qed.

Lemma shape_empty_fill (n m : nat) (junk : nat → nat → Model.efloat)
    (v : Model.efloat) :
  length (Model.fill_ (Model.empty n m junk) v) = n
  ∧ Forall (λ row, length row = m) (Model.fill_ (Model.empty n m junk) v).
Proof.
  unfold Model.fill_, Model.empty. split.
  - by rewrite !length_fmap, length_seq.
  - apply Forall_fmap, Forall_fmap, Forall_forall. intros i _. cbn.
    by rewrite !length_fmap, length_seq.
Qed.

(** X14: the text encoder's attention mask is causal.  For a context
    of [n] tokens [build_attention_mask] returns an n-by-n matrix,
    whatever the allocated memory held, whose entry (i, j) is 0 when
    [j <= i] and minus infinity when [j > i]: token [i] attends to
    itself and to the tokens before it, and to no later token. *)
Theorem build_attention_mask_causal (n : nat)
    (junk : nat → nat → Model.efloat) :
  length (Model.build_attention_mask n junk) = n
  ∧ Forall (λ row, length row = n) (Model.build_attention_mask n junk)
  ∧ ∀ i j, i < n → j < n →
      Model.entry (Model.build_attention_mask n junk) i j
      = Some (if decide (j ≤ i) then Model.Finite 0 else Model.NegInf).
Proof.
  unfold Model.build_attention_mask. cbv zeta.
  destruct (shape_empty_fill n n junk Model.NegInf) as [Hrows Hcols].
  split; [|split].
  - unfold Model.triu_. by rewrite length_imap.
  - unfold Model.triu_. apply Forall_forall. intros row Hrow.
    apply elem_of_lookup_imap in Hrow as (i & r & -> & Hr).
    rewrite length_imap. rewrite Forall_forall in Hcols.
    apply Hcols. by eapply list_elem_of_lookup_2.
  - intros i j Hi Hj.
    pose proof (entry_empty_fill n n junk Model.NegInf i j Hi Hj) as He.
    unfold Model.entry, Model.triu_ in *. rewrite list_lookup_imap.
    destruct (_ !! i) as [row|]; [|done]. cbn in *.
    rewrite list_lookup_imap, He. cbn. f_equal.
    destruct (decide (j ≤ i)), (decide (1 ≤ Z.of_nat j - Z.of_nat i)%Z);
      try done; lia.
Qed.

Lemma region_mask_loop (mem_len r : nat) (mask : list (list Model.efloat))
    (n : nat) :
  n ≤ length mask →
  ∃ mask',
    foldl (λ (st : Model.outcome (list (list Model.efloat))) (k : nat),
             match st with
             | Model.Raises e => Model.Raises e
             | Model.Returns mask =>
                 match mask !! k with
                 | None => Model.Raises Model.IndexError
                 | Some row =>
                     Model.Returns
                       (<[k := Model.slice_assign row (k * r)
                                 (((k + 1) * r) `min` mem_len)
                                 (Model.Finite 0)]> mask)
                 end
             end)
          (Model.Returns mask) (seq 0 n)
    = Model.Returns mask'
    ∧ length mask' = length mask
    ∧ ∀ k, mask' !! k
           = if decide (k < n)
             then (λ row, Model.slice_assign row (k * r)
                            (((k + 1) * r) `min` mem_len) (Model.Finite 0))
                  <$> mask !! k
             else mask !! k.
Proof.
  induction n as [|n IH]; intros Hn.
  - exists mask. split; [done|]. split; [done|]. intros k.
    by rewrite decide_False by lia.
  - destruct (IH ltac:(lia)) as (mask1 & Hfold & Hlen & Hlook).
    rewrite seq_S, foldl_app, Hfold. cbn [foldl Nat.add].
    destruct (lookup_lt_is_Some_2 mask n ltac:(lia)) as [row Hrow].
    pose proof (Hlook n) as Hn1. rewrite decide_False in Hn1 by lia.
    rewrite Hn1, Hrow. eexists. split; [done|].
    split; [by rewrite length_insert|]. intros k.
    destruct (decide (k = n)) as [->|Hne].
    + rewrite list_lookup_insert_eq by lia.
      rewrite decide_True by lia. by rewrite Hrow.
    + rewrite list_lookup_insert_ne by done. rewrite Hlook.
      destruct (decide (k < n)), (decide (k < S n)); try done; lia.
Qed.

Lemma region_mask_returns (tgt_len mem_len : nat)
    (junk : nat → nat → Model.efloat) :
  0 < tgt_len →
  ∃ mask,
    Model.build_region_aware_encoder_mask tgt_len mem_len junk
    = Model.Returns mask
    ∧ length mask = tgt_len
    ∧ Forall (λ row, length row = mem_len) mask
    ∧ ∀ k j, k < tgt_len → j < mem_len →
        Model.entry mask k j
        = Some (if decide (k * (mem_len `div` tgt_len) ≤ j
                           < (k + 1) * (mem_len `div` tgt_len))
                then Model.Finite 0 else Model.NegInf).
Proof.
  unfold Model.build_region_aware_encoder_mask. cbv zeta.
  intros Hpos. rewrite decide_False by lia.
  destruct (shape_empty_fill tgt_len mem_len junk Model.NegInf)
    as [Hrows Hcols].
  destruct (region_mask_loop mem_len (mem_len `div` tgt_len)
              (Model.fill_ (Model.empty tgt_len mem_len junk) Model.NegInf)
              tgt_len ltac:(lia))
    as (mask & Hfold & Hlen & Hlook).
  exists mask. split; [exact Hfold|]. split; [congruence|]. split.
  - apply Forall_forall. intros row Hrow.
    apply list_elem_of_lookup_1 in Hrow as [k Hk].
    rewrite Hlook in Hk. rewrite Forall_forall in Hcols.
    destruct (decide (k < tgt_len)).
    + apply fmap_Some in Hk as (row0 & Hrow0 & ->).
      unfold Model.slice_assign. rewrite length_imap.
      apply Hcols. by eapply list_elem_of_lookup_2.
    + apply Hcols. by eapply list_elem_of_lookup_2.
  - intros k j Hk Hj.
    pose proof (entry_empty_fill tgt_len mem_len junk Model.NegInf k j
                  Hk Hj) as He.
    unfold Model.entry in *. rewrite Hlook, decide_True by done.
    destruct (_ !! k) as [row|]; [|done]. cbn in *.
    unfold Model.slice_assign. rewrite list_lookup_imap, He. cbn. f_equal.
    repeat destruct (decide _); try done; lia.
Qed.

(** X15: the region-aware encoder mask.  With no query
    ([tgt_len = 0]) the function raises [ZeroDivisionError]; otherwise
    it returns a [tgt_len]-by-[mem_len] matrix, whatever the allocated
    memory held, in which query [k] sees exactly the memory positions
    [k * r, ..., (k + 1) * r - 1] with [r = mem_len // tgt_len]
    (entry 0) and no other (entry minus infinity). *)
Theorem build_region_aware_encoder_mask_spec (tgt_len mem_len : nat)
    (junk : nat → nat → Model.efloat) :
  (tgt_len = 0 →
   Model.build_region_aware_encoder_mask tgt_len mem_len junk
   = Model.Raises Model.ZeroDivisionError)
  ∧ (0 < tgt_len →
     ∃ mask,
       Model.build_region_aware_encoder_mask tgt_len mem_len junk
       = Model.Returns mask
       ∧ length mask = tgt_len
       ∧ Forall (λ row, length row = mem_len) mask
       ∧ ∀ k j, k < tgt_len → j < mem_len →
           Model.entry mask k j
           = Some (if decide (k * (mem_len `div` tgt_len) ≤ j
                              < (k + 1) * (mem_len `div` tgt_len))
                   then Model.Finite 0 else Model.NegInf)).
Proof.
  split.
  - intros ->. reflexivity.
  - apply region_mask_returns.
Qed.

(** X16: what the region-aware mask leaves out.  In the returned mask
    no memory position is seen by two queries; the positions from
    [tgt_len * r] on (the remainder of the division, with
    [r = mem_len // tgt_len]) are seen by no query, each position
    before that by query [j // r]; and with more queries than memory
    positions every entry is minus infinity, so no query sees
    anything. *)
Theorem build_region_aware_encoder_mask_coverage (tgt_len mem_len : nat)
    (junk : nat → nat → Model.efloat) (mask : list (list Model.efloat)) :
  Model.build_region_aware_encoder_mask tgt_len mem_len junk
  = Model.Returns mask →
  (∀ j k k', j < mem_len → k < tgt_len → k' < tgt_len →
     Model.entry mask k j = Some (Model.Finite 0) →
     Model.entry mask k' j = Some (Model.Finite 0) → k = k')
  ∧ (∀ j k, tgt_len * (mem_len `div` tgt_len) ≤ j < mem_len →
       k < tgt_len → Model.entry mask k j = Some Model.NegInf)
  ∧ (∀ j, j < tgt_len * (mem_len `div` tgt_len) →
       Model.entry mask (j `div` (mem_len `div` tgt_len)) j
       = Some (Model.Finite 0))
  ∧ (mem_len < tgt_len →
     ∀ k j, k < tgt_len → j < mem_len →
       Model.entry mask k j = Some Model.NegInf).
Proof.
  intros Hret.
  assert (0 < tgt_len) as Hpos.
  { destruct tgt_len; [|lia]. discriminate Hret. }
  destruct (region_mask_returns tgt_len mem_len junk Hpos)
    as (mask' & Hret' & _ & _ & Hentry).
  rewrite Hret in Hret'. injection Hret' as <-.
  set (r := mem_len `div` tgt_len) in *.
  pose proof (Nat.Div0.mul_div_le mem_len tgt_len) as Hle. fold r in Hle.
  split; [|split; [|split]].
  - intros j k k' Hj Hk Hk'. rewrite !Hentry by done.
    repeat destruct (decide _); try done. intros _ _.
    destruct (Nat.lt_trichotomy k k') as [Hlt | [Heq | Hlt]]; [|done|];
      exfalso.
    + assert ((k + 1) * r ≤ k' * r) by (apply Nat.mul_le_mono_r; lia). lia.
    + assert ((k' + 1) * r ≤ k * r) by (apply Nat.mul_le_mono_r; lia). lia.
  - intros j k [Hlo Hhi] Hk. rewrite Hentry by done.
    rewrite decide_False; [done|].
    assert ((k + 1) * r ≤ tgt_len * r) by (apply Nat.mul_le_mono_r; lia).
    lia.
  - intros j Hj.
    assert (0 < r) as Hr by (destruct r; [lia|lia]).
    assert (j `div` r < tgt_len) as Hq
      by (apply Nat.Div0.div_lt_upper_bound; lia).
    rewrite Hentry by (done || lia).
    rewrite decide_True; [done|].
    pose proof (Nat.div_mod_eq j r) as Hdm.
    pose proof (Nat.mod_upper_bound j r ltac:(lia)) as Hmod. lia.
  - intros Hsmall k j Hk Hj. rewrite Hentry by done.
    assert (r = 0) as -> by (by apply Nat.div_small).
    rewrite decide_False; [done|]. lia.
Qed.

(** *** The weights of the criterion built by [build_model] *)

Lemma foldlM_snoc {A B} (f : A → B → result A) (a : A) (l : list B) (b : B) :
  foldlM f a (l ++ [b]) = foldlM f a l ≫= λ a', f a' b.
Proof.
  revert a. induction l as [|x l IH]; intros a; cbn.
  - by destruct (f a b).
  - destruct (f a x) as [a'|e]; cbn; [apply IH|done].
Qed.

Lemma aux_key_inj (n1 n2 : string) (i j : nat) :
  n1 ∈ ["loss_bbox"; "loss_giou"; "loss_conf"] →
  n2 ∈ ["loss_bbox"; "loss_giou"; "loss_conf"] →
  aux_key n1 i = aux_key n2 j → n1 = n2 ∧ i = j.
Proof.
  intros H1 H2 H.
  repeat (apply elem_of_cons in H1 as [-> | H1]);
    try (by apply elem_of_nil in H1);
    repeat (apply elem_of_cons in H2 as [-> | H2]);
    try (by apply elem_of_nil in H2);
    try (split; [done|by apply aux_key_inj_index in H]);
    unfold aux_key in H; cbn in H; discriminate H.
Qed.

Lemma base_weight_dict_lookup (args : Config.args) (k : string) (v : R) :
  base_weight_dict args !! k = Some v → k ∈ primary_keys.
Proof.
  unfold base_weight_dict, dict_of, primary_keys. cbn [foldl fst snd].
  intros H.
  repeat (apply lookup_insert_Some in H as [[<- _] | [_ H]];
          [apply (bool_decide_unpack _); by vm_compute|]).
  by rewrite lookup_empty in H.
Qed.

Lemma base_weight_dict_names (args : Config.args) (name : string) :
  name ∈ ["loss_bbox"; "loss_giou"; "loss_conf"] →
  ∃ v, base_weight_dict args !! name = Some v.
Proof.
  intros H. repeat (apply elem_of_cons in H as [-> | H]);
    try (by apply elem_of_nil in H); by eexists.
Qed.

Lemma aux_weights_loop (args : Config.args) (n : nat) :
  ∃ aux,
    foldlM aux_weights_step (∅, base_weight_dict args) (seq 0 n)
    = Ok (aux, aux ∪ base_weight_dict args)
    ∧ ∀ k v, aux !! k = Some v
             ↔ ∃ i name, i < n
                         ∧ name ∈ ["loss_bbox"; "loss_giou"; "loss_conf"]
                         ∧ k = aux_key name i
                         ∧ base_weight_dict args !! name = Some v.
Proof.
  induction n as [|n (aux & Hfold & Hchar)].
  - exists ∅. split; [by rewrite (left_id_L ∅ (∪))|]. intros k v.
    rewrite lookup_empty. split; [done|]. intros (i & _ & Hi & _). lia.
  - rewrite seq_S, foldlM_snoc, Hfold. cbn [mbind result_bind Nat.add].
    unfold aux_weights_step.
    assert (∀ name, name ∈ ["loss_bbox"; "loss_giou"; "loss_conf"] →
              (aux ∪ base_weight_dict args) !! name
              = base_weight_dict args !! name) as Hbase.
    { intros name Hname. rewrite lookup_union_r; [done|].
      destruct (aux !! name) as [v|] eqn:Hk; [|done]. exfalso.
      apply Hchar in Hk as (i & name' & _ & Hname' & Hkey & _).
      destruct (base_weight_dict_names args name Hname) as [w Hw].
      apply base_weight_dict_lookup in Hw.
      eapply (aux_key_not_primary name' i); [|by rewrite <- Hkey].
      unfold primary_keys.
      repeat (apply elem_of_cons in Hname' as [-> | Hname']);
        try (by apply elem_of_nil in Hname');
        apply (bool_decide_unpack _); by vm_compute. }
    destruct (base_weight_dict_names args "loss_bbox") as [cb Hcb];
      [apply (bool_decide_unpack _); by vm_compute|].
    destruct (base_weight_dict_names args "loss_giou") as [cg Hcg];
      [apply (bool_decide_unpack _); by vm_compute|].
    destruct (base_weight_dict_names args "loss_conf") as [cc Hcc];
      [apply (bool_decide_unpack _); by vm_compute|].
    cbn [mapM mbind result_bind or_raise].
    rewrite !Hbase by (apply (bool_decide_unpack _); by vm_compute).
    rewrite Hcb, Hcg, Hcc. cbn [mapM mbind result_bind or_raise fmap].
    cbn [mret result_ret mbind result_bind].
    set (E := dict_of [(aux_key "loss_bbox" n, cb);
                       (aux_key "loss_giou" n, cg);
                       (aux_key "loss_conf" n, cc)]).
    exists (E ∪ aux). split.
    + do 2 f_equal. apply map_eq. intros k. rewrite !lookup_union.
      by destruct (E !! k), (aux !! k), (base_weight_dict args !! k).
    + assert (∀ k v, E !! k = Some v
                     ↔ ∃ name, name ∈ ["loss_bbox"; "loss_giou"; "loss_conf"]
                               ∧ k = aux_key name n
                               ∧ base_weight_dict args !! name = Some v)
        as HE.
      { intros k v. unfold E, dict_of. cbn [foldl fst snd]. split.
        - intros H.
          repeat (apply lookup_insert_Some in H as [[<- <-] | [_ H]];
                  [refine (ex_intro _ _ (conj _ (conj eq_refl _)));
                   [apply (bool_decide_unpack _); by vm_compute|done]|]).
          by rewrite lookup_empty in H.
        - intros (name & Hname & -> & Hv).
          repeat (apply elem_of_cons in Hname as [-> | Hname]);
            try (by apply elem_of_nil in Hname).
          + rewrite lookup_insert_ne
              by (unfold aux_key; cbn; discriminate).
            rewrite lookup_insert_ne
              by (unfold aux_key; cbn; discriminate).
            rewrite lookup_insert_eq. congruence.
          + rewrite lookup_insert_ne
              by (unfold aux_key; cbn; discriminate).
            rewrite lookup_insert_eq. congruence.
          + rewrite lookup_insert_eq. congruence. }
      intros k v. rewrite lookup_union_Some_raw, HE, Hchar. split.
      * intros [(name & Hname & -> & Hv)
               | (_ & i & name & Hi & Hname & -> & Hv)].
        -- exists n, name. split; [lia|done].
        -- exists i, name. split; [lia|done].
      * intros (i & name & Hi & Hname & -> & Hv).
        destruct (decide (i = n)) as [->|Hne].
        -- left. eauto.
        -- right. split; [|exists i, name; split; [lia|done]].
           destruct (E !! aux_key name i) as [w|] eqn:HEk; [|done].
           apply HE in HEk as (name' & Hname' & Hkey & _).
           apply aux_key_inj in Hkey as [_ ?]; [lia|done|done].
Qed.

Lemma build_weight_dict_lookup (args : Config.args) :
  ∃ weight_dict,
    build_weight_dict args = Ok weight_dict
    ∧ ∀ k v,
        weight_dict !! k = Some v
        ↔ base_weight_dict args !! k = Some v
          ∨ (Config.aux_loss args = true
             ∧ ∃ i name,
                 (Z.of_nat i < Config.dec_layers args)%Z
                 ∧ name ∈ ["loss_bbox"; "loss_giou"; "loss_conf"]
                 ∧ k = aux_key name i
                 ∧ base_weight_dict args !! name = Some v).
Proof.
  unfold build_weight_dict. cbv zeta.
  destruct (Config.aux_loss args) eqn:Haux.
  - destruct (aux_weights_loop args (Z.to_nat (Config.dec_layers args)))
      as (aux & Hfold & Hchar).
    rewrite Hfold. cbn [mbind result_bind snd].
    exists (aux ∪ base_weight_dict args). split; [done|].
    intros k v. rewrite lookup_union_Some_raw, Hchar. split.
    + intros [(i & name & Hi & Hname & -> & Hv) | [_ Hb]]; [|by left].
      right. split; [done|]. exists i, name. split; [lia|done].
    + intros [Hb | (_ & i & name & Hi & Hname & -> & Hv)].
      * destruct (aux !! k) as [w|] eqn:Hk; [|by right].
        exfalso. apply Hchar in Hk as (i & name & _ & Hname & -> & _).
        apply base_weight_dict_lookup in Hb.
        eapply (aux_key_not_primary name i); [|done].
        unfold primary_keys.
        repeat (apply elem_of_cons in Hname as [-> | Hname]);
          try (by apply elem_of_nil in Hname);
          apply (bool_decide_unpack _); by vm_compute.
      * left. exists i, name. split; [lia|done].
  - exists (base_weight_dict args). split; [done|].
    intros k v. split; [by left|]. by intros [? | [? _]].
Qed.

Lemma base_weight_dict_primary (args : Config.args) (k : string) :
  k ∈ primary_keys → k ≠ "class_error" →
  is_Some (base_weight_dict args !! k).
Proof.
  unfold primary_keys. intros Hk Hne.
  repeat (apply elem_of_cons in Hk as [-> | Hk]);
    try (by apply elem_of_nil in Hk); try done; by eexists.
Qed.

Lemma written_for_layer_name (k : string) (i : nat) :
  written_for_layer k i →
  ∃ name, name ∈ ["loss_bbox"; "loss_giou"; "loss_conf"]
          ∧ k = aux_key name i.
Proof.
  intros [-> | [-> | ->]]; refine (ex_intro _ _ (conj _ eq_refl));
    apply (bool_decide_unpack _); by vm_compute.
Qed.

(** X17: the weight dictionary [build_model] hands to the criterion.
    Its construction never raises; a key has a weight exactly when it
    is one of the seven base keys or, with [aux_loss] set, a key
    [loss_bbox_i], [loss_giou_i] or [loss_conf_i] with
    [0 <= i < dec_layers], which then has the weight of its unsuffixed
    key.  So every key the auxiliary loop of [forward] writes for a
    layer below [dec_layers] is weighted, and [class_error] never is. *)
Theorem build_weight_dict_spec (args : Config.args) :
  ∃ weight_dict,
    build_weight_dict args = Ok weight_dict
    ∧ (∀ k v,
         weight_dict !! k = Some v
         ↔ base_weight_dict args !! k = Some v
           ∨ (Config.aux_loss args = true
              ∧ ∃ i name,
                  (Z.of_nat i < Config.dec_layers args)%Z
                  ∧ name ∈ ["loss_bbox"; "loss_giou"; "loss_conf"]
                  ∧ k = aux_key name i
                  ∧ base_weight_dict args !! name = Some v))
    ∧ (∀ k i, Config.aux_loss args = true →
              (Z.of_nat i < Config.dec_layers args)%Z →
              written_for_layer k i → is_Some (weight_dict !! k))
    ∧ weight_dict !! "class_error" = None.
Proof.
  destruct (build_weight_dict_lookup args) as (weight_dict & Hbuild & Hiff).
  exists weight_dict. split; [done|]. split; [exact Hiff|]. split.
  - intros k i Haux Hi (name & Hname & ->)%written_for_layer_name.
    destruct (base_weight_dict_names args name Hname) as [v Hv].
    exists v. apply Hiff. right. split; [done|]. by exists i, name.
  - apply eq_None_not_Some. intros [v Hv]. apply Hiff in Hv
      as [Hb | (_ & i & name & _ & Hname & Hkey & _)].
    + unfold base_weight_dict, dict_of in Hb. cbn [foldl fst snd] in Hb.
      repeat (apply lookup_insert_Some in Hb as [[? _] | [_ Hb]];
              [discriminate|]).
      by rewrite lookup_empty in Hb.
    + repeat (apply elem_of_cons in Hname as [-> | Hname]);
        try (by apply elem_of_nil in Hname);
        unfold aux_key in Hkey; cbn in Hkey; discriminate Hkey.
Qed.

(** X18: the losses [forward] returns and the weights of
    [build_model] fit together.  For a criterion that carries the
    weight dictionary built from the arguments, and outputs whose
    auxiliary layers (if any) come with [aux_loss] set and are no more
    than [dec_layers], every key of the Loss Map a successful
    [forward] returns has a weight, except [class_error]. *)
Theorem forward_losses_weighted (args : Config.args) (self : SetCriterion)
    (dist : dist_context) (outputs : prediction_output)
    (targets : list target) (logits : tensor3)
    (L : gmap string R) (ind : assignment) (o' : prediction_output) :
  build_weight_dict args = Ok (weight_dict self) →
  tensors outputs !! "logits_per_hoi" = Some logits →
  (∀ layers, aux_outputs outputs = Some layers → layers ≠ [] →
     Config.aux_loss args = true
     ∧ (Z.of_nat (length layers) ≤ Config.dec_layers args)%Z) →
  forward accuracy generalized_box_iou box_cxcywh_to_xyxy
    self dist outputs targets = Ok (L, ind, o') →
  ∀ k, is_Some (L !! k) →
       k = "class_error" ∨ is_Some (weight_dict self !! k).
Proof.
  intros Hbuild Hlogits Hlayers Hfwd k Hk.
  destruct (build_weight_dict_lookup args) as (wd & Hwd & Hiff).
  rewrite Hbuild in Hwd. injection Hwd as <-.
  assert (∀ k, k ∈ primary_keys →
               k = "class_error" ∨ is_Some (weight_dict self !! k))
    as Hprimary.
  { intros k' Hk'. destruct (decide (k' = "class_error")) as [->|Hne];
      [by left|right].
    destruct (base_weight_dict_primary args k' Hk' Hne) as [v Hv].
    exists v. apply Hiff. by left. }
  apply forward_inv in Hfwd as (L0 & HL0 & Hrest).
  assert (∀ k, is_Some (L0 !! k) → k ∈ primary_keys) as HL0keys.
  { intros k'. eapply primary_losses_keys; [exact HL0|].
    intros k'' [v Hv]. by rewrite lookup_empty in Hv. }
  destruct (aux_outputs outputs) as [layers|] eqn:Haux.
  - destruct Hrest as (st' & Hst & -> & _ & _).
    rewrite Hlogits in Hst.
    apply aux_layers_inv in Hst as (_ & _ & _ & Hother).
    cbn [fst snd] in Hother.
    destruct (written_by_some_layer_dec k (length layers))
      as [(j & Hj & Hw) | Hnot].
    + right. destruct (Hlayers layers eq_refl) as [Hflag Hcount];
        [by destruct layers; cbn in Hj; [lia|]|].
      apply written_for_layer_name in Hw as (name & Hname & ->).
      destruct (base_weight_dict_names args name Hname) as [v Hv].
      exists v. apply Hiff. right. split; [done|].
      exists j, name. split; [lia|done].
    + apply Hprimary, HL0keys. rewrite <- Hother; [done|].
      intros j Hj. by apply Hnot.
  - destruct Hrest as (-> & _ & _). by apply Hprimary, HL0keys.
Qed.

(** *** The focal loss *)

Lemma bce_with_logits_nonneg (x y : R) :
  (0 <= y <= 1)%R → (0 <= Torch.bce_with_logits x y)%R.
Proof.
  intros [Hy0 Hy1]. unfold Torch.bce_with_logits.
  pose proof (exp_pos (- x)) as Hexp.
  assert (0 < ln (1 + exp (- x)))%R as Hln0.
  { rewrite <- ln_1. apply ln_increasing; lra. }
  assert (- x < ln (1 + exp (- x)))%R as Hlnx.
  { rewrite <- (ln_exp (- x)) at 1. apply ln_increasing; lra. }
  destruct (Rle_lt_dec 0 x) as [Hx | Hx]; nra.
Qed.

Lemma focal_term_nonneg (alpha gamma eps x y : R) :
  (0 <= y <= 1)%R →
  (0 <= Rabs (1 - y - alpha)
        * Rpower (Rabs (y - Torch.sigmoid x) + eps) gamma
        * Torch.bce_with_logits x y)%R.
Proof.
  intros Hy. apply Rmult_le_pos; [apply Rmult_le_pos|].
  - apply Rabs_pos.
  - unfold Rpower. left. apply exp_pos.
  - by apply bce_with_logits_nonneg.
Qed.

Lemma zip_with2_Forall {A B C} (f : A → B → C) (P : B → Prop)
    (Q : C → Prop) (x : list (list A)) (y : list (list B)) :
  (∀ a b, P b → Q (f a b)) →
  Forall (Forall P) y →
  Forall (Forall Q) (zip_with (zip_with f) x y).
Proof.
  intros Hf Hy. revert x.
  induction Hy as [|s y Hs _ IH]; intros [|r x]; cbn; try constructor.
  - clear IH. revert r. induction Hs as [|b s Hb _ IHs]; intros [|a r];
      cbn; try constructor; auto.
  - apply IH.
Qed.

Lemma shape2_zip_with2 {A B C} (f : A → B → C) (x : list (list A))
    (y : list (list B)) :
  Torch.shape2 x = Torch.shape2 y →
  Torch.shape2 (zip_with (zip_with f) x y) = Torch.shape2 x.
Proof.
  unfold Torch.shape2. revert y.
  induction x as [|r x IH]; intros [|s y] H; try done.
  cbn in *. injection H as Hrs Hxy. f_equal; [|by apply IH].
  rewrite length_zip_with. lia.
Qed.

Lemma length_concat_shape2 {A B} (x : list (list A)) (y : list (list B)) :
  Torch.shape2 x = Torch.shape2 y → length (concat x) = length (concat y).
Proof.
  unfold Torch.shape2. revert y.
  induction x as [|r x IH]; intros [|s y] H; try done.
  cbn in *. injection H as Hrs Hxy. rewrite !length_app.
  f_equal; [done|by apply IH].
Qed.

(** X19: the focal loss on logits and labels of one shape, with
    labels between 0 and 1.  With reduction ['sum'], and with ['mean']
    on a tensor that has an element, the function returns a number
    that is not negative; with ['none'] it returns a tensor of the
    shape of the input whose entries are not negative; any other
    reduction raises [ValueError]. *)
Theorem binary_focal_loss_nonneg (x y : list (list R))
    (alpha gamma : R) (reduction : string) (eps : R) :
  Torch.shape2 x = Torch.shape2 y →
  Forall (Forall (λ v, 0 <= v <= 1)%R) y →
  (0 < eps)%R →
  (reduction = "sum" ∨ (reduction = "mean" ∧ concat x ≠ []) →
   ∃ loss, binary_focal_loss_with_logits x y alpha gamma reduction eps
           = Ok (inl loss)
           ∧ (0 <= loss)%R)
  ∧ (reduction = "none" →
     ∃ loss, binary_focal_loss_with_logits x y alpha gamma reduction eps
             = Ok (inr loss)
             ∧ Torch.shape2 loss = Torch.shape2 x
             ∧ Forall (Forall (λ v, 0 <= v)%R) loss)
  ∧ (reduction ∉ ["mean"; "sum"; "none"] →
     binary_focal_loss_with_logits x y alpha gamma reduction eps
     = Raise ValueError).
Proof.
  intros Hshape Hy Heps.
  unfold binary_focal_loss_with_logits, binary_focal_loss_elementwise.
  rewrite decide_True by done. cbn [mbind result_bind].
  set (loss := zip_with (zip_with _) x y).
  assert (Forall (Forall (λ v, 0 <= v)%R) loss) as Hnonneg.
  { apply (zip_with2_Forall _ (λ v, 0 <= v <= 1)%R); [|done].
    intros a b Hb. by apply focal_term_nonneg. }
  assert (Forall (λ v, 0 <= v)%R (concat loss)) as Hflat
    by (by apply Forall_concat).
  split; [|split].
  - intros [-> | [-> Hne]].
    + rewrite decide_False by done. rewrite decide_True by done.
      eexists. split; [done|]. by apply sumR_nonneg.
    + rewrite decide_True by done. eexists. split; [done|].
      unfold Torch.mean. apply Rle_mult_inv_pos; [by apply sumR_nonneg|].
      apply lt_0_INR.
      rewrite (length_concat_shape2 loss x) by (by apply shape2_zip_with2).
      destruct (concat x); [done|cbn; lia].
  - intros ->. rewrite !decide_False by done. rewrite decide_True by done.
    eexists. split; [done|]. split; [by apply shape2_zip_with2|done].
  - intros Hred.
    rewrite !decide_False; [done|..];
      intros ->; apply Hred; apply (bool_decide_unpack _); by vm_compute.
Qed.

(** *** The box loss *)




End criterion_properties.

(** ** Worked instances *)

(** A criterion in training mode that considers all classes, without
    the focal loss; its matcher pairs slot 0 of every image with its
    first interaction. *)
Lemma loss_labels_consider_all_training_raises_witness :
  ∃ e,
    loss_labels (λ _ _, Ok 0%R)
      {| matcher := λ _ ts, (λ _, ([0], [0])) <$> ts;
         weight_dict := ∅; eos_coef := 1; losses := ["labels"];
         enable_focal_loss := false; focal_alpha := 1; focal_gamma := 2;
         consider_all := true; training := true |}
      {| tensors := {[ "logits_per_hoi" := [[[1; 2]]]%R ]};
         aux_outputs := None |}
      [ {| hois := [ {| subject_id := 0; object_id := 1; hoi_id := 1 |} ];
           boxes := []; mask_region_hw := None |} ]
      [([0], [0])] 1%R true
    = Raise e.
Proof.
  eapply loss_labels_consider_all_training_raises; reflexivity.
Defined.

Lemma normalizer_spec_witness :
  normalizer None [ {| hois := []; boxes := []; mask_region_hw := None |} ]
  = 1%R.
Proof.
  eapply normalizer_spec; reflexivity.
Defined.

(** One image with a 1x1 region map, two boxes and one interaction
    matched to slot 0. *)
Lemma loss_masks_spec_witness :
  is_Ok (loss_masks
    {| matcher := λ _ ts, (λ _, ([0], [0])) <$> ts;
       weight_dict := ∅; eos_coef := 1; losses := ["masks"];
       enable_focal_loss := false; focal_alpha := 1; focal_gamma := 2;
       consider_all := false; training := true |}
    {| tensors := {[ "hum_region" := [[[1]]]%R; "obj_region" := [[[2]]]%R;
                     "uni_region" := [[[3]]]%R ]};
       aux_outputs := None |}
    [ {| hois := [ {| subject_id := 0; object_id := 1; hoi_id := 7 |} ];
         boxes := [];
         mask_region_hw := Some [[[1]]; [[0]]]%R |} ]
    [([0], [0])] 1%R).
Proof.
  eexists.
  eapply (loss_masks_spec _ _ _ _ _ [[[1]]]%R [[[2]]]%R [[[3]]]%R [0] [0]
            [[[1]]]%R [[[2]]]%R [[[3]]]%R [([[1]], [[0]])]%R).
  - reflexivity.
  - reflexivity.
  - reflexivity.
  - reflexivity.
  - repeat constructor.
  - repeat constructor.
  - repeat constructor.
  - constructor; [|constructor].
    eexists _, _. repeat split; reflexivity.
  - discriminate.
  - reflexivity.
  - reflexivity.
  - reflexivity.
  - reflexivity.
Defined.

(** C1: on the worked batch, whose matcher answers slot 0 for the
    top-level outputs and slot 1 for an auxiliary layer, the call
    returns the assignment computed for the last auxiliary layer, not
    the primary one: the loop over the layers rebinds [indices]. *)
Theorem forward_returns_auxiliary_assignment :
  matcher ex_criterion ex_outputs ex_targets = [([0], [0])]
  ∧ ∃ L o',
      forward no_accuracy coinciding_boxes_iou corner_form
        ex_criterion None ex_outputs ex_targets
      = Ok (L, [([1], [0])], o').
Proof.
  split; [reflexivity|]. eexists _, _. vm_compute. reflexivity.
Qed.

(** C4 (as stated, refuted): on the worked batch the call succeeds and
    leaves the outputs mapping changed: its first auxiliary entry had
    no ["logits_per_hoi"] before the call and has one after it. *)
Lemma forward_updates_auxiliary_outputs :
  ∃ L ind o',
    forward no_accuracy coinciding_boxes_iou corner_form
      ex_criterion None ex_outputs ex_targets
    = Ok (L, ind, o')
    ∧ o' ≠ ex_outputs
    ∧ match aux_outputs ex_outputs with
      | Some (aux :: _) => aux !! "logits_per_hoi"
      | _ => None
      end = None
    ∧ match aux_outputs o' with
      | Some (aux :: _) => aux !! "logits_per_hoi"
      | _ => None
      end = Some [[[0; 0]; [0; 0]]]%R.
Proof.
  eexists _, _, _. split; [vm_compute; reflexivity|].
  split; [|split].
  - intros H.
    apply (f_equal (λ o, match aux_outputs o with
                         | Some (aux :: _) => aux !! "logits_per_hoi"
                         | _ => None
                         end)) in H.
    vm_compute in H. discriminate H.
  - reflexivity.
  - vm_compute. reflexivity.
Qed.

Lemma forward_outputs_frame_witness :
  ∃ L ind o',
    forward no_accuracy coinciding_boxes_iou corner_form
      ex_criterion None ex_outputs ex_targets
    = Ok (L, ind, o')
    ∧ tensors o' = tensors ex_outputs
    ∧ forward no_accuracy coinciding_boxes_iou corner_form
        ex_criterion None o' ex_targets
      = Ok (L, ind, o').
Proof.
  assert (∃ r, forward no_accuracy coinciding_boxes_iou corner_form
                 ex_criterion None ex_outputs ex_targets = Ok r)
    as [[[L ind] o'] H] by (eexists; vm_compute; reflexivity).
  exists L, ind, o'. split; [exact H|].
  destruct (forward_outputs_frame no_accuracy coinciding_boxes_iou
              corner_form ex_criterion None ex_outputs ex_targets L ind o' H)
    as (Ht & _ & _ & _ & Hagain).
  split; [exact Ht|]. apply Hagain. intros layers logits _ _. reflexivity.
Defined.

Lemma forward_auxiliary_losses_witness :
  ∃ L ind o',
    forward no_accuracy coinciding_boxes_iou corner_form
      ex_criterion None ex_outputs ex_targets
    = Ok (L, ind, o')
    ∧ is_Some (L !! "loss_bbox_0") ∧ is_Some (L !! "loss_giou_0")
    ∧ is_Some (L !! "loss_conf_0") ∧ is_Some (L !! "loss_bbox_1")
    ∧ is_Some (L !! "loss_giou_1") ∧ is_Some (L !! "loss_conf_1")
    ∧ L !! "loss_ce_0" = None ∧ L !! "loss_ce_1" = None.
Proof.
  edestruct (forward_auxiliary_losses no_accuracy coinciding_boxes_iou
               corner_form ex_criterion None ex_outputs ex_targets
               [ex_layer; ex_layer] [[[0; 0]; [0; 0]]]%R)
    as (L & ind & o' & Hfwd & Hvals & _ & _ & Hnone).
  - reflexivity.
  - reflexivity.
  - vm_compute. reflexivity.
  - intros [|[|j]] aux [= <-]; split; eexists; vm_compute; reflexivity.
  - exists L, ind, o'. split; [exact Hfwd|].
    destruct (Hvals 0 ex_layer eq_refl)
      as (b0 & g0 & c0 & _ & _ & Lb0 & Lg0 & Lc0).
    destruct (Hvals 1 ex_layer eq_refl)
      as (b1 & g1 & c1 & _ & _ & Lb1 & Lg1 & Lc1).
    repeat split; eauto.
    + apply (Hnone 0 "loss_ce"). repeat constructor.
    + apply (Hnone 1 "loss_ce"). repeat constructor.
Defined.

(** *** Small runs of the embedding *)

Example argmax_first_of_ties : Torch.argmax [0; 1; 1]%Z = Ok 1.
Proof. reflexivity. Qed.

Example argmax_all_zero : Torch.argmax [0; 0; 0]%Z = Ok 0.
Proof. reflexivity. Qed.

Example nonzero_positions :
  Torch.nonzero [false; true; false; true] = [1; 3].
Proof. reflexivity. Qed.

Example src_permutation_idx_run :
  _get_src_permutation_idx [([2; 0], [0; 1]); ([], []); ([1], [0])]
  = Ok ([0; 0; 2], [2; 0; 1]).
Proof. reflexivity. Qed.

Example keep_mask_run : keep_mask [1; 0; 1; 0]%Z 2 = [false; true; true; true].
Proof. reflexivity. Qed.

Example kept_columns_run :
  kept_columns [1; 0; 1; 0]%Z 2 = [1; 2; 3]
  ∧ position_within 2 (kept_columns [1; 0; 1; 0]%Z 2) = 1
  ∧ positive_columns [1; 0; 1; 0]%Z = [0; 2].
Proof. repeat split. Qed.

Example aux_key_run : aux_key "loss_bbox" 12 = "loss_bbox_12".
Proof. reflexivity. Qed.

(** Two images whose targets share class 7 and add one class each:
    three local classes in order of first appearance, and the shared
    class marks both of its matched predictions. *)
Example get_tgt_labels_run :
  _get_tgt_labels ex_criterion
    [ {| hois := [ {| subject_id := 0; object_id := 1; hoi_id := 7 |};
                   {| subject_id := 0; object_id := 1; hoi_id := 4 |} ];
         boxes := []; mask_region_hw := None |};
      {| hois := [ {| subject_id := 0; object_id := 1; hoi_id := 9 |};
                   {| subject_id := 0; object_id := 1; hoi_id := 7 |} ];
         boxes := []; mask_region_hw := None |} ]
    [([0; 1], [0; 1]); ([0; 1], [0; 1])]
  = Ok ([0; 1; 2; 0],
        Some (3, [[1; 0; 0]; [0; 1; 0]; [0; 0; 1]; [1; 0; 0]]%Z)).
Proof. vm_compute. reflexivity. Qed.

(** ** Worked instances of the further properties *)

Lemma forward_unknown_loss_raises_witness :
  ¬ is_Ok (forward no_accuracy coinciding_boxes_iou corner_form
             (ex_criterion_of ex_matcher ["boxes"; "giou"]) None
             ex_outputs ex_targets).
Proof.
  apply (forward_unknown_loss_raises _ _ _ _ _ _ _ "giou");
    by apply (bool_decide_unpack _).
Defined.

Lemma forward_aux_without_logits_raises_witness :
  ¬ is_Ok (forward no_accuracy coinciding_boxes_iou corner_form
             ex_criterion None
             {| tensors := ex_layer; aux_outputs := Some [ex_layer] |}
             ex_targets).
Proof.
  eapply forward_aux_without_logits_raises; reflexivity.
Defined.

Lemma loss_boxes_nothing_matched_raises_witness :
  loss_boxes coinciding_boxes_iou corner_form ex_criterion ex_outputs
    ex_targets [([], [])] 1%R
  = Raise RuntimeError.
Proof.
  apply loss_boxes_nothing_matched_raises.
  - repeat constructor.
  - by eexists.
  - discriminate.
  - repeat constructor.
Defined.

Lemma loss_masks_nothing_matched_raises_witness :
  ¬ is_Ok (loss_masks ex_criterion ex_outputs ex_targets [([], [])] 1%R).
Proof.
  apply loss_masks_nothing_matched_raises. repeat constructor.
Defined.

Lemma forward_nothing_matched_raises_witness :
  ¬ is_Ok (forward no_accuracy coinciding_boxes_iou corner_form
             (ex_criterion_of no_match ["boxes"; "confidences"]) None
             ex_outputs ex_targets).
Proof.
  apply forward_nothing_matched_raises.
  - by apply (bool_decide_unpack _).
  - repeat constructor.
Defined.

Lemma masked_out_cross_entropy_nonneg_witness :
  ∃ loss : R,
    masked_out_cross_entropy [[1; 2; 3]; [0; 0; 0]]%R
                             [[1; 0; 1]; [0; 7; -2]]%Z = Ok loss
    ∧ (0 <= loss)%R.
Proof.
  apply masked_out_cross_entropy_nonneg.
  - repeat constructor; done.
  - done.
Defined.

Lemma masked_out_cross_entropy_no_column_witness :
  masked_out_cross_entropy [[]; []] [[]; []] = Raise IndexError.
Proof. apply masked_out_cross_entropy_no_column. by left. Defined.

Lemma masked_out_cross_entropy_row_order_witness :
  masked_out_cross_entropy [[1; 2; 3]; [0; 0; 0]]%R [[1; 0; 1]; [0; 1; 0]]%Z
  = masked_out_cross_entropy [[0; 0; 0]; [1; 2; 3]]%R
                             [[0; 1; 0]; [1; 0; 1]]%Z.
Proof.
  apply (masked_out_cross_entropy_row_order
           [([1; 2; 3]%R, [1; 0; 1]%Z); ([0; 0; 0]%R, [0; 1; 0]%Z)]
           [([0; 0; 0]%R, [0; 1; 0]%Z); ([1; 2; 3]%R, [1; 0; 1]%Z)]).
  - apply perm_swap.
  - repeat constructor; done.
Defined.

Lemma masked_out_all_positive_row_witness :
  ∃ rest : R,
    masked_out_loss_sum [[1; 2]]%R [[0; 1]]%Z = Ok rest
    ∧ masked_out_loss_sum [[1; 2]; [3; 4]]%R [[0; 1]; [1; 1]]%Z = Ok rest
    ∧ masked_out_cross_entropy [[1; 2]; [3; 4]]%R [[0; 1]; [1; 1]]%Z
      = Ok (rest / INR 2)%R.
Proof.
  apply (masked_out_all_positive_row [[1; 2]]%R [] [[0; 1]]%Z []
           [3; 4]%R [1; 1]%Z).
  - repeat constructor; done.
  - constructor.
  - reflexivity.
  - cbn; lia.
  - repeat constructor.
Defined.

Lemma tgt_permutation_idx_spec_witness :
  ∃ batch_idx tgt_idx,
    _get_tgt_permutation_idx [([4], [1]); ([2; 3], [0; 1])]
    = Ok (batch_idx, tgt_idx)
    ∧ length batch_idx = length tgt_idx
    ∧ zip batch_idx tgt_idx
      = matched_target_coordinates [([4], [1]); ([2; 3], [0; 1])]
    ∧ (Forall (λ p : list nat * list nat, length p.1 = length p.2)
              [([4], [1]); ([2; 3], [0; 1])] →
       ∃ src_idx,
         _get_src_permutation_idx [([4], [1]); ([2; 3], [0; 1])]
         = Ok (batch_idx, src_idx)
         ∧ length src_idx = length tgt_idx).
Proof. apply tgt_permutation_idx_spec. done. Defined.

Lemma get_tgt_labels_training_witness :
  ∃ target_classes_i : list nat,
    _get_tgt_labels ex_criterion (ex_targets ++ ex_targets)
                    [([1], [0]); ([0], [0])]
    = Ok (target_classes_i, Some (1, one_hot 1 <$> target_classes_i))
    ∧ Forall (λ c, c < 1) target_classes_i.
Proof.
  destruct (get_tgt_labels_training ex_criterion (ex_targets ++ ex_targets)
              [([1], [0]); ([0], [0])])
    as (tci & H & _ & Hb & _).
  - reflexivity.
  - reflexivity.
  - done.
  - by repeat constructor.
  - repeat constructor; cbn; lia.
  - exists tci. split; [exact H|exact Hb].
Defined.

Lemma loss_confidences_spec_witness :
  loss_confidences ex_criterion ex_outputs ex_targets [([0], [0])] 1
  = Ok {[ "loss_conf" :=
            Torch.mean
              (concat
                 (per_slot
                    (λ b s row,
                       confidence_term
                         (eos_coef ex_criterion)
                         (bool_decide
                            ((b, s) ∈ matched_coordinates [([0], [0])]))
                         (nth 0 row 0%R))
                    [[[0]; [0]]]%R)) ]}.
Proof.
  apply loss_confidences_spec.
  - reflexivity.
  - repeat constructor.
  - done.
  - reflexivity.
  - repeat constructor.
  - repeat constructor. cbn. exists [[0]; [0]]%R. split; [done|cbn; lia].
Defined.

Lemma build_region_aware_encoder_mask_coverage_witness :
  Model.build_region_aware_encoder_mask 2 5 (λ _ _, Model.Finite 1)
  = Model.Returns
      [[Model.Finite 0; Model.Finite 0; Model.NegInf; Model.NegInf;
        Model.NegInf];
       [Model.NegInf; Model.NegInf; Model.Finite 0; Model.Finite 0;
        Model.NegInf]]
  ∧ Model.entry
      [[Model.Finite 0; Model.Finite 0; Model.NegInf; Model.NegInf;
        Model.NegInf];
       [Model.NegInf; Model.NegInf; Model.Finite 0; Model.Finite 0;
        Model.NegInf]] 1 4
    = Some Model.NegInf.
Proof.
  split; [reflexivity|].
  destruct (build_region_aware_encoder_mask_coverage 2 5
              (λ _ _, Model.Finite 1) _ eq_refl) as (_ & H & _).
  apply H; [|lia]. split; [exact (le_n 4)|lia].
Defined.

Lemma forward_losses_weighted_witness :
  ∃ L ind o',
    forward no_accuracy coinciding_boxes_iou corner_form
      ex_weighted_criterion None ex_outputs ex_targets
    = Ok (L, ind, o')
    ∧ ∀ k, is_Some (L !! k) →
           k = "class_error"
           ∨ is_Some (weight_dict ex_weighted_criterion !! k).
Proof.
  assert (∃ r, forward no_accuracy coinciding_boxes_iou corner_form
                 ex_weighted_criterion None ex_outputs ex_targets = Ok r)
    as [[[L ind] o'] Hfwd] by (eexists; vm_compute; reflexivity).
  exists L, ind, o'. split; [exact Hfwd|].
  apply (forward_losses_weighted no_accuracy coinciding_boxes_iou
           corner_form ex_args ex_weighted_criterion None ex_outputs
           ex_targets [[[0; 0]; [0; 0]]]%R L ind o').
  - vm_compute. reflexivity.
  - reflexivity.
  - intros layers [= <-] _. split; [reflexivity|]. cbn. lia.
  - exact Hfwd.
Defined.

Lemma binary_focal_loss_nonneg_witness :
  ∃ loss,
    binary_focal_loss_with_logits [[0; 1]]%R [[1; 0]]%R (1 / 2) 2 "sum"
      (1 / 1000000)
    = Ok (inl loss)
    ∧ (0 <= loss)%R.
Proof.
  destruct (binary_focal_loss_nonneg [[0; 1]]%R [[1; 0]]%R (1 / 2) 2 "sum"
              (1 / 1000000)) as [H _].
  - reflexivity.
  - repeat constructor; lra.
  - lra.
  - apply H. by left.
Defined.

